(** * Service-control client: aggregation and cache engine

    A shallow embedding of the C++ sources of the service-control client
    (money arithmetic, signatures, distributions with their initialisation,
    samples and merging, the operation aggregator, the check and report
    caches with their removed-items buffer, and the client facade with its
    calls, statistics and destructor), with the properties the
    specification states about them and further properties of the code.

    Conventions.
    - [int64_t] and [int] values are integers of [Z]; every arithmetic
      operation of the source is followed by an explicit two's-complement
      wrap ([wrap64], [wrap32]).
    - [double] values are the kernel's binary64 floats.
    - [std::string] is [string]; a byte of a string is an [ascii].
    - [std::unordered_map] is a [gmap]; the iteration order of the source is
      unspecified and the statements below never depend on it.
    - protobuf messages are records; a [oneof] is an inductive type and an
      optional sub-message is an [option].
    - a call that does not return (undefined behaviour, a failed
      assertion, an exception that is thrown) gives [None]. *)

From Stdlib Require Import ZArith Lia List String Ascii Bool Floats.
From stdpp Require Import gmap strings list fin_maps sorting.

#[local] Open Scope Z_scope.

(** ** Status codes ([google::protobuf::util::error::Code]) *)

Inductive Code : Set :=
| OK
| INVALID_ARGUMENT
| NOT_FOUND
| OUT_OF_RANGE.

#[global] Instance Code_eq_dec : EqDecision Code.
Proof. solve_decision. Defined.

(** ** Fixed-width integers *)

Module Int.

Definition INT64_MAX : Z := 9223372036854775807.
Definition INT64_MIN : Z := -9223372036854775808.
Definition INT32_MAX : Z := 2147483647.
Definition INT32_MIN : Z := -2147483648.

(** Two's-complement wrap of an integer to [w] bits, signed. *)
Definition wrap (w : Z) (z : Z) : Z :=
  (z + 2 ^ (w - 1)) mod 2 ^ w - 2 ^ (w - 1).

Definition wrap64 : Z -> Z := wrap 64.
Definition wrap32 : Z -> Z := wrap 32.

Definition in_int64 (z : Z) : Prop := INT64_MIN <= z <= INT64_MAX.
Definition in_int32 (z : Z) : Prop := INT32_MIN <= z <= INT32_MAX.

Lemma wrap64_range z : in_int64 (wrap64 z).
Proof.
  unfold in_int64, wrap64, wrap, INT64_MIN, INT64_MAX.
  pose proof (Z.mod_pos_bound (z + 2 ^ (64 - 1)) (2 ^ 64) ltac:(lia)). lia.
Qed.

Lemma wrap32_range z : in_int32 (wrap32 z).
Proof.
  unfold in_int32, wrap32, wrap, INT32_MIN, INT32_MAX.
  pose proof (Z.mod_pos_bound (z + 2 ^ (32 - 1)) (2 ^ 32) ltac:(lia)). lia.
Qed.

Lemma wrap64_id z : in_int64 z -> wrap64 z = z.
Proof.
  unfold in_int64, wrap64, wrap, INT64_MIN, INT64_MAX. intros H.
  rewrite Z.mod_small; lia.
Qed.

Lemma wrap32_id z : in_int32 z -> wrap32 z = z.
Proof.
  unfold in_int32, wrap32, wrap, INT32_MIN, INT32_MAX. intros H.
  rewrite Z.mod_small; lia.
Qed.

(** One overflow upwards: the value comes back [2^64] lower. *)
Lemma wrap64_above z :
  INT64_MAX < z <= INT64_MAX + 2 ^ 64 -> wrap64 z = z - 2 ^ 64.
Proof.
  unfold wrap64, wrap, INT64_MAX. intros H.
  replace (z + 2 ^ (64 - 1)) with ((z - 2 ^ 64 + 2 ^ (64 - 1)) + 1 * 2 ^ 64) by lia.
  rewrite Z.mod_add by lia. rewrite Z.mod_small; lia.
Qed.

(** One overflow downwards: the value comes back [2^64] higher. *)
Lemma wrap64_below z :
  INT64_MIN - 2 ^ 64 <= z < INT64_MIN -> wrap64 z = z + 2 ^ 64.
Proof.
  unfold wrap64, wrap, INT64_MIN. intros H.
  replace (z + 2 ^ (64 - 1)) with ((z + 2 ^ 64 + 2 ^ (64 - 1)) + (-1) * 2 ^ 64) by lia.
  rewrite Z.mod_add by lia. rewrite Z.mod_small; lia.
Qed.

End Int.

(** ** Money arithmetic ([src/money_utils.cc]) *)

Module MoneyUtils.
Import Int.

(** [google::type::Money]: a currency code, whole units ([int64]) and
    nano units ([int32]). *)
Record Money : Set := mkMoney {
  currency_code : string;
  units : Z;
  nanos : Z
}.

#[global] Instance Money_eq_dec : EqDecision Money.
Proof. solve_decision. Defined.

(** The fields hold values of their C++ types. *)
Definition wf_money (m : Money) : Prop :=
  in_int64 (units m) /\ in_int32 (nanos m).

Definition set_currency_code (s : string) (m : Money) : Money :=
  mkMoney s (units m) (nanos m).
Definition set_units (u : Z) (m : Money) : Money :=
  mkMoney (currency_code m) u (nanos m).
Definition set_nanos (n : Z) (m : Money) : Money :=
  mkMoney (currency_code m) (units m) n.
Definition clear_currency_code : Money -> Money := set_currency_code "".
Definition clear_units : Money -> Money := set_units 0.
Definition clear_nanos : Money -> Money := set_nanos 0.

Definition kMaxNanos : Z := 999999999.
Definition kBillion : Z := 1000000000.

Definition ValidateMoney (money : Money) : Code :=
  if (String.length (currency_code money) =? 0)%nat
     || negb (String.length (currency_code money) =? 3)%nat
  then INVALID_ARGUMENT
  else if ((0 <? units money) && (nanos money <? 0))
          || ((units money <? 0) && (0 <? nanos money))
  then INVALID_ARGUMENT
  else if (nanos money <? - kMaxNanos) || (kMaxNanos <? nanos money)
  then INVALID_ARGUMENT
  else OK.

Definition GetAmountSign (money : Money) : Z :=
  if 0 <? units money then 1
  else if units money <? 0 then -1
  else if 0 <? nanos money then 1
  else if nanos money <? 0 then -1
  else 0.

(** [TryAddMoney(a, b, sum)]: the third argument is the prior content of
    the output message; the result is the status and the output message
    after the call. *)
Definition TryAddMoney (a b sum : Money) : Code * Money :=
  if negb (String.eqb (currency_code a) (currency_code b)) then
    (INVALID_ARGUMENT, clear_nanos (clear_units (clear_currency_code sum)))
  else
    let sum := set_currency_code (currency_code a) sum in
    (* Calculate the sum of nanos. *)
    let sum_nanos := wrap32 (nanos a + nanos b) in
    let '(carry, sum_nanos) :=
      if kBillion <=? sum_nanos then (1, wrap32 (sum_nanos - kBillion))
      else if sum_nanos <=? - kBillion then (-1, wrap32 (sum_nanos + kBillion))
      else (0, sum_nanos) in
    (* Calculate the sum of units. *)
    let sum_units_no_carry := wrap64 (units a + units b) in
    let sum_units := wrap64 (sum_units_no_carry + carry) in
    let '(sum_units, sum_nanos) :=
      if (0 <? sum_units) && (sum_nanos <? 0)
      then (wrap64 (sum_units - 1), wrap32 (sum_nanos + kBillion))
      else if (sum_units <? 0) && (0 <? sum_nanos)
      then (wrap64 (sum_units + 1), wrap32 (sum_nanos - kBillion))
      else (sum_units, sum_nanos) in
    let sign_a := GetAmountSign a in
    let sign_b := GetAmountSign b in
    (* Detect positive overflow. *)
    if (0 <? sign_a) && (0 <? sign_b) && (sum_units <=? 0) then
      (OUT_OF_RANGE, set_nanos (kBillion - 1) (set_units INT64_MAX sum))
    (* Detect negative overflow. *)
    else if (sign_a <? 0) && (sign_b <? 0)
            && ((0 <=? sum_units_no_carry) || (0 <=? sum_units)) then
      (OUT_OF_RANGE, set_nanos (- kBillion + 1) (set_units INT64_MIN sum))
    else
      (OK, set_nanos sum_nanos (set_units sum_units sum)).

(** [SaturatedAddMoney]: the assertion admits [OK] and [OUT_OF_RANGE] only;
    a failed assertion aborts the program ([None]). *)
Definition SaturatedAddMoney (a b : Money) : option Money :=
  let '(status, sum) := TryAddMoney a b (mkMoney "" 0 0) in
  match status with
  | OK | OUT_OF_RANGE => Some sum
  | _ => None
  end.

(** The amount of a money value in nano units. *)
Definition amount (m : Money) : Z := units m * kBillion + nanos m.

(** The amounts a [Money] can hold: units in [int64], nanos within
    [±999999999] and of the sign of the units. *)
Definition representable (s : Z) : Prop :=
  INT64_MIN * kBillion - kMaxNanos <= s <= INT64_MAX * kBillion + kMaxNanos.

(** Both operands are below one unit in absolute value and strictly on the
    same side of zero (and, on the positive side, so is their sum). *)
Definition both_fractional (a b : Money) : Prop :=
  units a = 0 /\ units b = 0 /\
  ((0 < nanos a /\ 0 < nanos b /\ nanos a + nanos b < kBillion) \/
   (nanos a < 0 /\ nanos b < 0)).

(** *** Properties *)

Lemma wrap64_cases z :
  INT64_MIN - 2 ^ 64 <= z <= INT64_MAX + 2 ^ 64 ->
  (in_int64 z /\ wrap64 z = z) \/
  (INT64_MAX < z /\ wrap64 z = z - 2 ^ 64) \/
  (z < INT64_MIN /\ wrap64 z = z + 2 ^ 64).
Proof.
  intros H.
  destruct (Z_lt_le_dec INT64_MAX z) as [Hhi|Hhi].
  - right; left. split; [exact Hhi|]. apply wrap64_above. lia.
  - destruct (Z_lt_le_dec z INT64_MIN) as [Hlo|Hlo].
    + right; right. split; [exact Hlo|]. apply wrap64_below. lia.
    + left. split; [split; assumption|]. apply wrap64_id. split; assumption.
Qed.

Lemma ValidateMoney_OK m :
  ValidateMoney m = OK ->
  String.length (currency_code m) = 3%nat /\
  - kMaxNanos <= nanos m <= kMaxNanos /\
  (0 < units m -> 0 <= nanos m) /\
  (units m < 0 -> nanos m <= 0).
Proof.
  unfold ValidateMoney.
  destruct (String.length (currency_code m) =? 0)%nat eqn:E0; [discriminate|].
  destruct (String.length (currency_code m) =? 3)%nat eqn:E3; [|discriminate].
  cbn [orb negb].
  destruct (0 <? units m) eqn:Eu; destruct (nanos m <? 0) eqn:En;
    destruct (units m <? 0) eqn:Eu'; destruct (0 <? nanos m) eqn:En';
    cbn [andb orb]; try discriminate;
    destruct (nanos m <? - kMaxNanos) eqn:Elo;
    destruct (kMaxNanos <? nanos m) eqn:Ehi;
    cbn [orb]; try discriminate; intros _;
    apply Nat.eqb_eq in E3; unfold kMaxNanos in *; lia.
Qed.

Lemma GetAmountSign_cases m :
  (GetAmountSign m = 1 /\ (0 < units m \/ (units m = 0 /\ 0 < nanos m))) \/
  (GetAmountSign m = -1 /\ (units m < 0 \/ (units m = 0 /\ nanos m < 0))) \/
  (GetAmountSign m = 0 /\ units m = 0 /\ nanos m = 0).
Proof.
  unfold GetAmountSign.
  destruct (0 <? units m) eqn:E1; [left; lia|].
  destruct (units m <? 0) eqn:E2; [right; left; lia|].
  destruct (0 <? nanos m) eqn:E3; [left; lia|].
  destruct (nanos m <? 0) eqn:E4; [right; left; lia|].
  right; right; lia.
Qed.

(** Truncated division by a billion is determined by a decomposition whose
    remainder has the sign of the dividend. *)
Lemma quot_rem_billion S q r :
  S = q * 1000000000 + r -> -1000000000 < r < 1000000000 ->
  (0 <= S -> 0 <= r) -> (S <= 0 -> r <= 0) ->
  Z.quot S 1000000000 = q /\ Z.rem S 1000000000 = r.
Proof.
  intros HS Hr Hp Hm.
  Z.to_euclidean_division_equations. lia.
Qed.

(** The saturated value on the side of [sign]. *)
Definition saturated (sign : Z) (cc : string) : Money :=
  if 0 <? sign then mkMoney cc INT64_MAX (kBillion - 1)
  else mkMoney cc INT64_MIN (- kBillion + 1).

(** The exact sum, units and nanos of one sign (truncated division). *)
Definition exact_sum (a b : Money) : Money :=
  mkMoney (currency_code a)
          (Z.quot (amount a + amount b) kBillion)
          (Z.rem (amount a + amount b) kBillion).

(** The operands are strictly on the same side of zero and their exact sum
    is not representable. *)
Definition overflows (a b : Money) : bool :=
  (0 <? GetAmountSign a * GetAmountSign b) &&
  ((amount a + amount b <? INT64_MIN * kBillion - kMaxNanos) ||
   (INT64_MAX * kBillion + kMaxNanos <? amount a + amount b)).

Lemma overflows_representable a b :
  overflows a b = true <->
  0 < GetAmountSign a * GetAmountSign b /\ ~ representable (amount a + amount b).
Proof.
  unfold overflows, representable.
  rewrite andb_true_iff, orb_true_iff, !Z.ltb_lt. intuition lia.
Qed.

Ltac wrap64_split t :=
  let H := fresh "Hw" in
  let E := fresh "Ew" in
  destruct (wrap64_cases t) as [[H E]|[[H E]|[H E]]];
  [ unfold INT64_MIN, INT64_MAX; lia
  | unfold in_int64, INT64_MIN, INT64_MAX in H; rewrite E in *; clear E
  | unfold INT64_MAX in H; rewrite E in *; clear E
  | unfold INT64_MIN in H; rewrite E in *; clear E ].

Ltac money_eq :=
  match goal with
  | |- (OK, ?x) = (OK, ?y) =>
      match y with
      | context [Z.quot ?S _] =>
          match x with
          | {| units := ?q; nanos := ?r |} =>
              let H := fresh in
              destruct (quot_rem_billion S q r) as [H ?]; [lia..|];
              rewrite H; congruence
          end
      end
  end.

(** One step of the symbolic run of [TryAddMoney]: close the goal, remove
    a wrap whose argument is known to be in range (or split on the side it
    overflows), or split on a condition. *)
Ltac money_step :=
  first
  [ reflexivity
  | lia
  | money_eq
  | match goal with
    | |- context [wrap32 ?x] =>
        rewrite (wrap32_id x) by (unfold in_int32, INT32_MIN, INT32_MAX; lia)
    end
  | match goal with
    | |- context [wrap64 ?x] =>
        lazymatch x with
        | context [wrap64] => fail
        | _ => wrap64_split x
        end
    end
  | match goal with
    | |- context [if ?c then _ else _] =>
        lazymatch c with
        | context [wrap64] => fail
        | context [wrap32] => fail
        | _ => destruct c eqn:?
        end;
        rewrite ?andb_true_iff, ?andb_false_iff, ?orb_true_iff, ?orb_false_iff in *;
        rewrite ?Z.ltb_lt, ?Z.ltb_ge, ?Z.leb_le, ?Z.leb_gt in *
    end ].

(** The symbolic run of [TryAddMoney] on operands that are not both below
    one unit on the same side of zero. *)
Lemma TryAddMoney_sum a b sum :
  wf_money a -> wf_money b ->
  ValidateMoney a = OK -> ValidateMoney b = OK ->
  currency_code a = currency_code b ->
  ~ both_fractional a b ->
  TryAddMoney a b sum =
    if overflows a b
    then (OUT_OF_RANGE, saturated (GetAmountSign a) (currency_code a))
    else (OK, exact_sum a b).
Proof.
  intros [Wa1 Wa2] [Wb1 Wb2] Va Vb Hcc Hnf.
  apply ValidateMoney_OK in Va as (Hla & Hna & Hpa & Hma).
  apply ValidateMoney_OK in Vb as (Hlb & Hnb & Hpb & Hmb).
  unfold TryAddMoney. rewrite Hcc, String.eqb_refl. cbn [negb].
  unfold both_fractional in Hnf.
  unfold overflows, saturated, exact_sum, amount.
  unfold set_nanos, set_units, set_currency_code. cbn [currency_code units nanos].
  rewrite Hcc. clear Hla Hlb Hcc.
  unfold in_int64, in_int32, INT64_MIN, INT64_MAX, INT32_MIN, INT32_MAX,
    kMaxNanos, kBillion in *.
  change (- (1000000000)) with (-1000000000) in *.
  change (- (999999999)) with (-999999999) in *.
  change (1000000000 - 1) with 999999999 in *.
  change (-1000000000 + 1) with (-999999999) in *.
  rewrite (wrap32_id (nanos a + nanos b))
    by (unfold in_int32, INT32_MIN, INT32_MAX; lia).
  destruct (GetAmountSign_cases a) as [[Sa Ha]|[[Sa Ha]|[Sa Ha]]];
  destruct (GetAmountSign_cases b) as [[Sb Hb]|[[Sb Hb]|[Sb Hb]]];
  rewrite Sa, Sb; cbn [Z.ltb Z.mul Z.compare andb Z.leb Z.pos_sub Pos.mul].
  all: repeat money_step.
Qed.

(** On valid operands of one currency that are not both below one unit on
    the same side of zero, [TryAddMoney] is the exact sum, saturated (with
    [OUT_OF_RANGE]) exactly when the operands have the same sign and the
    sum is not representable. *)
Theorem TryAddMoney_exact a b sum :
  wf_money a -> wf_money b ->
  ValidateMoney a = OK -> ValidateMoney b = OK ->
  currency_code a = currency_code b ->
  ~ both_fractional a b ->
  TryAddMoney a b sum =
    if overflows a b
    then (OUT_OF_RANGE, saturated (GetAmountSign a) (currency_code a))
    else (OK, exact_sum a b).
Proof. exact (TryAddMoney_sum a b sum). Qed.

Lemma TryAddMoney_exact_witness :
  TryAddMoney (mkMoney "USD" 2 700000000) (mkMoney "USD" 5 600000000)
              (mkMoney "" 0 0)
  = (OK, mkMoney "USD" 8 300000000).
Proof.
  rewrite (TryAddMoney_exact (mkMoney "USD" 2 700000000)
                             (mkMoney "USD" 5 600000000) (mkMoney "" 0 0)).
  - reflexivity.
  - split; vm_compute; split; discriminate.
  - split; vm_compute; split; discriminate.
  - reflexivity.
  - reflexivity.
  - reflexivity.
  - unfold both_fractional; cbn; lia.
Defined.

(** The symbolic run of [TryAddMoney] on operands that are both below one
    unit on the same side of zero. *)
Lemma TryAddMoney_fraction a b sum :
  wf_money a -> wf_money b ->
  ValidateMoney a = OK -> ValidateMoney b = OK ->
  currency_code a = currency_code b ->
  both_fractional a b ->
  overflows a b = false /\
  TryAddMoney a b sum
  = (OUT_OF_RANGE, saturated (GetAmountSign a) (currency_code a)).
Proof.
  intros [Wa1 Wa2] [Wb1 Wb2] Va Vb Hcc (Ha & Hb & Hn).
  apply ValidateMoney_OK in Va as (Hla & Hna & Hpa & Hma).
  apply ValidateMoney_OK in Vb as (Hlb & Hnb & Hpb & Hmb).
  unfold TryAddMoney. rewrite Hcc, String.eqb_refl. cbn [negb].
  unfold overflows, saturated, amount.
  unfold set_nanos, set_units, set_currency_code. cbn [currency_code units nanos].
  rewrite ?Hcc. clear Hla Hlb Hcc.
  unfold GetAmountSign. rewrite Ha, Hb. cbn [Z.ltb Z.compare Z.add Z.mul].
  unfold in_int64, in_int32, INT64_MIN, INT64_MAX, INT32_MIN, INT32_MAX,
    kMaxNanos, kBillion in *.
  change (- (1000000000)) with (-1000000000) in *.
  change (- (999999999)) with (-999999999) in *.
  change (1000000000 - 1) with 999999999 in *.
  change (-1000000000 + 1) with (-999999999) in *.
  change (wrap64 0) with 0.
  rewrite (wrap32_id (nanos a + nanos b))
    by (unfold in_int32, INT32_MIN, INT32_MAX; lia).
  destruct Hn as [(Hpa' & Hpb' & Hs)|(Hna' & Hnb')].
  - rewrite (proj2 (Z.ltb_lt 0 (nanos a))) by lia.
    rewrite (proj2 (Z.ltb_lt 0 (nanos b))) by lia.
    cbn [Z.mul Pos.mul Z.ltb Z.compare andb].
    split.
    + apply andb_false_intro2. rewrite orb_false_iff, !Z.ltb_ge. lia.
    + repeat money_step.
  - rewrite (proj2 (Z.ltb_ge 0 (nanos a))) by lia.
    rewrite (proj2 (Z.ltb_ge 0 (nanos b))) by lia.
    rewrite (proj2 (Z.ltb_lt (nanos a) 0)) by lia.
    rewrite (proj2 (Z.ltb_lt (nanos b) 0)) by lia.
    cbn [Z.mul Pos.mul Z.ltb Z.compare andb].
    split.
    + apply andb_false_intro2. rewrite orb_false_iff, !Z.ltb_ge. lia.
    + repeat money_step.
Qed.

(** On valid operands of one currency that are both below one unit on the
    same side of zero, nothing overflows and [TryAddMoney] answers
    [OUT_OF_RANGE] with the saturated value of that side all the same. *)
Theorem TryAddMoney_both_fractional a b sum :
  wf_money a -> wf_money b ->
  ValidateMoney a = OK -> ValidateMoney b = OK ->
  currency_code a = currency_code b ->
  both_fractional a b ->
  overflows a b = false /\
  TryAddMoney a b sum
  = (OUT_OF_RANGE, saturated (GetAmountSign a) (currency_code a)).
Proof. exact (TryAddMoney_fraction a b sum). Qed.

Lemma TryAddMoney_both_fractional_witness :
  TryAddMoney (mkMoney "EUR" 0 250000000) (mkMoney "EUR" 0 500000000)
              (mkMoney "" 0 0)
  = (OUT_OF_RANGE, mkMoney "EUR" INT64_MAX 999999999).
Proof.
  refine (proj2 (TryAddMoney_both_fractional
                   (mkMoney "EUR" 0 250000000) (mkMoney "EUR" 0 500000000)
                   (mkMoney "" 0 0) _ _ _ _ _ _)).
  - split; vm_compute; split; discriminate.
  - split; vm_compute; split; discriminate.
  - reflexivity.
  - reflexivity.
  - reflexivity.
  - unfold both_fractional, kBillion; cbn; lia.
Defined.

(** The exact sum has the amount of the operands together, and is a valid
    money value when the operands' currency code is. *)
Lemma exact_sum_amount a b : amount (exact_sum a b) = amount a + amount b.
Proof.
  unfold exact_sum, amount at 1. cbn [units nanos].
  pose proof (Z.quot_rem' (amount a + amount b) kBillion). lia.
Qed.

Lemma exact_sum_valid a b :
  String.length (currency_code a) = 3%nat ->
  ValidateMoney (exact_sum a b) = OK.
Proof.
  intros Hl. unfold ValidateMoney, exact_sum. cbn [currency_code units nanos].
  rewrite Hl. cbn [Nat.eqb orb negb].
  set (S := amount a + amount b).
  assert (H : (0 < Z.quot S kBillion -> 0 <= Z.rem S kBillion) /\
              (Z.quot S kBillion < 0 -> Z.rem S kBillion <= 0) /\
              - kMaxNanos <= Z.rem S kBillion <= kMaxNanos).
  { unfold kBillion, kMaxNanos. Z.to_euclidean_division_equations. lia. }
  destruct H as (Hp & Hm & Hr).
  destruct (0 <? Z.quot S kBillion) eqn:E1; destruct (Z.rem S kBillion <? 0) eqn:E2;
    destruct (Z.quot S kBillion <? 0) eqn:E3; destruct (0 <? Z.rem S kBillion) eqn:E4;
    destruct (Z.rem S kBillion <? - kMaxNanos) eqn:E5;
    destruct (kMaxNanos <? Z.rem S kBillion) eqn:E6;
    cbn [andb orb]; try reflexivity; lia.
Qed.

(** C10. When the currency codes of [a] and [b] differ, [TryAddMoney]
    returns [INVALID_ARGUMENT] and the output message has its three fields
    (currency code, units, nanos) cleared to their defaults, whatever it
    held before the call. *)
Theorem TryAddMoney_currency_mismatch a b sum :
  currency_code a <> currency_code b ->
  TryAddMoney a b sum = (INVALID_ARGUMENT, mkMoney "" 0 0).
Proof.
  intros Hne. unfold TryAddMoney.
  destruct (String.eqb_spec (currency_code a) (currency_code b)) as [E|_].
  - contradiction.
  - reflexivity.
Qed.

Lemma TryAddMoney_currency_mismatch_witness :
  TryAddMoney (mkMoney "USD" 1 0) (mkMoney "EUR" 2 0) (mkMoney "JPY" 7 9)
  = (INVALID_ARGUMENT, mkMoney "" 0 0).
Proof.
  apply (TryAddMoney_currency_mismatch (mkMoney "USD" 1 0) (mkMoney "EUR" 2 0)).
  discriminate.
Defined.

(** C5. Two valid amounts of five and of three nano units of one currency:
    nothing overflows and their exact sum is eight nano units, yet
    [TryAddMoney] answers [OUT_OF_RANGE] with the saturated maximum; and
    likewise with the saturated minimum for minus five and minus three. *)
Theorem TryAddMoney_fractional_saturates :
  ValidateMoney (mkMoney "USD" 0 5) = OK /\
  ValidateMoney (mkMoney "USD" 0 3) = OK /\
  overflows (mkMoney "USD" 0 5) (mkMoney "USD" 0 3) = false /\
  exact_sum (mkMoney "USD" 0 5) (mkMoney "USD" 0 3) = mkMoney "USD" 0 8 /\
  TryAddMoney (mkMoney "USD" 0 5) (mkMoney "USD" 0 3) (mkMoney "" 0 0)
    = (OUT_OF_RANGE, mkMoney "USD" INT64_MAX 999999999) /\
  ValidateMoney (mkMoney "USD" 0 (-5)) = OK /\
  ValidateMoney (mkMoney "USD" 0 (-3)) = OK /\
  overflows (mkMoney "USD" 0 (-5)) (mkMoney "USD" 0 (-3)) = false /\
  TryAddMoney (mkMoney "USD" 0 (-5)) (mkMoney "USD" 0 (-3)) (mkMoney "" 0 0)
    = (OUT_OF_RANGE, mkMoney "USD" INT64_MIN (-999999999)).
Proof. repeat split; vm_compute; reflexivity. Qed.

(** *** Sums of valid money values *)

(** [TryAddMoney] does not depend on the order of its operands. *)
Theorem TryAddMoney_comm a b sum : TryAddMoney a b sum = TryAddMoney b a sum.
Proof.
  unfold TryAddMoney.
  destruct (String.eqb_spec (currency_code a) (currency_code b)) as [E|E].
  - rewrite E, String.eqb_refl. cbn [negb].
    rewrite (Z.add_comm (nanos b)), (Z.add_comm (units b)).
    rewrite (andb_comm (0 <? GetAmountSign b)), (andb_comm (GetAmountSign b <? 0)).
    reflexivity.
  - destruct (String.eqb_spec (currency_code b) (currency_code a)) as [E'|E'];
      [by symmetry in E'|reflexivity].
Qed.

Lemma saturated_valid sign cc :
  String.length cc = 3%nat ->
  ValidateMoney (saturated sign cc) = OK /\ wf_money (saturated sign cc) /\
  currency_code (saturated sign cc) = cc.
Proof.
  intros Hl. unfold saturated, ValidateMoney, wf_money.
  destruct (0 <? sign); cbn [currency_code units nanos]; rewrite Hl;
    repeat split; vm_compute; congruence.
Qed.

Lemma both_fractional_dec a b : both_fractional a b \/ ~ both_fractional a b.
Proof. unfold both_fractional. lia. Qed.

Lemma exact_sum_wf a b :
  wf_money a -> wf_money b ->
  ValidateMoney a = OK -> ValidateMoney b = OK ->
  overflows a b = false ->
  wf_money (exact_sum a b).
Proof.
  intros [Wa1 Wa2] [Wb1 Wb2] Va Vb Ho.
  apply ValidateMoney_OK in Va as (_ & Hna & Hpa & Hma).
  apply ValidateMoney_OK in Vb as (_ & Hnb & Hpb & Hmb).
  unfold overflows in Ho. unfold wf_money, exact_sum. cbn [units nanos].
  unfold amount in *.
  unfold in_int64, in_int32, INT64_MIN, INT64_MAX, INT32_MIN, INT32_MAX,
    kMaxNanos, kBillion in *.
  destruct (GetAmountSign_cases a) as [[Sa Ha]|[[Sa Ha]|[Sa Ha]]];
  destruct (GetAmountSign_cases b) as [[Sb Hb]|[[Sb Hb]|[Sb Hb]]];
    rewrite Sa, Sb in Ho; cbn [Z.ltb Z.mul Z.compare andb Pos.mul] in Ho;
    rewrite ?orb_false_iff, ?Z.ltb_ge in Ho;
    Z.to_euclidean_division_equations; lia.
Qed.

(** The sum of two valid money values of one currency is a valid money
    value of that currency, whether it is exact or saturated. *)
Theorem TryAddMoney_valid a b sum :
  wf_money a -> wf_money b ->
  ValidateMoney a = OK -> ValidateMoney b = OK ->
  currency_code a = currency_code b ->
  (TryAddMoney a b sum).1 <> INVALID_ARGUMENT /\
  ValidateMoney (TryAddMoney a b sum).2 = OK /\
  wf_money (TryAddMoney a b sum).2 /\
  currency_code (TryAddMoney a b sum).2 = currency_code a.
Proof.
  intros Wa Wb Va Vb Hcc.
  pose proof (ValidateMoney_OK a Va) as (Hl & _).
  destruct (both_fractional_dec a b) as [Hf|Hf].
  - destruct (TryAddMoney_fraction a b sum Wa Wb Va Vb Hcc Hf) as [_ ->].
    cbn [fst snd]. split; [discriminate|]. by apply saturated_valid.
  - rewrite (TryAddMoney_sum a b sum Wa Wb Va Vb Hcc Hf).
    destruct (overflows a b) eqn:Ho; cbn [fst snd].
    + split; [discriminate|]. by apply saturated_valid.
    + split; [discriminate|]. split; [by apply exact_sum_valid|].
      split; [by apply exact_sum_wf|reflexivity].
Qed.

(** [SaturatedAddMoney] of money values of different currencies fails its
    assertion; on valid values of one currency it is the exact sum, or the
    saturated value of the operands' side when the sum overflows or the
    operands are both below one unit on one side of zero. *)
Theorem SaturatedAddMoney_cases a b :
  (currency_code a <> currency_code b -> SaturatedAddMoney a b = None) /\
  (wf_money a -> wf_money b ->
   ValidateMoney a = OK -> ValidateMoney b = OK ->
   currency_code a = currency_code b ->
   (~ both_fractional a b ->
    SaturatedAddMoney a b
    = Some (if overflows a b then saturated (GetAmountSign a) (currency_code a)
            else exact_sum a b)) /\
   (both_fractional a b ->
    SaturatedAddMoney a b = Some (saturated (GetAmountSign a) (currency_code a)))).
Proof.
  unfold SaturatedAddMoney. split.
  - intros Hne. unfold TryAddMoney.
    by destruct (String.eqb_spec (currency_code a) (currency_code b)).
  - intros Wa Wb Va Vb Hcc. split; intros Hf.
    + rewrite (TryAddMoney_sum a b _ Wa Wb Va Vb Hcc Hf).
      by destruct (overflows a b).
    + by destruct (TryAddMoney_fraction a b (mkMoney "" 0 0) Wa Wb Va Vb Hcc Hf) as [_ ->].
Qed.

Lemma TryAddMoney_valid_witness :
  ValidateMoney
    (TryAddMoney (mkMoney "USD" INT64_MAX 999999999) (mkMoney "USD" 1 1)
                 (mkMoney "" 0 0)).2 = OK.
Proof.
  refine (proj1 (proj2 (TryAddMoney_valid
                   (mkMoney "USD" INT64_MAX 999999999) (mkMoney "USD" 1 1)
                   (mkMoney "" 0 0) _ _ _ _ _))).
  - split; vm_compute; split; discriminate.
  - split; vm_compute; split; discriminate.
  - reflexivity.
  - reflexivity.
  - reflexivity.
Defined.

Lemma SaturatedAddMoney_cases_witness :
  SaturatedAddMoney (mkMoney "USD" (-3) (-500000000)) (mkMoney "USD" 1 250000000)
  = Some (mkMoney "USD" (-2) (-250000000)).
Proof.
  refine (proj1 (proj2 (SaturatedAddMoney_cases
                          (mkMoney "USD" (-3) (-500000000))
                          (mkMoney "USD" 1 250000000)) _ _ _ _ _) _).
  - split; vm_compute; split; discriminate.
  - split; vm_compute; split; discriminate.
  - reflexivity.
  - reflexivity.
  - reflexivity.
  - unfold both_fractional, kBillion; cbn; lia.
Defined.

End MoneyUtils.

(** ** Messages

    The protobuf messages the sources read and write, with the fields the
    sources use. *)

Module Proto.
Export MoneyUtils.

(** [google::protobuf::Timestamp] *)
Record Timestamp : Set := mkTimestamp {
  seconds : Z;
  ts_nanos : Z
}.

(** An unset sub-message reads as the default instance. *)
Definition timestamp_or_default (t : option Timestamp) : Timestamp :=
  default (mkTimestamp 0 0) t.

(** The [bucket_option] oneof of a [Distribution]. *)
Inductive BucketOption : Set :=
| BUCKET_OPTION_NOT_SET
| LinearBuckets (num_finite_buckets : Z) (width offset : float)
| ExponentialBuckets (num_finite_buckets : Z) (growth_factor scale : float)
| ExplicitBuckets (bounds : list float).

Record Distribution : Set := mkDistribution {
  count : Z;
  mean : float;
  minimum : float;
  maximum : float;
  sum_of_squared_deviation : float;
  bucket_counts : list Z;
  bucket_option : BucketOption
}.

(** The [value] oneof of a [MetricValue]. *)
Inductive Value : Set :=
| VALUE_NOT_SET
| Int64Value (v : Z)
| DoubleValue (v : float)
| DistributionValue (v : Distribution)
| MoneyValue (v : Money).

(** [value_case()] of a [MetricValue]. *)
Inductive ValueCase : Set :=
| kNotSet | kInt64Value | kDoubleValue | kDistributionValue | kMoneyValue.

#[global] Instance ValueCase_eq_dec : EqDecision ValueCase.
Proof. solve_decision. Defined.

Definition value_case_of (v : Value) : ValueCase :=
  match v with
  | VALUE_NOT_SET => kNotSet
  | Int64Value _ => kInt64Value
  | DoubleValue _ => kDoubleValue
  | DistributionValue _ => kDistributionValue
  | MoneyValue _ => kMoneyValue
  end.

Record MetricValue : Set := mkMetricValue {
  labels : gmap string string;
  start_time : option Timestamp;
  end_time : option Timestamp;
  value : Value
}.

Definition value_case (mv : MetricValue) : ValueCase := value_case_of (value mv).

Record MetricValueSet : Set := mkMetricValueSet {
  metric_name : string;
  metric_values : list MetricValue
}.

Inductive Importance : Set := LOW | HIGH.

#[global] Instance Importance_eq_dec : EqDecision Importance.
Proof. solve_decision. Defined.

(** A log entry is carried along and never inspected. *)
Record LogEntry : Set := mkLogEntry {
  log_name : string;
  text_payload : string
}.

Record Operation : Set := mkOperation {
  operation_name : string;
  consumer_id : string;
  op_start_time : option Timestamp;
  op_end_time : option Timestamp;
  op_labels : gmap string string;
  metric_value_sets : list MetricValueSet;
  log_entries : list LogEntry;
  importance : Importance
}.

Definition default_Operation : Operation :=
  mkOperation "" "" None None ∅ [] [] LOW.

Record CheckRequest : Set := mkCheckRequest {
  cq_service_name : string;
  cq_operation : option Operation
}.

(** [request.operation()]: the default instance when the field is unset. *)
Definition operation (request : CheckRequest) : Operation :=
  default default_Operation (cq_operation request).

Definition has_operation (request : CheckRequest) : bool :=
  match cq_operation request with Some _ => true | None => false end.

Record CheckError : Set := mkCheckError {
  error_code : Z;
  error_detail : string
}.

Record CheckResponse : Set := mkCheckResponse {
  operation_id : string;
  check_errors : list CheckError
}.

Definition check_errors_size (r : CheckResponse) : Z :=
  Z.of_nat (length (check_errors r)).

Record ReportRequest : Set := mkReportRequest {
  rq_service_name : string;
  service_config_id : string;
  operations : list Operation
}.

(** [MetricDescriptor::MetricKind] *)
Inductive MetricKind : Set := DELTA | GAUGE | CUMULATIVE.

#[global] Instance MetricKind_eq_dec : EqDecision MetricKind.
Proof. solve_decision. Defined.

End Proto.

(** ** Signatures ([src/signature.cc]) *)

(** The MD5 digest of a byte string ([utils/md5.h]). The digest is a
    parameter of the development: no statement depends on what it
    computes. *)
Class MD5 := MD5_Digest : string -> string.

(** A stand-in for the digest in closed examples: the hashed bytes
    themselves. *)
Definition plain_digest : MD5 := fun data => data.

Module Signature.
Import Proto.

Definition kDelimiter : string := String "000"%char EmptyString.

(** The hasher is the bytes it was fed; [Update] appends. *)
Definition Update (data : string) (hasher : string) : string :=
  (hasher ++ data)%string.

(** [std::map<string, string> ordered_labels(labels.begin(), labels.end())]:
    the entries of the map in the order of their keys. *)
Definition label_le (x y : string * string) : Prop :=
  String.leb x.1 y.1 = true.

#[global] Instance label_le_dec x y : Decision (label_le x y).
Proof. unfold label_le. apply _. Defined.

Definition ordered_labels (labels : gmap string string) : list (string * string) :=
  merge_sort label_le (map_to_list labels).

Definition UpdateHashLabels (labels : gmap string string) (hasher : string) : string :=
  fold_left
    (fun h label =>
       Update label.2 (Update kDelimiter (Update label.1 (Update kDelimiter h))))
    (ordered_labels labels) hasher.

Definition UpdateHashMetricValue (metric_value : MetricValue) (hasher : string) : string :=
  UpdateHashLabels (labels metric_value) hasher.

Section WithDigest.
Context `{md5 : MD5}.

Definition GenerateReportOperationSignature (operation : Operation) : string :=
  let hasher := Update (consumer_id operation) "" in
  let hasher := Update kDelimiter hasher in
  let hasher := Update (operation_name operation) hasher in
  let hasher := UpdateHashLabels (op_labels operation) hasher in
  MD5_Digest hasher.

Definition GenerateReportMetricValueSignature (metric_value : MetricValue) : string :=
  MD5_Digest (UpdateHashMetricValue metric_value "").

Definition GenerateCheckRequestSignature (request : CheckRequest) : string :=
  let operation := operation request in
  let hasher := Update (operation_name operation) "" in
  let hasher := Update kDelimiter hasher in
  let hasher := Update (consumer_id operation) hasher in
  let hasher := Update kDelimiter hasher in
  let hasher := UpdateHashLabels (op_labels operation) hasher in
  let hasher :=
    fold_left
      (fun h metric_value_set =>
         let h := Update kDelimiter h in
         let h := Update (metric_name metric_value_set) h in
         fold_left (fun h metric_value => UpdateHashMetricValue metric_value h)
                   (metric_values metric_value_set) h)
      (metric_value_sets operation) hasher in
  let hasher := Update kDelimiter hasher in
  MD5_Digest hasher.

(** The metric-value signature reads the labels and nothing else. *)
Lemma GenerateReportMetricValueSignature_labels mv1 mv2 :
  labels mv1 = labels mv2 ->
  GenerateReportMetricValueSignature mv1 = GenerateReportMetricValueSignature mv2.
Proof.
  intros E. unfold GenerateReportMetricValueSignature, UpdateHashMetricValue.
  by rewrite E.
Qed.

(** C4. Two money values with the same labels and different currency
    codes (US dollars and euros, no label) have the same report
    metric-value signature, under any digest: the currency code is not
    hashed. *)
Theorem money_signature_ignores_currency :
  labels (mkMetricValue ∅ None None (MoneyValue (mkMoney "USD" 1000 0)))
    = labels (mkMetricValue ∅ None None (MoneyValue (mkMoney "EUR" 1000 0))) /\
  currency_code (mkMoney "USD" 1000 0) <> currency_code (mkMoney "EUR" 1000 0) /\
  GenerateReportMetricValueSignature
    (mkMetricValue ∅ None None (MoneyValue (mkMoney "USD" 1000 0)))
  = GenerateReportMetricValueSignature
      (mkMetricValue ∅ None None (MoneyValue (mkMoney "EUR" 1000 0))) /\
  UpdateHashMetricValue
    (mkMetricValue ∅ None None (MoneyValue (mkMoney "USD" 1000 0))) ""
  = ""%string.
Proof.
  split; [reflexivity|]. split; [discriminate|]. split.
  - apply GenerateReportMetricValueSignature_labels. reflexivity.
  - vm_compute. reflexivity.
Qed.

End WithDigest.

(** *** What the signatures read *)

(** What a check request is cached under: the operation name, the
    consumer, the labels and, for every metric value set, the metric name
    and the labels of its values. *)
Definition check_key (operation : Operation)
  : string * string * gmap string string * list (string * list (gmap string string)) :=
  (operation_name operation, consumer_id operation, op_labels operation,
   (fun s => (metric_name s, labels <$> metric_values s))
   <$> metric_value_sets operation).

(** What a reported operation is aggregated under. *)
Definition report_key (operation : Operation) : string * string * gmap string string :=
  (consumer_id operation, operation_name operation, op_labels operation).

Lemma fold_UpdateHashMetricValue vs1 vs2 h :
  labels <$> vs1 = labels <$> vs2 ->
  fold_left (fun h metric_value => UpdateHashMetricValue metric_value h) vs1 h
  = fold_left (fun h metric_value => UpdateHashMetricValue metric_value h) vs2 h.
Proof.
  revert vs2 h. induction vs1 as [|v1 vs1 IH]; intros [|v2 vs2] h E; try done.
  rewrite !fmap_cons in E. injection E as E1 E2.
  cbn [fold_left]. unfold UpdateHashMetricValue at 2 4. rewrite E1. by apply IH.
Qed.

Section Keys.
Context `{md5 : MD5}.

(** The signatures read the key fields and nothing else: not the service
    name of the request, not the values, times, log entries or importance
    of the operation. *)
Theorem signatures_read_keys :
  (forall r1 r2,
     check_key (operation r1) = check_key (operation r2) ->
     GenerateCheckRequestSignature r1 = GenerateCheckRequestSignature r2) /\
  (forall op1 op2,
     report_key op1 = report_key op2 ->
     GenerateReportOperationSignature op1 = GenerateReportOperationSignature op2).
Proof.
  split.
  - intros r1 r2 E. unfold GenerateCheckRequestSignature.
    generalize dependent (operation r2). generalize (operation r1).
    intros op1 op2 E. unfold check_key in E. injection E as E1 E2 E3 E4.
    rewrite E1, E2, E3. f_equal. f_equal.
    generalize (UpdateHashLabels (op_labels op2)
                  (Update kDelimiter
                     (Update (consumer_id op2)
                        (Update kDelimiter (Update (operation_name op2) ""))))).
    revert E4. generalize (metric_value_sets op2). generalize (metric_value_sets op1).
    induction l as [|s1 l1 IH]; intros [|s2 l2] E h; try done.
    rewrite !fmap_cons in E. injection E as En Ev El.
    cbn [fold_left]. rewrite En, (fold_UpdateHashMetricValue _ _ _ Ev). by apply IH.
  - intros op1 op2 E. unfold report_key in E. injection E as E1 E2 E3.
    unfold GenerateReportOperationSignature. by rewrite E1, E2, E3.
Qed.

End Keys.

(** Two requests of one key: a cheap one of the library service and a
    costly one, with a start time and a log entry, of another service. *)
Definition cheap_request : CheckRequest :=
  mkCheckRequest "library.googleapis.com"
    (Some (mkOperation "ListShelves" "project:p" None None ∅
             [mkMetricValueSet "tokens" [mkMetricValue ∅ None None (Int64Value 1)]]
             [] LOW)).
Definition costly_request : CheckRequest :=
  mkCheckRequest "bookstore.googleapis.com"
    (Some (mkOperation "ListShelves" "project:p" (Some (mkTimestamp 5 0)) None ∅
             [mkMetricValueSet "tokens" [mkMetricValue ∅ None None (Int64Value 200)]]
             [mkLogEntry "access" "GET /shelves"] HIGH)).

Lemma signatures_read_keys_witness :
  GenerateCheckRequestSignature (md5 := plain_digest) cheap_request
  = GenerateCheckRequestSignature (md5 := plain_digest) costly_request.
Proof.
  apply (proj1 (signatures_read_keys (md5 := plain_digest)) cheap_request costly_request).
  reflexivity.
Defined.

End Signature.

(** ** Distributions ([utils/distribution_helper.cc]) *)

Module DistributionHelper.
Import Int Proto.
#[local] Open Scope float_scope.

(** Conversion of an [int64] to [double] (round to nearest, ties to even). *)
Definition double_of_int64 (z : Z) : float :=
  SF2Prim (binary_normalize prec emax z 0%Z false).

(** [std::min(a, b)] is [b < a ? b : a]; [std::max(a, b)] is
    [a < b ? b : a]. *)
Definition std_min (a b : float) : float := if PrimFloat.ltb b a then b else a.
Definition std_max (a b : float) : float := if PrimFloat.ltb a b then b else a.

(** The binary64 value nearest to [1e-5]. *)
Definition epsilon : float := 0x1.4f8b588e368f1p-17.

Definition IsCloseEnough (x y : float) : bool :=
  PrimFloat.leb (PrimFloat.abs (x - y)) (epsilon * PrimFloat.abs x).

(** The loop over the bounds of two explicit schemes of one size. *)
Fixpoint bounds_close (first second : list float) : bool :=
  match first, second with
  | x :: first', y :: second' =>
      if negb (IsCloseEnough x y) then false else bounds_close first' second'
  | _, _ => true
  end.

Definition BucketsApproximatelyEqual (first second : Distribution) : bool :=
  match bucket_option first, bucket_option second with
  | LinearBuckets n1 w1 o1, LinearBuckets n2 w2 o2 =>
      if negb (n1 =? n2)%Z then false
      else if negb (IsCloseEnough w1 w2) then false
      else if negb (IsCloseEnough o1 o2) then false
      else true
  | ExponentialBuckets n1 g1 s1, ExponentialBuckets n2 g2 s2 =>
      if negb (n1 =? n2)%Z then false
      else if negb (IsCloseEnough g1 g2) then false
      else if negb (IsCloseEnough s1 s2) then false
      else true
  | ExplicitBuckets b1, ExplicitBuckets b2 =>
      if negb (length b1 =? length b2)%nat then false
      else bounds_close b1 b2
  | _, _ => false
  end.

Definition set_count (c : Z) (d : Distribution) : Distribution :=
  mkDistribution c (mean d) (minimum d) (maximum d)
                 (sum_of_squared_deviation d) (bucket_counts d) (bucket_option d).
Definition set_mean (x : float) (d : Distribution) : Distribution :=
  mkDistribution (count d) x (minimum d) (maximum d)
                 (sum_of_squared_deviation d) (bucket_counts d) (bucket_option d).
Definition set_minimum (x : float) (d : Distribution) : Distribution :=
  mkDistribution (count d) (mean d) x (maximum d)
                 (sum_of_squared_deviation d) (bucket_counts d) (bucket_option d).
Definition set_maximum (x : float) (d : Distribution) : Distribution :=
  mkDistribution (count d) (mean d) (minimum d) x
                 (sum_of_squared_deviation d) (bucket_counts d) (bucket_option d).
Definition set_sum_of_squared_deviation (x : float) (d : Distribution) : Distribution :=
  mkDistribution (count d) (mean d) (minimum d) (maximum d)
                 x (bucket_counts d) (bucket_option d).

(** [to->set_bucket_counts(i, v)]: an update in place. *)
Definition set_bucket_counts (i : nat) (v : Z) (d : Distribution) : Distribution :=
  mkDistribution (count d) (mean d) (minimum d) (maximum d)
                 (sum_of_squared_deviation d) (<[i := v]> (bucket_counts d))
                 (bucket_option d).

(** [bucket_counts(i)] of an index in range (the loop of [Merge] runs
    after the sizes were found equal). *)
Definition bucket_count_at (i : nat) (d : Distribution) : Z :=
  default 0%Z (bucket_counts d !! i).

(** The last loop of [Merge]. *)
Definition add_bucket_counts (from to : Distribution) : Distribution :=
  fold_left
    (fun to i =>
       set_bucket_counts i (wrap64 (bucket_count_at i to + bucket_count_at i from)) to)
    (seq 0 (length (bucket_counts from))) to.

Definition Merge (from to : Distribution) : Code * Distribution :=
  if negb (BucketsApproximatelyEqual from to) then (INVALID_ARGUMENT, to)
  else if negb (length (bucket_counts from) =? length (bucket_counts to))%nat
  then (INVALID_ARGUMENT, to)
  else if (count from <=? 0)%Z then (OK, to)
  else if (count to <=? 0)%Z then (OK, from)
  else
    let count0 := count to in
    let mean0 := mean to in
    let sum_of_squared_deviation0 := sum_of_squared_deviation to in
    let to := set_count (wrap64 (count to + count from)) to in
    let to := set_minimum (std_min (minimum from) (minimum to)) to in
    let to := set_maximum (std_max (maximum from) (maximum to)) to in
    let to :=
      set_mean ((double_of_int64 count0 * mean0
                 + double_of_int64 (count from) * mean from)
                / double_of_int64 (count to)) to in
    let to :=
      set_sum_of_squared_deviation
        (sum_of_squared_deviation0 + sum_of_squared_deviation from
         + double_of_int64 count0 * (mean to - mean0) * (mean to - mean0)
         + double_of_int64 (count from) * (mean to - mean from)
           * (mean to - mean from)) to in
    (OK, add_bucket_counts from to).

(** *** Initialisation and samples *)

Section Samples.
#[local] Open Scope Z_scope.

(** [std::isnan] *)
Definition is_nan (x : float) : bool := negb (PrimFloat.eqb x x).

(** [static_cast<int>(x)]: the value truncated toward zero; undefined
    ([None]) when the truncated value is not an [int], for infinities and
    for NaN. *)
Definition int_of_double (x : float) : option Z :=
  match Prim2SF x with
  | S754_zero _ => Some 0
  | S754_finite s m e =>
      let magnitude :=
        if 0 <=? e then Z.pos m * 2 ^ e else Z.pos m / 2 ^ (- e) in
      let z := if s then - magnitude else magnitude in
      if (INT32_MIN <=? z) && (z <=? INT32_MAX) then Some z else None
  | _ => None
  end.

Definition set_bucket_option (o : BucketOption) (d : Distribution) : Distribution :=
  mkDistribution (count d) (mean d) (minimum d) (maximum d)
                 (sum_of_squared_deviation d) (bucket_counts d) o.

(** [mutable_bucket_counts()->Resize(new_size, 0)]: the first [new_size]
    counts, with zeros for the missing ones. *)
Definition Resize (new_size : Z) (d : Distribution) : Distribution :=
  mkDistribution (count d) (mean d) (minimum d) (maximum d)
                 (sum_of_squared_deviation d)
                 (resize (Z.to_nat new_size) 0 (bucket_counts d))
                 (bucket_option d).

Definition InitExponential (num_finite_buckets : Z) (growth_factor scale : float)
    (distribution : Distribution) : Code * Distribution :=
  if num_finite_buckets <=? 0 then (INVALID_ARGUMENT, distribution)
  else if PrimFloat.leb growth_factor 1 then (INVALID_ARGUMENT, distribution)
  else if PrimFloat.leb scale 0 then (INVALID_ARGUMENT, distribution)
  else
    (OK,
     Resize (wrap32 (num_finite_buckets + 2))
            (set_bucket_option
               (ExponentialBuckets num_finite_buckets growth_factor scale)
               distribution)).

Definition InitLinear (num_finite_buckets : Z) (width offset : float)
    (distribution : Distribution) : Code * Distribution :=
  if num_finite_buckets <=? 0 then (INVALID_ARGUMENT, distribution)
  else if PrimFloat.leb width 0 then (INVALID_ARGUMENT, distribution)
  else
    (OK,
     Resize (wrap32 (num_finite_buckets + 2))
            (set_bucket_option (LinearBuckets num_finite_buckets width offset)
                               distribution)).

(** [std::is_sorted]: no element is less than the one before it. *)
Fixpoint is_sorted (l : list float) : bool :=
  match l with
  | x :: (y :: _) as l' => if PrimFloat.ltb y x then false else is_sorted l'
  | _ => true
  end.

(** [std::adjacent_find(...) != end]: two consecutive elements are equal. *)
Fixpoint adjacent_find (l : list float) : bool :=
  match l with
  | x :: (y :: _) as l' => if PrimFloat.eqb x y then true else adjacent_find l'
  | _ => false
  end.

(** [explicit_buckets().bounds()]: empty when another scheme is set. *)
Definition explicit_bounds (d : Distribution) : list float :=
  match bucket_option d with
  | ExplicitBuckets bounds => bounds
  | _ => []
  end.

(** [mutable_explicit_buckets()] keeps the bounds of an explicit scheme
    that is already set; the new bounds are added after them. *)
Definition InitExplicit (bounds : list float) (distribution : Distribution)
  : Code * Distribution :=
  if negb (is_sorted bounds) then (INVALID_ARGUMENT, distribution)
  else if adjacent_find bounds then (INVALID_ARGUMENT, distribution)
  else
    (OK,
     Resize (wrap32 (Z.of_nat (length bounds) + 1))
            (set_bucket_option (ExplicitBuckets (explicit_bounds distribution ++ bounds))
                               distribution)).

(** Updates general statistics other than bucket count. *)
Definition UpdateGeneralStatictics (value : float) (distribution : Distribution)
  : Distribution :=
  if (count distribution =? 0)%Z then
    set_sum_of_squared_deviation 0
      (set_mean value
         (set_minimum value (set_maximum value (set_count 1 distribution))))
  else
    let count0 := count distribution in
    let mean0 := mean distribution in
    let new_mean :=
      ((double_of_int64 count0 * mean0 + value)
       / double_of_int64 (wrap64 (count0 + 1)))%float in
    let distribution :=
      set_sum_of_squared_deviation
        (sum_of_squared_deviation distribution
         + ((value - mean0) * (value - new_mean)))%float distribution in
    let distribution := set_count (wrap64 (count0 + 1)) distribution in
    let distribution :=
      set_minimum (std_min value (minimum distribution)) distribution in
    let distribution :=
      set_maximum (std_max value (maximum distribution)) distribution in
    set_mean new_mean distribution.

(** [distribution->set_bucket_counts(bucket_index,
    distribution->bucket_counts(bucket_index) + 1)]; the accessors do not
    check the index: out of range the behaviour is undefined ([None]). *)
Definition increment_bucket (bucket_index : Z) (distribution : Distribution)
  : option Distribution :=
  if (0 <=? bucket_index)
     && (bucket_index <? Z.of_nat (length (bucket_counts distribution)))
  then
    Some (set_bucket_counts
            (Z.to_nat bucket_index)
            (wrap64 (bucket_count_at (Z.to_nat bucket_index) distribution + 1))
            distribution)
  else None.

Definition UpdateLinearBucketCount (value : float) (distribution : Distribution)
  : option Distribution :=
  match bucket_option distribution with
  | LinearBuckets num_finite_buckets width offset =>
      let upper_bound := (offset + double_of_int64 num_finite_buckets * width)%float in
      let lower_bound := offset in
      bucket_index ←
        (if PrimFloat.ltb value lower_bound || is_nan value then Some 0
         else if PrimFloat.leb upper_bound value
         then Some (wrap32 (num_finite_buckets + 1))
         else
           cast ← int_of_double ((value - lower_bound) / width)%float;
           Some (wrap32 (1 + cast)));
      increment_bucket bucket_index distribution
  | _ => None
  end.

(** [std::upper_bound]: the binary search of the standard library, on
    the range of [len] elements from position [first]; [fuel] bounds the
    number of rounds. *)
Fixpoint upper_bound_loop (fuel : nat) (bounds : list float) (value : float)
    (first len : nat) : nat :=
  match fuel with
  | O => first
  | S fuel =>
      if (len =? 0)%nat then first
      else
        let half := (len / 2)%nat in
        let middle := (first + half)%nat in
        if PrimFloat.ltb value (default 0%float (bounds !! middle))
        then upper_bound_loop fuel bounds value first half
        else upper_bound_loop fuel bounds value (middle + 1)%nat (len - half - 1)%nat
  end.

(** The position [std::upper_bound(bounds.begin(), bounds.end(), value)]
    returns: every round halves the range, so [length bounds] rounds are
    enough. *)
Definition upper_bound (bounds : list float) (value : float) : nat :=
  upper_bound_loop (length bounds) bounds value 0 (length bounds).

Definition UpdateExplicitBucketCount (value : float) (distribution : Distribution)
  : option Distribution :=
  let bounds := explicit_bounds distribution in
  (* [bounds.Get(0)] *)
  first_bound ← bounds !! 0%nat;
  let bucket_index :=
    if PrimFloat.leb first_bound value
    then Z.of_nat (upper_bound bounds value)
    else 0 in
  increment_bucket bucket_index distribution.

(** [log2] of the C library, whose rounding the platform decides: a
    parameter. *)
Variable log2 : float -> float.

Definition UpdateExponentialBucketCount (value : float) (distribution : Distribution)
  : option Distribution :=
  match bucket_option distribution with
  | ExponentialBuckets num_finite_buckets growth_factor scale =>
      bucket_index ←
        (if PrimFloat.leb scale value then
           cast ← int_of_double (log2 (value / scale) / log2 growth_factor)%float;
           let bucket_index := wrap32 (1 + cast) in
           Some (if wrap32 (num_finite_buckets + 1) <? bucket_index
                 then wrap32 (num_finite_buckets + 1)
                 else bucket_index)
         else Some 0);
      increment_bucket bucket_index distribution
  | _ => None
  end.

(** [AddSample]: the status and the distribution after the call; [None]
    when the call runs into undefined behaviour. *)
Definition AddSample (value : float) (distribution : Distribution)
  : option (Code * Distribution) :=
  match bucket_option distribution with
  | ExponentialBuckets _ _ _ =>
      distribution ←
        UpdateExponentialBucketCount value (UpdateGeneralStatictics value distribution);
      Some (OK, distribution)
  | LinearBuckets _ _ _ =>
      distribution ←
        UpdateLinearBucketCount value (UpdateGeneralStatictics value distribution);
      Some (OK, distribution)
  | ExplicitBuckets _ =>
      distribution ←
        UpdateExplicitBucketCount value (UpdateGeneralStatictics value distribution);
      Some (OK, distribution)
  | BUCKET_OPTION_NOT_SET => Some (INVALID_ARGUMENT, distribution)
  end.

(** The samples of a list, one after the other. *)
Definition AddSamples (values : list float) (distribution : Distribution)
  : option Distribution :=
  foldl (fun d value => d ← d; snd <$> AddSample value d) (Some distribution) values.

End Samples.

(** *** The merged statistics, as the formulas read *)

(** The count-weighted average of the two means. *)
Definition weighted_mean (from to : Distribution) : float :=
  (double_of_int64 (count to) * mean to
   + double_of_int64 (count from) * mean from)
  / double_of_int64 (wrap64 (count to + count from)).

(** The parallel-variance combination of the two sums of squared
    deviations, around the merged mean [m]. *)
Definition parallel_variance (from to : Distribution) (m : float) : float :=
  sum_of_squared_deviation to + sum_of_squared_deviation from
  + double_of_int64 (count to) * (m - mean to) * (m - mean to)
  + double_of_int64 (count from) * (m - mean from) * (m - mean from).

(** The bucket-wise sum. *)
Definition sum_bucket_counts (from to : list Z) : list Z :=
  zip_with (fun t f => wrap64 (t + f)) to from.

Definition merged (from to : Distribution) : Distribution :=
  mkDistribution
    (wrap64 (count to + count from))
    (weighted_mean from to)
    (std_min (minimum from) (minimum to))
    (std_max (maximum from) (maximum to))
    (parallel_variance from to (weighted_mean from to))
    (sum_bucket_counts (bucket_counts from) (bucket_counts to))
    (bucket_option to).

(** *** Properties *)

Section BucketLoop.
#[local] Open Scope Z_scope.

(** The loop body of [Merge] on the list of counts alone. *)
Definition add_at (from : list Z) (acc : list Z) (i : nat) : list Z :=
  <[i := wrap64 (default 0 (acc !! i) + default 0 (from !! i))]> acc.

Lemma add_bucket_counts_list from to :
  add_bucket_counts from to =
  mkDistribution (count to) (mean to) (minimum to) (maximum to)
    (sum_of_squared_deviation to)
    (fold_left (add_at (bucket_counts from)) (seq 0 (length (bucket_counts from)))
               (bucket_counts to))
    (bucket_option to).
Proof.
  unfold add_bucket_counts.
  generalize (seq 0 (length (bucket_counts from))) as idx.
  intros idx. revert to.
  induction idx as [|i idx IH]; intros to.
  - by destruct to.
  - cbn [fold_left]. rewrite IH. reflexivity.
Qed.

Lemma fold_add_at_shift f0 from x idx acc :
  fold_left (add_at (f0 :: from)) (S <$> idx) (x :: acc)
  = x :: fold_left (add_at from) idx acc.
Proof.
  revert acc. induction idx as [|i idx IH]; intros acc.
  - reflexivity.
  - cbn [fmap list_fmap fold_left]. unfold add_at at 2. cbn [lookup list_lookup insert list_insert].
    rewrite IH. reflexivity.
Qed.

Lemma fold_add_at_zip from to :
  length from = length to ->
  fold_left (add_at from) (seq 0 (length from)) to = sum_bucket_counts from to.
Proof.
  revert to. induction from as [|f from IH]; intros [|t to] Hlen;
    try discriminate; [reflexivity|].
  cbn [length seq fold_left]. unfold add_at at 2.
  cbn [lookup list_lookup insert list_insert default].
  rewrite <- fmap_S_seq.
  rewrite fold_add_at_shift, IH by (cbn in Hlen; lia).
  reflexivity.
Qed.

End BucketLoop.

(** Past the two compatibility checks and the two guards on the counts,
    [Merge] yields the merged statistics. *)
Lemma Merge_combine from to :
  BucketsApproximatelyEqual from to = true ->
  length (bucket_counts from) = length (bucket_counts to) ->
  (0 < count from)%Z -> (0 < count to)%Z ->
  Merge from to = (OK, merged from to).
Proof.
  intros Hb Hl Hf Ht. unfold Merge. rewrite Hb. cbn [negb].
  rewrite (proj2 (Nat.eqb_eq _ _) Hl). cbn [negb].
  rewrite (proj2 (Z.leb_gt _ _) Hf), (proj2 (Z.leb_gt _ _) Ht).
  cbv zeta. rewrite add_bucket_counts_list.
  rewrite fold_add_at_zip by exact Hl.
  reflexivity.
Qed.

(** Two samples (1 and 3) merged into one sample (5), on a linear scheme
    of two finite buckets of width 2. *)
Definition sample_from : Distribution :=
  mkDistribution 2 2 1 3 2 [0; 1; 1; 0]%Z (LinearBuckets 2 2 0).
Definition sample_to : Distribution :=
  mkDistribution 1 5 5 5 0 [0; 0; 0; 1]%Z (LinearBuckets 2 2 0).

(** A distribution whose count is negative, on the same scheme. *)
Definition negative_from : Distribution :=
  mkDistribution (-1) 2 1 3 2 [0; 1; 1; 0]%Z (LinearBuckets 2 2 0).

(** C6, as the source has it. When the bucket schemes are not
    approximately equal or the numbers of bucket counts differ, [Merge]
    returns [INVALID_ARGUMENT] and leaves [to] as it was. Otherwise, when
    [from.count <= 0] it returns [OK] and leaves [to] as it was; otherwise,
    when [to.count <= 0] it returns [OK] with [to] a copy of [from];
    otherwise it returns [OK] with the counts and bucket counts summed, the
    minimum of the minima, the maximum of the maxima, the count-weighted
    mean and the parallel-variance sum of squared deviations. *)
Theorem Merge_cases from to :
  (BucketsApproximatelyEqual from to = false \/
   length (bucket_counts from) <> length (bucket_counts to) ->
   Merge from to = (INVALID_ARGUMENT, to)) /\
  (BucketsApproximatelyEqual from to = true ->
   length (bucket_counts from) = length (bucket_counts to) ->
   ((count from <= 0)%Z -> Merge from to = (OK, to)) /\
   ((0 < count from)%Z -> (count to <= 0)%Z -> Merge from to = (OK, from)) /\
   ((0 < count from)%Z -> (0 < count to)%Z ->
    Merge from to = (OK, merged from to) /\
    count (merged from to) = wrap64 (count to + count from) /\
    bucket_counts (merged from to)
      = zip_with (fun t f => wrap64 (t + f)) (bucket_counts to) (bucket_counts from) /\
    minimum (merged from to) = std_min (minimum from) (minimum to) /\
    maximum (merged from to) = std_max (maximum from) (maximum to) /\
    mean (merged from to) = weighted_mean from to /\
    sum_of_squared_deviation (merged from to)
      = parallel_variance from to (weighted_mean from to))).
Proof.
  split.
  - intros [Hb|Hl]; unfold Merge.
    + rewrite Hb. reflexivity.
    + destruct (BucketsApproximatelyEqual from to); [|reflexivity]. cbn [negb].
      destruct (Nat.eqb_spec (length (bucket_counts from)) (length (bucket_counts to)));
        [contradiction|reflexivity].
  - intros Hb Hl. repeat split.
    + intros Hf. unfold Merge. rewrite Hb. cbn [negb].
      rewrite (proj2 (Nat.eqb_eq _ _) Hl). cbn [negb].
      rewrite (proj2 (Z.leb_le _ _) Hf). reflexivity.
    + intros Hf Ht. unfold Merge. rewrite Hb. cbn [negb].
      rewrite (proj2 (Nat.eqb_eq _ _) Hl). cbn [negb].
      rewrite (proj2 (Z.leb_gt _ _) Hf), (proj2 (Z.leb_le _ _) Ht). reflexivity.
    + apply Merge_combine; assumption.
Qed.

Lemma Merge_cases_witness :
  Merge sample_from sample_to
  = (OK, mkDistribution 3 3 1 5 8 [0; 1; 1; 1]%Z (LinearBuckets 2 2 0)).
Proof.
  destruct (Merge_cases sample_from sample_to) as [_ H].
  destruct (H eq_refl eq_refl) as (_ & _ & Hm).
  destruct (Hm eq_refl eq_refl) as (E & _).
  rewrite E. reflexivity.
Defined.

(** C6, counterexample. With equal schemes and sizes, a [from] of
    negative count and a [to] of count one: neither count is zero, yet
    [Merge] leaves [to] as it was and its count is not the sum. *)
Lemma Merge_negative_count_unchanged :
  BucketsApproximatelyEqual negative_from sample_to = true /\
  length (bucket_counts negative_from) = length (bucket_counts sample_to) /\
  count negative_from <> 0%Z /\ count sample_to <> 0%Z /\
  Merge negative_from sample_to = (OK, sample_to) /\
  count (Merge negative_from sample_to).2
    <> wrap64 (count sample_to + count negative_from).
Proof. repeat split; vm_compute; congruence. Qed.

(** *** Initialisation and samples: properties *)

#[local] Open Scope Z_scope.

(** *** The order of binary64 values *)

Definition SFkey (x : spec_float) : Z * Z * Z :=
  match x with
  | S754_zero _ => (0, 0, 0)
  | S754_infinity s => (if s then -2 else 2, 0, 0)
  | S754_nan => (3, 0, 0)
  | S754_finite s m e => if s then (-1, - e, Z.neg m) else (1, e, Z.pos m)
  end.

Definition lex_compare (a b : Z * Z * Z) : comparison :=
  match a.1.1 ?= b.1.1 with
  | Eq => match a.1.2 ?= b.1.2 with
          | Eq => a.2 ?= b.2
          | c => c
          end
  | c => c
  end.

Lemma SFcompare_key x y :
  x <> S754_nan -> y <> S754_nan ->
  SFcompare x y = Some (lex_compare (SFkey x) (SFkey y)).
Proof.
  intros Hx Hy.
  destruct x as [sx|sx| |sx mx ex], y as [sy|sy| |sy my ey]; try congruence;
    try (destruct sx; reflexivity); try (destruct sy; reflexivity);
    try (destruct sx, sy; reflexivity).
  destruct sx, sy; try reflexivity; unfold lex_compare;
    cbn [SFcompare SFkey fst snd];
    change (IntDef.Z.compare ex ey) with (ex ?= ey);
    change (PosDef.Pos.compare_cont Eq mx my) with (mx ?= my)%positive.
  change (-1 ?= -1) with Eq. cbv iota.
  destruct (Z.compare_spec ex ey), (Z.compare_spec (- ex) (- ey)); try lia;
    reflexivity.
Qed.

Definition lex_lt (a b : Z * Z * Z) : Prop :=
  a.1.1 < b.1.1 \/ (a.1.1 = b.1.1 /\ (a.1.2 < b.1.2 \/ (a.1.2 = b.1.2 /\ a.2 < b.2))).

Lemma lex_compare_Lt a b : lex_compare a b = Lt <-> lex_lt a b.
Proof.
  unfold lex_compare, lex_lt.
  destruct (Z.compare_spec a.1.1 b.1.1), (Z.compare_spec a.1.2 b.1.2),
    (Z.compare_spec a.2 b.2); split; try discriminate; try lia; reflexivity.
Qed.

Lemma lex_compare_Eq a b : lex_compare a b = Eq <-> a = b.
Proof.
  unfold lex_compare. destruct a as [[a1 a2] a3], b as [[b1 b2] b3]. cbn [fst snd].
  destruct (Z.compare_spec a1 b1), (Z.compare_spec a2 b2),
    (Z.compare_spec a3 b3); split; try discriminate; try (intros [= ]; lia);
    intros _; congruence.
Qed.

Lemma Prim2SF_nan x : is_nan x = false <-> Prim2SF x <> S754_nan.
Proof.
  unfold is_nan. rewrite FloatAxioms.eqb_spec. unfold SFeqb.
  destruct (Prim2SF x) as [s|s| |s m e] eqn:E.
  - split; [discriminate|reflexivity].
  - split; [discriminate|]. by destruct s.
  - split; [discriminate|congruence].
  - split; [discriminate|]. intros _.
    rewrite SFcompare_key by discriminate.
    by rewrite (proj2 (lex_compare_Eq _ _) eq_refl).
Qed.

(** The key of a value that is not NaN. *)
Definition key (x : float) : Z * Z * Z := SFkey (Prim2SF x).

Lemma ltb_key x y :
  is_nan x = false -> is_nan y = false ->
  PrimFloat.ltb x y = true <-> lex_lt (key x) (key y).
Proof.
  intros Hx%Prim2SF_nan Hy%Prim2SF_nan. rewrite FloatAxioms.ltb_spec. unfold SFltb.
  rewrite SFcompare_key by assumption. rewrite <- lex_compare_Lt.
  unfold key. destruct (lex_compare _ _); split; congruence.
Qed.

Lemma eqb_key x y :
  is_nan x = false -> is_nan y = false ->
  PrimFloat.eqb x y = true <-> key x = key y.
Proof.
  intros Hx%Prim2SF_nan Hy%Prim2SF_nan. rewrite FloatAxioms.eqb_spec. unfold SFeqb.
  rewrite SFcompare_key by assumption. rewrite <- lex_compare_Eq.
  unfold key. destruct (lex_compare _ _); split; congruence.
Qed.

Lemma leb_key x y :
  is_nan x = false -> is_nan y = false ->
  PrimFloat.leb x y = true <-> lex_lt (key x) (key y) \/ key x = key y.
Proof.
  intros Hx%Prim2SF_nan Hy%Prim2SF_nan. rewrite FloatAxioms.leb_spec. unfold SFleb.
  rewrite SFcompare_key by assumption. rewrite <- lex_compare_Lt, <- lex_compare_Eq.
  unfold key. destruct (lex_compare _ _); split; try congruence; intuition congruence.
Qed.

Lemma ltb_nan x y : is_nan x = true \/ is_nan y = true -> PrimFloat.ltb x y = false.
Proof.
  unfold is_nan. rewrite !negb_true_iff, !FloatAxioms.eqb_spec, FloatAxioms.ltb_spec. unfold SFeqb, SFltb.
  destruct (Prim2SF x) as [s|s| |s m e] eqn:Ex, (Prim2SF y) as [s'|s'| |s' m' e'] eqn:Ey;
    try reflexivity; intros [H|H]; exfalso; revert H.
  all: try (destruct s; discriminate); try (destruct s'; discriminate).
  all: rewrite SFcompare_key by discriminate;
       by rewrite (proj2 (lex_compare_Eq _ _) eq_refl).
Qed.

Lemma lex_lt_trichotomy a b : lex_lt a b \/ a = b \/ lex_lt b a.
Proof.
  destruct a as [[a1 a2] a3], b as [[b1 b2] b3]. unfold lex_lt. cbn [fst snd].
  destruct (Z.lt_trichotomy a1 b1) as [?|[?|?]],
           (Z.lt_trichotomy a2 b2) as [?|[?|?]],
           (Z.lt_trichotomy a3 b3) as [?|[?|?]]; subst; auto; try lia.
  all: try (left; lia); try (right; right; lia).
Qed.

Lemma lex_lt_irrefl a : ~ lex_lt a a.
Proof. unfold lex_lt. lia. Qed.

Lemma lex_lt_trans a b c : lex_lt a b -> lex_lt b c -> lex_lt a c.
Proof. unfold lex_lt. lia. Qed.

Lemma lex_lt_asym a b : lex_lt a b -> ~ lex_lt b a.
Proof. unfold lex_lt. lia. Qed.

(** [x < y] on values that are not NaN is a strict total order up to
    [==]. *)
Lemma ltb_trans x y z :
  is_nan x = false -> is_nan y = false -> is_nan z = false ->
  PrimFloat.ltb x y = true -> PrimFloat.ltb y z = true -> PrimFloat.ltb x z = true.
Proof.
  intros Hx Hy Hz. rewrite !ltb_key by assumption. apply lex_lt_trans.
Qed.

Lemma ltb_false_leb x y :
  is_nan x = false -> is_nan y = false ->
  PrimFloat.ltb x y = false <-> PrimFloat.leb y x = true.
Proof.
  intros Hx Hy. rewrite leb_key by assumption.
  rewrite <- not_true_iff_false, ltb_key by assumption.
  destruct (lex_lt_trichotomy (key x) (key y)) as [H|[H|H]].
  - split; [tauto|]. intros [H'|H'].
    + by apply lex_lt_asym in H.
    + rewrite H' in H. by apply lex_lt_irrefl in H.
  - split; [auto|]. intros _. rewrite H. apply lex_lt_irrefl.
  - split; [auto|]. intros _. by apply lex_lt_asym.
Qed.

Lemma ltb_not_nan x y :
  PrimFloat.ltb x y = true -> is_nan x = false /\ is_nan y = false.
Proof.
  intros H. destruct (is_nan x) eqn:Hx.
  - rewrite ltb_nan in H by auto. discriminate.
  - destruct (is_nan y) eqn:Hy; [|done].
    rewrite ltb_nan in H by auto. discriminate.
Qed.

Lemma eqb_nan x y : is_nan x = true \/ is_nan y = true -> PrimFloat.eqb x y = false.
Proof.
  unfold is_nan. rewrite !negb_true_iff, !FloatAxioms.eqb_spec. unfold SFeqb.
  destruct (Prim2SF x) as [s|s| |s m e] eqn:Ex, (Prim2SF y) as [s'|s'| |s' m' e'] eqn:Ey;
    try reflexivity; intros [H|H]; exfalso; revert H.
  all: try (destruct s; discriminate); try (destruct s'; discriminate).
  all: rewrite SFcompare_key by discriminate;
       by rewrite (proj2 (lex_compare_Eq _ _) eq_refl).
Qed.

(** The bounds as [InitExplicit] wants them: each one less than the
    next. *)
Definition increasing (bounds : list float) : Prop :=
  Sorted (fun x y => PrimFloat.ltb x y = true) bounds.

Definition no_nan (bounds : list float) : Prop :=
  Forall (fun b => is_nan b = false) bounds.

Lemma increasing_checks bounds :
  no_nan bounds ->
  increasing bounds <-> is_sorted bounds = true /\ adjacent_find bounds = false.
Proof.
  unfold increasing, no_nan.
  induction bounds as [|x [|y l] IH]; intros Hn.
  - split; [done|]. intros _. constructor.
  - split; [done|]. intros _. by repeat constructor.
  - apply Forall_cons in Hn as [Hx Hn]. pose proof Hn as Hn'.
    apply Forall_cons in Hn' as [Hy _].
    cbn [is_sorted adjacent_find]. split.
    + intros Hs. apply Sorted_inv in Hs as [Hs Hh]. apply HdRel_inv in Hh.
      apply IH in Hs as [Hs1 Hs2]; [|exact Hn].
      assert (PrimFloat.ltb y x = false) as ->.
      { apply not_true_iff_false. rewrite ltb_key in Hh |- * by assumption.
        by apply lex_lt_asym. }
      assert (PrimFloat.eqb x y = false) as ->; [|done].
      apply not_true_iff_false. rewrite eqb_key by assumption.
      rewrite ltb_key in Hh by assumption. intros E. rewrite E in Hh.
      by apply lex_lt_irrefl in Hh.
    + destruct (PrimFloat.ltb y x) eqn:Hyx; [intros [? _]; discriminate|].
      destruct (PrimFloat.eqb x y) eqn:Hxy; [intros [_ ?]; discriminate|].
      intros Hs. apply IH in Hs; [|exact Hn].
      constructor; [exact Hs|]. constructor.
      apply not_true_iff_false in Hyx, Hxy.
      rewrite ltb_key in Hyx |- * by assumption. rewrite eqb_key in Hxy by assumption.
      destruct (lex_lt_trichotomy (key x) (key y)) as [H|[H|H]]; tauto.
Qed.

(** Increasing bounds are increasing at any distance. *)
Lemma increasing_lookup bounds i j x y :
  no_nan bounds -> increasing bounds ->
  (i < j)%nat -> bounds !! i = Some x -> bounds !! j = Some y ->
  PrimFloat.ltb x y = true.
Proof.
  intros Hn Hs. unfold increasing in Hs.
  assert (Hss : StronglySorted
                  (fun x y => is_nan x = false /\ is_nan y = false /\
                              PrimFloat.ltb x y = true) bounds).
  { apply Sorted_StronglySorted.
    - intros a b c (Ha & Hb & Hab) (_ & Hc & Hbc). repeat split; try done.
      by apply (ltb_trans a b c).
    - clear -Hs. induction Hs as [|a l Hs IH Hh]; constructor; [exact IH|].
      destruct Hh as [|b l Hab]; constructor.
      by destruct (ltb_not_nan _ _ Hab). }
  clear Hs Hn. revert i j. induction Hss as [|a l Hss IH Hall]; intros i j Hij Hi Hj.
  - by rewrite lookup_nil in Hi.
  - destruct j as [|j]; [lia|]. cbn in Hj. destruct i as [|i].
    + cbn in Hi. inversion Hi; subst.
      rewrite Forall_forall in Hall.
      apply list_elem_of_lookup_2 in Hj. by apply Hall in Hj as (_ & _ & ?).
    + cbn in Hi. apply (IH i j); [lia|done|done].
Qed.

(** *** The binary search *)

Lemma upper_bound_loop_range fuel bounds value first len :
  (len <= fuel)%nat ->
  (first <= upper_bound_loop fuel bounds value first len <= first + len)%nat.
Proof.
  revert first len. induction fuel as [|fuel IH]; intros first len Hf.
  - cbn. lia.
  - cbn [upper_bound_loop]. destruct (Nat.eqb_spec len 0) as [->|Hl]; [lia|].
    pose proof (Nat.div_lt len 2 ltac:(lia) ltac:(lia)) as Hhalf.
    destruct (PrimFloat.ltb _ _).
    + specialize (IH first (len / 2)%nat ltac:(lia)). lia.
    + specialize (IH (first + len / 2 + 1)%nat (len - len / 2 - 1)%nat ltac:(lia)). lia.
Qed.

Lemma upper_bound_le bounds value :
  (upper_bound bounds value <= length bounds)%nat.
Proof.
  unfold upper_bound.
  pose proof (upper_bound_loop_range (length bounds) bounds value 0 (length bounds)
                ltac:(lia)). lia.
Qed.

(** The precondition of [std::upper_bound]: the elements [value] is not
    less than come before the others. *)
Definition partitioned (bounds : list float) (value : float) : Prop :=
  forall i j x y,
    (i <= j)%nat -> bounds !! i = Some x -> bounds !! j = Some y ->
    PrimFloat.ltb value x = true -> PrimFloat.ltb value y = true.

Lemma upper_bound_loop_spec fuel bounds value first len :
  partitioned bounds value ->
  (len <= fuel)%nat -> (first + len <= length bounds)%nat ->
  (forall j x, (j < first)%nat -> bounds !! j = Some x -> PrimFloat.ltb value x = false) ->
  (forall j x, (first + len <= j)%nat -> bounds !! j = Some x ->
               PrimFloat.ltb value x = true) ->
  (forall j x, (j < upper_bound_loop fuel bounds value first len)%nat ->
               bounds !! j = Some x -> PrimFloat.ltb value x = false) /\
  (forall j x, (upper_bound_loop fuel bounds value first len <= j)%nat ->
               bounds !! j = Some x -> PrimFloat.ltb value x = true).
Proof.
  intros Hp. revert first len.
  induction fuel as [|fuel IH]; intros first len Hf Hlen Hlo Hhi.
  - cbn. assert (len = 0%nat) as -> by lia. split; [exact Hlo|].
    intros j x Hj. apply (Hhi j). lia.
  - cbn [upper_bound_loop]. destruct (Nat.eqb_spec len 0) as [->|Hl].
    + split; [exact Hlo|]. intros j x Hj. apply (Hhi j). lia.
    + pose proof (Nat.div_lt len 2 ltac:(lia) ltac:(lia)) as Hhalf.
      destruct (lookup_lt_is_Some_2 bounds (first + len / 2)%nat ltac:(lia)) as [m Hm].
      rewrite Hm. change (default 0%float (Some m)) with m.
      destruct (PrimFloat.ltb value m) eqn:Hvm.
      * apply IH; [lia|lia|exact Hlo|].
        intros j x Hj Hx. by apply (Hp (first + len / 2)%nat j m x).
      * apply IH; [lia|lia| |].
        -- intros j x Hj Hx. apply not_true_iff_false. intros Hvx.
           assert (PrimFloat.ltb value m = true); [|congruence].
           apply (Hp j (first + len / 2)%nat x m); [lia|done|done|done].
        -- intros j x Hj Hx. apply (Hhi j); [lia|done].
Qed.

Lemma upper_bound_spec bounds value :
  partitioned bounds value ->
  Forall (fun b => PrimFloat.ltb value b = false) (take (upper_bound bounds value) bounds) /\
  Forall (fun b => PrimFloat.ltb value b = true) (drop (upper_bound bounds value) bounds).
Proof.
  intros Hp. unfold upper_bound.
  destruct (upper_bound_loop_spec (length bounds) bounds value 0 (length bounds) Hp)
    as [H1 H2]; [lia|lia|lia| |].
  { intros j x Hj Hx. apply lookup_lt_Some in Hx. lia. }
  split; apply Forall_lookup_2; intros i x Hi.
  - apply lookup_take_Some in Hi as [Hi Hlt]. by apply (H1 i).
  - rewrite lookup_drop in Hi. apply (H2 _ x) in Hi; [done|lia].
Qed.

Lemma increasing_partitioned bounds value :
  no_nan bounds -> increasing bounds -> partitioned bounds value.
Proof.
  intros Hn Hs i j x y Hij Hi Hj Hvx.
  destruct (decide (i = j)) as [->|Hne]; [congruence|].
  pose proof (increasing_lookup bounds i j x y Hn Hs ltac:(lia) Hi Hj) as Hxy.
  destruct (ltb_not_nan _ _ Hvx) as [Hv Hx].
  destruct (ltb_not_nan _ _ Hxy) as [_ Hy].
  by apply (ltb_trans value x y).
Qed.

(** *** Properties of the samples *)

Lemma UpdateGeneralStatictics_count value d :
  count (UpdateGeneralStatictics value d) = wrap64 (count d + 1).
Proof.
  unfold UpdateGeneralStatictics. destruct (Z.eqb_spec (count d) 0) as [E|E].
  - rewrite E. reflexivity.
  - reflexivity.
Qed.

Lemma UpdateGeneralStatictics_buckets value d :
  bucket_counts (UpdateGeneralStatictics value d) = bucket_counts d /\
  bucket_option (UpdateGeneralStatictics value d) = bucket_option d.
Proof. unfold UpdateGeneralStatictics. by destruct (count d =? 0). Qed.

Lemma increment_bucket_Some i d :
  (i < length (bucket_counts d))%nat ->
  increment_bucket (Z.of_nat i) d
  = Some (set_bucket_counts i (wrap64 (bucket_count_at i d + 1)) d).
Proof.
  intros Hi. unfold increment_bucket.
  rewrite (proj2 (Z.leb_le _ _)) by lia. rewrite (proj2 (Z.ltb_lt _ _)) by lia.
  cbn [andb]. by rewrite Nat2Z.id.
Qed.

(** The bucket of a sample on an explicit scheme: the number of bounds at
    or below the sample. *)
Definition explicit_bucket (bounds : list float) (value : float) : nat :=
  match bounds with
  | [] => 0
  | first_bound :: _ =>
      if PrimFloat.leb first_bound value then upper_bound bounds value else 0
  end.

Lemma explicit_bucket_le bounds value :
  (explicit_bucket bounds value <= length bounds)%nat.
Proof.
  unfold explicit_bucket. destruct bounds as [|b l]; [done|].
  destruct (PrimFloat.leb b value); [apply upper_bound_le|lia].
Qed.

Lemma UpdateExplicitBucketCount_bucket value d bounds :
  bucket_option d = ExplicitBuckets bounds ->
  bounds <> [] ->
  length (bucket_counts d) = S (length bounds) ->
  UpdateExplicitBucketCount value d
  = Some (set_bucket_counts
            (explicit_bucket bounds value)
            (wrap64 (bucket_count_at (explicit_bucket bounds value) d + 1)) d).
Proof.
  intros Hb Hne Hlen. unfold UpdateExplicitBucketCount, explicit_bounds. rewrite Hb.
  pose proof (explicit_bucket_le bounds value) as Hle.
  destruct bounds as [|b l]; [done|]. cbn [lookup list_lookup mbind option_bind].
  unfold explicit_bucket in *.
  destruct (PrimFloat.leb b value).
  - apply increment_bucket_Some. lia.
  - apply (increment_bucket_Some 0). lia.
Qed.

(** The total of the bucket counts. *)
Definition total (counts : list Z) : Z := foldr Z.add 0 counts.

Lemma total_insert (counts : list Z) i c v :
  counts !! i = Some c -> total (<[i := v]> counts) = total counts - c + v.
Proof.
  revert i. induction counts as [|x l IH]; intros [|i] Hi; try done.
  - cbn in Hi. inversion Hi; subst. cbn. lia.
  - cbn in Hi. cbn [insert list_insert total foldr].
    change (foldr Z.add 0 (<[i:=v]> l)) with (total (<[i:=v]> l)).
    rewrite (IH i Hi). unfold total. lia.
Qed.

Lemma total_lookup_le (counts : list Z) i c :
  Forall (fun c => 0 <= c) counts -> counts !! i = Some c -> 0 <= c <= total counts.
Proof.
  intros Hp. revert i. induction Hp as [|x l Hx Hp IH]; intros [|i] Hi; try done.
  - cbn in Hi. inversion Hi; subst. cbn.
    assert (0 <= total l); [|unfold total in *; lia].
    clear -Hp. induction Hp; cbn; [lia|]. unfold total in *. cbn. lia.
  - cbn in Hi. specialize (IH i Hi). unfold total in *. cbn. lia.
Qed.

(** A distribution whose count is the total of its bucket counts, none
    of them negative. *)
Definition tallied (d : Distribution) : Prop :=
  Forall (fun c => 0 <= c) (bucket_counts d) /\ count d = total (bucket_counts d).

Lemma total_nonneg counts : Forall (fun c => 0 <= c) counts -> 0 <= total counts.
Proof. induction 1; cbn; [lia|]. unfold total in *. lia. Qed.

(** A distribution on an explicit scheme, with a bucket count for every
    bucket, whose count is the total of its bucket counts. *)
Definition counted (bounds : list float) (d : Distribution) : Prop :=
  bucket_option d = ExplicitBuckets bounds /\
  length (bucket_counts d) = S (length bounds) /\
  tallied d.

Section SampleProperties.
Variable log2 : float -> float.

Lemma AddSample_explicit value d bounds :
  bucket_option d = ExplicitBuckets bounds ->
  bounds <> [] ->
  length (bucket_counts d) = S (length bounds) ->
  AddSample log2 value d
  = Some (OK,
          set_bucket_counts
            (explicit_bucket bounds value)
            (wrap64 (bucket_count_at (explicit_bucket bounds value) d + 1))
            (UpdateGeneralStatictics value d)).
Proof.
  intros Hb Hne Hlen. unfold AddSample. rewrite Hb.
  destruct (UpdateGeneralStatictics_buckets value d) as [Hc Ho].
  rewrite (UpdateExplicitBucketCount_bucket value _ bounds); [|congruence|done|congruence].
  cbn. unfold bucket_count_at. by rewrite Hc.
Qed.

(** On increasing bounds, a sample that is not NaN goes to the bucket
    between the last bound at or below it and the first bound above it. *)
Theorem AddSample_explicit_bucket value d bounds :
  bucket_option d = ExplicitBuckets bounds ->
  bounds <> [] ->
  no_nan bounds -> increasing bounds ->
  is_nan value = false ->
  length (bucket_counts d) = S (length bounds) ->
  exists i,
    (i <= length bounds)%nat /\
    Forall (fun b => PrimFloat.leb b value = true) (take i bounds) /\
    Forall (fun b => PrimFloat.ltb value b = true) (drop i bounds) /\
    AddSample log2 value d
    = Some (OK,
            set_bucket_counts i (wrap64 (bucket_count_at i d + 1))
                              (UpdateGeneralStatictics value d)).
Proof.
  intros Hb Hne Hn Hs Hv Hlen. exists (explicit_bucket bounds value).
  split; [apply explicit_bucket_le|].
  split; [|split; [|by apply AddSample_explicit]].
  - unfold explicit_bucket. destruct bounds as [|b l]; [done|].
    destruct (PrimFloat.leb b value) eqn:Hbv; [|constructor].
    destruct (upper_bound_spec (b :: l) value) as [H1 _];
      [by apply increasing_partitioned|].
    rewrite Forall_forall in H1 |- *. intros x Hx.
    apply ltb_false_leb; [done| |by apply H1].
    unfold no_nan in Hn. rewrite Forall_forall in Hn. apply Hn.
    apply elem_of_take in Hx as (j & Hj & _). by eapply list_elem_of_lookup_2.
  - unfold explicit_bucket. destruct bounds as [|b l]; [done|].
    destruct (PrimFloat.leb b value) eqn:Hbv.
    + by destruct (upper_bound_spec (b :: l) value) as [_ H2];
        [by apply increasing_partitioned|].
    + cbn [drop]. pose proof Hn as Hn'. apply Forall_cons in Hn' as [Hnb _].
      assert (Hvb : PrimFloat.ltb value b = true).
      { apply not_false_iff_true. rewrite ltb_false_leb by assumption. congruence. }
      apply Forall_lookup_2. intros [|j] y Hy.
      * cbn in Hy. by inversion Hy; subst.
      * apply (ltb_trans value b y); [done|done| |done|].
        -- unfold no_nan in Hn. rewrite Forall_forall in Hn. apply Hn.
           by eapply list_elem_of_lookup_2.
        -- by apply (increasing_lookup (b :: l) 0 (S j) b y Hn Hs ltac:(lia)).
Qed.

(** One sample on a counted distribution. *)
Lemma AddSample_counted value d bounds :
  bounds <> [] -> counted bounds d -> count d < INT64_MAX ->
  exists d',
    AddSample log2 value d = Some (OK, d') /\ counted bounds d' /\
    count d' = count d + 1.
Proof.
  intros Hne (Hb & Hlen & Hpos & Hc) Hmax.
  rewrite (AddSample_explicit value d bounds Hb Hne Hlen).
  eexists. split; [reflexivity|].
  set (i := explicit_bucket bounds value).
  assert (Hi : (i < length (bucket_counts d))%nat).
  { pose proof (explicit_bucket_le bounds value). unfold i. lia. }
  destruct (lookup_lt_is_Some_2 _ _ Hi) as [c Hci].
  pose proof (total_lookup_le _ _ _ Hpos Hci) as Hcr.
  destruct (UpdateGeneralStatictics_buckets value d) as [Hbc Hbo].
  assert (Hw : wrap64 (bucket_count_at i d + 1) = c + 1).
  { unfold bucket_count_at. rewrite Hci. cbn. apply wrap64_id.
    unfold in_int64, INT64_MIN, INT64_MAX in *. lia. }
  assert (Hcount : wrap64 (count d + 1) = count d + 1).
  { apply wrap64_id. unfold in_int64, INT64_MIN, INT64_MAX in *. lia. }
  rewrite Hw. unfold counted, tallied. cbn [bucket_option bucket_counts count set_bucket_counts].
  rewrite Hbc, Hbo, UpdateGeneralStatictics_count, Hcount.
  repeat split.
  - exact Hb.
  - by rewrite length_insert.
  - apply Forall_insert; [exact Hpos|lia].
  - rewrite (total_insert _ _ c) by exact Hci. lia.
Qed.

(** Whatever the bounds and the samples (NaN and infinities included),
    every sample on an explicit scheme is counted in one bucket: the count
    stays the total of the bucket counts. *)
Theorem AddSamples_explicit_total values d bounds :
  bounds <> [] -> counted bounds d ->
  count d + Z.of_nat (length values) <= INT64_MAX ->
  exists d',
    AddSamples log2 values d = Some d' /\ counted bounds d' /\
    count d' = count d + Z.of_nat (length values).
Proof.
  intros Hne. revert d. induction values as [|value values IH]; intros d Hd Hmax.
  - exists d. cbn. split; [reflexivity|]. split; [exact Hd|lia].
  - cbn [length] in Hmax.
    destruct (AddSample_counted value d bounds Hne Hd ltac:(lia)) as (d1 & E & Hd1 & Hc1).
    destruct (IH d1 Hd1 ltac:(lia)) as (d' & E' & Hd' & Hc').
    exists d'. split; [|split; [exact Hd'|cbn [length]; lia]].
    unfold AddSamples in *. cbn [foldl mbind option_bind]. rewrite E. exact E'.
Qed.

(** Samples outside the finite buckets. On a linear scheme a sample below
    the offset, or NaN, is counted in bucket 0 and a sample at or above
    [offset + num_finite_buckets * width] in the last bucket; on an
    exponential scheme a sample that is not at or above the scale (NaN
    included) is counted in bucket 0. *)
Theorem AddSample_outside_range value d0 d :
  (forall n width offset,
     InitLinear n width offset d0 = (OK, d) -> n <= INT32_MAX - 2 ->
     (PrimFloat.ltb value offset = true \/ is_nan value = true ->
      AddSample log2 value d
      = Some (OK, set_bucket_counts 0 (wrap64 (bucket_count_at 0 d + 1))
                                    (UpdateGeneralStatictics value d))) /\
     (PrimFloat.ltb value offset = false -> is_nan value = false ->
      PrimFloat.leb (offset + double_of_int64 n * width) value = true ->
      AddSample log2 value d
      = Some (OK, set_bucket_counts (Z.to_nat (n + 1))
                    (wrap64 (bucket_count_at (Z.to_nat (n + 1)) d + 1))
                    (UpdateGeneralStatictics value d)))) /\
  (forall n growth_factor scale,
     InitExponential n growth_factor scale d0 = (OK, d) -> n <= INT32_MAX - 2 ->
     PrimFloat.leb scale value = false ->
     AddSample log2 value d
     = Some (OK, set_bucket_counts 0 (wrap64 (bucket_count_at 0 d + 1))
                                   (UpdateGeneralStatictics value d))).
Proof.
  destruct (UpdateGeneralStatictics_buckets value d) as [Hbc Hbo].
  split.
  - intros n width offset Hinit Hn. unfold InitLinear in Hinit.
    destruct (Z.leb_spec n 0) as [|Hpos]; [discriminate|].
    destruct (PrimFloat.leb width 0); [discriminate|].
    injection Hinit as <-.
    assert (Hw2 : wrap32 (n + 2) = n + 2)
      by (apply wrap32_id; unfold in_int32, INT32_MIN, INT32_MAX in *; lia).
    assert (Hw1 : wrap32 (n + 1) = n + 1)
      by (apply wrap32_id; unfold in_int32, INT32_MIN, INT32_MAX in *; lia).
    rewrite Hw2 in *.
    set (d := Resize (n + 2) (set_bucket_option (LinearBuckets n width offset) d0)) in *.
    assert (Hlen : length (bucket_counts d) = Z.to_nat (n + 2))
      by (unfold d; cbn; apply length_resize).
    unfold AddSample. change (bucket_option d) with (LinearBuckets n width offset).
    unfold UpdateLinearBucketCount. rewrite Hbo.
    change (bucket_option d) with (LinearBuckets n width offset).
    split.
    + intros Hlow.
      assert (PrimFloat.ltb value offset || is_nan value = true) as ->
        by (apply orb_true_iff; exact Hlow).
      cbn [mbind option_bind].
      rewrite (increment_bucket_Some 0) by (rewrite Hbc; lia).
      cbn. unfold bucket_count_at. by rewrite Hbc.
    + intros Hlt Hnan Hup. rewrite Hlt, Hnan, Hup, Hw1. cbn [orb mbind option_bind].
      rewrite <- (Z2Nat.id (n + 1)) at 1 by lia.
      rewrite increment_bucket_Some by (rewrite Hbc; lia).
      cbn. unfold bucket_count_at. by rewrite Hbc.
  - intros n growth_factor scale Hinit Hn Hlow. unfold InitExponential in Hinit.
    destruct (Z.leb_spec n 0) as [|Hpos]; [discriminate|].
    destruct (PrimFloat.leb growth_factor 1); [discriminate|].
    destruct (PrimFloat.leb scale 0); [discriminate|].
    injection Hinit as <-.
    assert (Hw2 : wrap32 (n + 2) = n + 2)
      by (apply wrap32_id; unfold in_int32, INT32_MIN, INT32_MAX in *; lia).
    rewrite Hw2 in *.
    set (d := Resize (n + 2)
                (set_bucket_option (ExponentialBuckets n growth_factor scale) d0)) in *.
    assert (Hlen : length (bucket_counts d) = Z.to_nat (n + 2))
      by (unfold d; cbn; apply length_resize).
    unfold AddSample. change (bucket_option d) with (ExponentialBuckets n growth_factor scale).
    unfold UpdateExponentialBucketCount. rewrite Hbo.
    change (bucket_option d) with (ExponentialBuckets n growth_factor scale).
    cbv iota beta. rewrite Hlow. cbn [mbind option_bind].
    rewrite (increment_bucket_Some 0) by (rewrite Hbc; lia).
    cbn. unfold bucket_count_at. by rewrite Hbc.
Qed.

End SampleProperties.

(** [InitExplicit] takes bounds without NaN exactly when each bound is
    less than the next. It then sets the explicit scheme, after the bounds
    of an explicit scheme the distribution already has, and resizes the
    bucket counts to one more than the new bounds, keeping the counts and
    the statistics that are there; otherwise the distribution stays as it
    was. A NaN among the bounds hides the order of its neighbours. *)
Theorem InitExplicit_increasing :
  (forall bounds d,
     no_nan bounds -> Z.of_nat (length bounds) < INT32_MAX ->
     (increasing bounds ->
      InitExplicit bounds d
      = (OK,
         mkDistribution (count d) (mean d) (minimum d) (maximum d)
           (sum_of_squared_deviation d)
           (resize (S (length bounds)) 0 (bucket_counts d))
           (ExplicitBuckets (explicit_bounds d ++ bounds)))) /\
     (~ increasing bounds -> InitExplicit bounds d = (INVALID_ARGUMENT, d))) /\
  (forall x y d, (InitExplicit [x; nan; y] d).1 = OK).
Proof.
  split.
  - intros bounds d Hn Hlen. pose proof (increasing_checks bounds Hn) as Hc.
    unfold InitExplicit. split.
    + intros Hs. apply Hc in Hs as [-> ->]. cbn [negb].
      rewrite wrap32_id by (unfold in_int32, INT32_MIN, INT32_MAX in *; lia).
      unfold Resize, set_bucket_option. cbn.
      by rewrite Z2Nat.inj_add, Nat2Z.id, Nat.add_1_r by lia.
    + intros Hs. destruct (is_sorted bounds); [|reflexivity]. cbn [negb].
      destruct (adjacent_find bounds); [reflexivity|]. exfalso. apply Hs, Hc. done.
  - intros x y d. unfold InitExplicit. cbn [is_sorted adjacent_find].
    rewrite (ltb_nan nan x) by (left; reflexivity).
    rewrite (ltb_nan y nan) by (right; reflexivity). cbn [negb].
    rewrite (eqb_nan x nan) by (right; reflexivity).
    rewrite (eqb_nan nan y) by (left; reflexivity). reflexivity.
Qed.

Lemma sum_bucket_counts_total from to :
  length from = length to ->
  Forall (fun c => 0 <= c) from -> Forall (fun c => 0 <= c) to ->
  total from + total to <= INT64_MAX ->
  Forall (fun c => 0 <= c) (sum_bucket_counts from to) /\
  total (sum_bucket_counts from to) = total to + total from.
Proof.
  unfold sum_bucket_counts. revert to.
  induction from as [|f from IH]; intros [|t to] Hlen Hf Ht Hmax; try discriminate.
  - done.
  - apply Forall_cons in Hf as [Hf0 Hf], Ht as [Ht0 Ht].
    pose proof (total_nonneg from Hf). pose proof (total_nonneg to Ht).
    cbn [total foldr] in Hmax. fold (total from) (total to) in Hmax.
    destruct (IH to) as [IH1 IH2]; [by injection Hlen|done|done|lia|].
    cbn [zip_with]. rewrite wrap64_id
      by (unfold in_int64, INT64_MIN, INT64_MAX in *; lia).
    split; [constructor; [lia|exact IH1]|].
    cbn [total foldr]. fold (total (zip_with (fun t f => wrap64 (t + f)) to from)).
    rewrite IH2. unfold total. lia.
Qed.

(** [Merge] keeps the tally: when both counts are the totals of their
    bucket counts and together within [int64], the count of the result is
    the total of its bucket counts, whichever way the merge goes. *)
Theorem Merge_tallied from to :
  tallied from -> tallied to -> count from + count to <= INT64_MAX ->
  tallied (Merge from to).2.
Proof.
  intros [Hf Hcf] [Ht Hct] Hmax. unfold Merge.
  destruct (BucketsApproximatelyEqual from to) eqn:Hb; cbn [negb]; [|by split].
  destruct (Nat.eqb_spec (length (bucket_counts from)) (length (bucket_counts to)))
    as [Hlen|?]; cbn [negb]; [|by split].
  destruct (Z.leb_spec (count from) 0) as [?|Hpf]; [by split|].
  destruct (Z.leb_spec (count to) 0) as [?|Hpt]; [by split|].
  pose proof (Merge_combine from to Hb Hlen Hpf Hpt) as E. unfold Merge in E.
  rewrite Hb in E. cbn [negb] in E.
  rewrite (proj2 (Nat.eqb_eq _ _) Hlen) in E. cbn [negb] in E.
  rewrite (proj2 (Z.leb_gt _ _) Hpf), (proj2 (Z.leb_gt _ _) Hpt) in E.
  rewrite E. cbn [snd]. unfold tallied, merged. cbn [bucket_counts count].
  destruct (sum_bucket_counts_total (bucket_counts from) (bucket_counts to))
    as [H1 H2]; [done|done|done|lia|].
  split; [exact H1|]. rewrite H2, wrap64_id; [lia|].
  unfold in_int64, INT64_MIN, INT64_MAX in *. lia.
Qed.

(** *** Three bounds: 1, 3 and 5 *)

(** The default instance of the message. *)
Definition empty_distribution : Distribution :=
  mkDistribution 0 0 0 0 0 [] BUCKET_OPTION_NOT_SET.

Definition three_bounds : Distribution :=
  mkDistribution 0 0 0 0 0 [0; 0; 0; 0] (ExplicitBuckets [1; 3; 5]%float).

(** A stand-in for [log2] on schemes that do not call it. *)
Definition no_log2 : float -> float := fun _ => nan.

Lemma InitExplicit_increasing_witness :
  InitExplicit [1; 3; 5]%float empty_distribution = (OK, three_bounds).
Proof.
  refine (proj1 (proj1 InitExplicit_increasing [1; 3; 5]%float empty_distribution _ _) _).
  - repeat constructor.
  - vm_compute. reflexivity.
  - repeat constructor.
Defined.

Lemma AddSample_explicit_bucket_witness :
  exists i,
    (i <= 3)%nat /\
    Forall (fun b => PrimFloat.leb b 3.5 = true) (take i [1; 3; 5]%float) /\
    Forall (fun b => PrimFloat.ltb 3.5 b = true) (drop i [1; 3; 5]%float) /\
    AddSample no_log2 3.5 three_bounds
    = Some (OK,
            set_bucket_counts i (wrap64 (bucket_count_at i three_bounds + 1))
                              (UpdateGeneralStatictics 3.5 three_bounds)).
Proof.
  apply (AddSample_explicit_bucket no_log2 3.5 three_bounds [1; 3; 5]%float).
  - reflexivity.
  - discriminate.
  - repeat constructor.
  - repeat constructor.
  - reflexivity.
  - reflexivity.
Defined.

Lemma AddSamples_explicit_total_witness :
  exists d',
    AddSamples no_log2 [0.5; 3; nan; infinity; 7.5]%float three_bounds = Some d' /\
    counted [1; 3; 5]%float d' /\
    count d' = count three_bounds + 5.
Proof.
  apply (AddSamples_explicit_total no_log2 [0.5; 3; nan; infinity; 7.5]%float
           three_bounds [1; 3; 5]%float).
  - discriminate.
  - unfold counted. repeat split; repeat constructor; done.
  - vm_compute. discriminate.
Defined.

Lemma AddSample_outside_range_witness :
  AddSample no_log2 (-5) (InitLinear 2 2 1 empty_distribution).2
  = Some (OK, mkDistribution 1 (-5) (-5) (-5) 0 [1; 0; 0; 0] (LinearBuckets 2 2 1)).
Proof.
  refine (proj1 (proj1 (AddSample_outside_range no_log2 (-5) empty_distribution
                          (InitLinear 2 2 1 empty_distribution).2)
                   2 2%float 1%float _ _) _).
  - reflexivity.
  - vm_compute. discriminate.
  - left. reflexivity.
Defined.

Lemma Merge_tallied_witness :
  tallied (Merge sample_from sample_to).2.
Proof.
  apply (Merge_tallied sample_from sample_to).
  - split; [repeat constructor; done|reflexivity].
  - split; [repeat constructor; done|reflexivity].
  - vm_compute. discriminate.
Defined.

End DistributionHelper.

(** ** The operation aggregator ([src/operation_aggregator.cc]) *)

Module OperationAggregator.
Import Int Proto Signature DistributionHelper.

(** Returns whether timestamp [a] is before [b] or not. *)
Definition TimestampBefore (a b : Timestamp) : bool :=
  (seconds a <? seconds b)
  || ((seconds a =? seconds b) && (ts_nanos a <? ts_nanos b)).

Definition set_start_time (t : option Timestamp) (mv : MetricValue) : MetricValue :=
  mkMetricValue (labels mv) t (end_time mv) (value mv).
Definition set_end_time (t : option Timestamp) (mv : MetricValue) : MetricValue :=
  mkMetricValue (labels mv) (start_time mv) t (value mv).
Definition set_value (v : Value) (mv : MetricValue) : MetricValue :=
  mkMetricValue (labels mv) (start_time mv) (end_time mv) v.

(** Accessors of the oneof: the default when another case is set. *)
Definition int64_value (mv : MetricValue) : Z :=
  match value mv with Int64Value v => v | _ => 0 end.
Definition double_value (mv : MetricValue) : float :=
  match value mv with DoubleValue v => v | _ => 0%float end.
Definition default_Distribution : Distribution :=
  mkDistribution 0 0 0 0 0 [] BUCKET_OPTION_NOT_SET.
Definition distribution_value (mv : MetricValue) : Distribution :=
  match value mv with DistributionValue v => v | _ => default_Distribution end.

(** Merges two metric values, with metric kind being Cumulative or Gauge:
    the new value overrides the old one, based on the end time. *)
Definition MergeCumulativeOrGaugeMetricValue (from to : MetricValue) : MetricValue :=
  if TimestampBefore (timestamp_or_default (end_time from))
                     (timestamp_or_default (end_time to))
  then to
  else from.

(** The start and end times of a delta value are widened to span both
    values. *)
Definition merge_start_time (from to : MetricValue) : MetricValue :=
  match start_time from with
  | Some from_start =>
      match start_time to with
      | None => set_start_time (Some from_start) to
      | Some to_start =>
          if TimestampBefore from_start to_start
          then set_start_time (Some from_start) to
          else to
      end
  | None => to
  end.

Definition merge_end_time (from to : MetricValue) : MetricValue :=
  match end_time from with
  | Some from_end =>
      match end_time to with
      | None => set_end_time (Some from_end) to
      | Some to_end =>
          if TimestampBefore to_end from_end
          then set_end_time (Some from_end) to
          else to
      end
  | None => to
  end.

(** Merges two metric values, with metric kind being Delta. *)
Definition MergeDeltaMetricValue (from to : MetricValue) : MetricValue :=
  if negb (bool_decide (value_case to = value_case from)) then to
  else
    let to := merge_start_time from to in
    let to := merge_end_time from to in
    match value_case to with
    | kInt64Value =>
        set_value (Int64Value (wrap64 (int64_value to + int64_value from))) to
    | kDoubleValue =>
        set_value (DoubleValue (double_value to + double_value from)) to
    | kDistributionValue =>
        set_value (DistributionValue
                     (Merge (distribution_value from) (distribution_value to)).2) to
    | _ => to
    end.

(** Merges one metric value into another. *)
Definition MergeMetricValue (metric_kind : MetricKind) (from to : MetricValue)
  : MetricValue :=
  if bool_decide (metric_kind = DELTA) then MergeDeltaMetricValue from to
  else MergeCumulativeOrGaugeMetricValue from to.

Record OperationAggregator : Type := mkOperationAggregator {
  (* Used to store everything but metric value sets. *)
  operation_ : Operation;
  (* Key is metric_name; value is a map of metric value signature to
     aggregated metric value. *)
  metric_value_sets_ : gmap string (gmap string MetricValue);
  (* Key is the metric name and value is the metric kind. Defaults to DELTA
     if not specified; a null pointer when absent. *)
  metric_kinds_ : option (gmap string MetricKind)
}.

Definition set_metric_value_sets (sets : list MetricValueSet) (op : Operation)
  : Operation :=
  mkOperation (operation_name op) (consumer_id op) (op_start_time op)
              (op_end_time op) (op_labels op) sets (log_entries op)
              (importance op).
Definition set_op_start_time (t : option Timestamp) (op : Operation) : Operation :=
  mkOperation (operation_name op) (consumer_id op) t (op_end_time op)
              (op_labels op) (metric_value_sets op) (log_entries op)
              (importance op).
Definition set_op_end_time (t : option Timestamp) (op : Operation) : Operation :=
  mkOperation (operation_name op) (consumer_id op) (op_start_time op) t
              (op_labels op) (metric_value_sets op) (log_entries op)
              (importance op).
Definition set_log_entries (l : list LogEntry) (op : Operation) : Operation :=
  mkOperation (operation_name op) (consumer_id op) (op_start_time op)
              (op_end_time op) (op_labels op) (metric_value_sets op) l
              (importance op).

Section WithDigest.
Context `{md5 : MD5}.

(** The inner loop of [MergeMetricValueSets]: the values of one set into
    the map of its metric name. *)
Definition merge_metric_values (metric_kind : MetricKind)
    (values : list MetricValue) (existing_values : gmap string MetricValue)
  : gmap string MetricValue :=
  fold_left
    (fun existing_values metric_value =>
       let signature := GenerateReportMetricValueSignature metric_value in
       match existing_values !! signature with
       | None => <[signature := metric_value]> existing_values
       | Some existing =>
           <[signature := MergeMetricValue metric_kind metric_value existing]>
             existing_values
       end)
    values existing_values.

Definition kind_of (metric_kinds : option (gmap string MetricKind)) (name : string)
  : MetricKind :=
  match metric_kinds with
  | Some kinds => default DELTA (kinds !! name)
  | None => DELTA
  end.

(** One round of the outer loop: [metric_value_sets_[name]] adds the key
    when it is missing. *)
Definition merge_metric_value_set (metric_kinds : option (gmap string MetricKind))
    (sets : gmap string (gmap string MetricValue)) (metric_value_set : MetricValueSet)
  : gmap string (gmap string MetricValue) :=
  let name := metric_name metric_value_set in
  let existing_values := default ∅ (sets !! name) in
  <[name := merge_metric_values (kind_of metric_kinds name)
                                (metric_values metric_value_set) existing_values]> sets.

Definition MergeMetricValueSets (operation : Operation) (agg : OperationAggregator)
  : OperationAggregator :=
  mkOperationAggregator
    (operation_ agg)
    (fold_left (merge_metric_value_set (metric_kinds_ agg))
               (metric_value_sets operation) (metric_value_sets_ agg))
    (metric_kinds_ agg).

Definition MergeLogEntries (operation : Operation) (agg : OperationAggregator)
  : OperationAggregator :=
  mkOperationAggregator
    (set_log_entries (log_entries (operation_ agg) ++ log_entries operation)
                     (operation_ agg))
    (metric_value_sets_ agg) (metric_kinds_ agg).

(** The constructor. *)
Definition new_OperationAggregator (operation : Operation)
    (metric_kinds : option (gmap string MetricKind)) : OperationAggregator :=
  let agg := mkOperationAggregator operation ∅ metric_kinds in
  let agg := MergeMetricValueSets operation agg in
  (* Clear the metric value sets in operation_. *)
  mkOperationAggregator (set_metric_value_sets [] (operation_ agg))
                        (metric_value_sets_ agg) (metric_kinds_ agg).

Definition MergeOperation (operation : Operation) (agg : OperationAggregator)
  : OperationAggregator :=
  let op := operation_ agg in
  let op :=
    match op_start_time operation with
    | Some start =>
        match op_start_time op with
        | None => set_op_start_time (Some start) op
        | Some mine =>
            if TimestampBefore start mine then set_op_start_time (Some start) op
            else op
        end
    | None => op
    end in
  let op :=
    match op_end_time operation with
    | Some end_ =>
        match op_end_time op with
        | None => set_op_end_time (Some end_) op
        | Some mine =>
            if TimestampBefore mine end_ then set_op_end_time (Some end_) op
            else op
        end
    | None => op
    end in
  let agg := mkOperationAggregator op (metric_value_sets_ agg) (metric_kinds_ agg) in
  let agg := MergeMetricValueSets operation agg in
  MergeLogEntries operation agg.

(** The metric value sets [ToOperationProto] emits: one per metric name,
    with the accumulated values in the iteration order of the maps. *)
Definition emitted_sets (sets : gmap string (gmap string MetricValue))
  : list MetricValueSet :=
  (fun entry : string * gmap string MetricValue =>
     mkMetricValueSet entry.1 ((map_to_list entry.2).*2))
  <$> map_to_list sets.

Definition ToOperationProto (agg : OperationAggregator) : Operation :=
  let op := operation_ agg in
  set_metric_value_sets
    (metric_value_sets op ++ emitted_sets (metric_value_sets_ agg)) op.

(** *** Properties *)

(** The metric values of a list of metric value sets, each with the name
    of its set. *)
Definition flat_values (sets : list MetricValueSet) : list (string * MetricValue) :=
  sets ≫= (fun s => (fun v => (metric_name s, v)) <$> metric_values s).

(** The identity of each metric value: the name of its set and its
    signature. *)
Definition value_keys (sets : list MetricValueSet) : list (string * string) :=
  sets ≫= (fun s =>
    (fun v => (metric_name s, GenerateReportMetricValueSignature v))
    <$> metric_values s).

(** The accumulated value of a metric name and a signature. *)
Definition lookup2 (sets : gmap string (gmap string MetricValue))
    (key : string * string) : option MetricValue :=
  sets !! key.1 ≫= (fun inner => inner !! key.2).

Lemma merge_metric_values_fresh kind vs (m : gmap string MetricValue) :
  NoDup (GenerateReportMetricValueSignature <$> vs) ->
  (forall v, v ∈ vs -> m !! GenerateReportMetricValueSignature v = None) ->
  (map_to_list (merge_metric_values kind vs m)).*2 ≡ₚ (map_to_list m).*2 ++ vs /\
  (forall s, merge_metric_values kind vs m !! s = None <->
             m !! s = None /\ s ∉ GenerateReportMetricValueSignature <$> vs).
Proof.
  revert m. induction vs as [|v vs IH]; intros m Hnd Hfresh.
  - cbn. rewrite app_nil_r. split; [done|]. intros s. split.
    + intros Hm. split; [exact Hm|apply not_elem_of_nil].
    + intros [Hm _]. exact Hm.
  - rewrite fmap_cons in Hnd. apply NoDup_cons in Hnd as [Hv Hnd].
    unfold merge_metric_values. cbn [fold_left].
    rewrite (Hfresh v) by apply list_elem_of_here.
    fold (merge_metric_values kind vs (<[GenerateReportMetricValueSignature v := v]> m)).
    destruct (IH (<[GenerateReportMetricValueSignature v := v]> m)) as [IH1 IH2];
      [exact Hnd| |].
    { intros v' Hv'. rewrite lookup_insert_ne.
      - apply Hfresh. by apply list_elem_of_further.
      - intros E. apply Hv. rewrite E. by apply list_elem_of_fmap_2. }
    split.
    + rewrite IH1.
      rewrite map_to_list_insert by (apply Hfresh; apply list_elem_of_here).
      cbn. by rewrite Permutation_middle.
    + intros s. rewrite IH2, lookup_insert_None, fmap_cons, not_elem_of_cons.
      intuition congruence.
Qed.

(** The metric values [ToOperationProto] emits for the nested map. *)
Definition flat_sets (sets : gmap string (gmap string MetricValue))
  : list (string * MetricValue) :=
  flat_values (emitted_sets sets).

Lemma flat_sets_bind sets :
  flat_sets sets =
  map_to_list sets ≫= (fun e => (fun v => (e.1, v)) <$> (map_to_list e.2).*2).
Proof.
  unfold flat_sets, flat_values, emitted_sets.
  induction (map_to_list sets) as [|e l IH]; [done|].
  rewrite fmap_cons, !bind_cons, IH. done.
Qed.

Lemma merge_metric_value_set_fresh kinds sets s :
  NoDup (GenerateReportMetricValueSignature <$> metric_values s) ->
  (forall v, v ∈ metric_values s ->
     lookup2 sets (metric_name s, GenerateReportMetricValueSignature v) = None) ->
  flat_sets (merge_metric_value_set kinds sets s)
    ≡ₚ flat_sets sets ++ ((fun v => (metric_name s, v)) <$> metric_values s) /\
  (forall key, lookup2 (merge_metric_value_set kinds sets s) key = None <->
     lookup2 sets key = None /\
     key ∉ (fun v => (metric_name s, GenerateReportMetricValueSignature v))
           <$> metric_values s).
Proof.
  intros Hnd Hfresh. unfold merge_metric_value_set.
  set (name := metric_name s). set (kind := kind_of kinds name).
  set (inner := default ∅ (sets !! name)).
  destruct (merge_metric_values_fresh kind (metric_values s) inner Hnd) as [P1 P2].
  { intros v Hv. specialize (Hfresh v Hv). unfold lookup2 in Hfresh. cbn in Hfresh.
    fold name in Hfresh. unfold inner.
    destruct (sets !! name) as [i|]; cbn in *; [exact Hfresh|apply lookup_empty]. }
  split.
  - rewrite !flat_sets_bind.
    destruct (sets !! name) as [i|] eqn:E.
    + rewrite <- insert_delete_eq.
      rewrite map_to_list_insert by apply lookup_delete_eq.
      rewrite <- (map_to_list_delete sets name i E).
      rewrite !bind_cons. cbn [fst snd].
      rewrite P1. unfold inner. cbn [default]. rewrite fmap_app.
      rewrite <- !app_assoc. apply Permutation_app_head.
      apply Permutation_app_comm.
    + rewrite map_to_list_insert by exact E.
      rewrite bind_cons. cbn [fst snd]. rewrite P1. unfold inner. cbn [default].
      rewrite map_to_list_empty. cbn [fmap list_fmap app].
      apply Permutation_app_comm.
  - intros [n sg]. unfold lookup2. cbn [fst snd].
    destruct (decide (n = name)) as [->|Hne].
    + rewrite lookup_insert_eq. cbn. rewrite P2.
      assert (Hin : inner !! sg = (sets !! name ≫= fun i => i !! sg)).
      { unfold inner. destruct (sets !! name); cbn; [done|apply lookup_empty]. }
      rewrite Hin. rewrite !list_elem_of_fmap. split.
      * intros [H1 H2]. split; [done|]. intros (v & Hv & Hvin). inversion Hv; subst.
        apply H2. eauto.
      * intros [H1 H2]. split; [done|]. intros (v & Hv & Hvin). subst.
        apply H2. eauto.
    + rewrite lookup_insert_ne by done. split; [|tauto].
      intros H1. split; [done|]. rewrite list_elem_of_fmap.
      intros (v & Hv & _). congruence.
Qed.

Lemma MergeMetricValueSets_fresh kinds l sets :
  NoDup (value_keys l) ->
  (forall key, key ∈ value_keys l -> lookup2 sets key = None) ->
  flat_sets (fold_left (merge_metric_value_set kinds) l sets)
    ≡ₚ flat_sets sets ++ flat_values l.
Proof.
  revert sets. induction l as [|s l IH]; intros sets Hnd Hfresh.
  - cbn. by rewrite app_nil_r.
  - unfold value_keys in Hnd. rewrite bind_cons in Hnd.
    apply NoDup_app in Hnd as (Hnd1 & Hdisj & Hnd2).
    destruct (merge_metric_value_set_fresh kinds sets s) as [P1 P2].
    { eapply NoDup_fmap_1 with (f := fun sg => (metric_name s, sg)).
      rewrite <- list_fmap_compose. exact Hnd1. }
    { intros v Hv. apply Hfresh. unfold value_keys. rewrite bind_cons.
      apply elem_of_app. left. apply list_elem_of_fmap. eauto. }
    cbn [fold_left]. rewrite IH; [|exact Hnd2|].
    + rewrite P1. rewrite <- app_assoc. apply Permutation_app_head.
      unfold flat_values. by rewrite bind_cons.
    + intros key Hkey. apply P2. split.
      * apply Hfresh. unfold value_keys. rewrite bind_cons. apply elem_of_app. by right.
      * intros Hin. by apply (Hdisj key).
Qed.

End WithDigest.

(** Two int64 values without labels under one metric name. *)
Definition one_request : MetricValue := mkMetricValue ∅ None None (Int64Value 1).
Definition two_requests : MetricValue := mkMetricValue ∅ None None (Int64Value 2).
Definition twice_counted : Operation :=
  mkOperation "ListShelves" "project:p" None None ∅
    [mkMetricValueSet "requests" [one_request; two_requests]]
    [mkLogEntry "access" "GET /shelves"] LOW.

(** Two values with different labels under one metric name. *)
Definition labelled (region : string) (n : Z) : MetricValue :=
  mkMetricValue {[ "region"%string := region ]} None None (Int64Value n).
Definition per_region : Operation :=
  mkOperation "ListShelves" "project:p" None None ∅
    [mkMetricValueSet "requests" [labelled "eu" 1; labelled "us" 2]]
    [mkLogEntry "access" "GET /shelves"] LOW.


(** C9, counterexample. An operation with two values of one signature
    under one metric name comes back with one value, their sum. *)
Lemma singleton_aggregation_merges_duplicates :
  flat_values (metric_value_sets twice_counted)
    = [("requests"%string, one_request); ("requests"%string, two_requests)] /\
  flat_values
    (metric_value_sets
       (ToOperationProto
          (new_OperationAggregator (md5 := plain_digest) twice_counted None)))
    = [("requests"%string, mkMetricValue ∅ None None (Int64Value 3))].
Proof. split; vm_compute; reflexivity. Qed.

(** The same under any digest: the two signatures are the digest of the
    same (empty) byte string. *)
Lemma duplicates_merged_under_any_digest `{md5 : MD5} kinds :
  flat_values
    (metric_value_sets (ToOperationProto (new_OperationAggregator twice_counted kinds)))
    = [("requests"%string,
        MergeMetricValue (kind_of kinds "requests") two_requests one_request)].
Proof.
  unfold ToOperationProto, new_OperationAggregator, MergeMetricValueSets.
  cbn [operation_ metric_value_sets_ metric_kinds_ metric_value_sets twice_counted
       set_metric_value_sets fold_left app].
  unfold merge_metric_value_set.
  cbn [metric_name metric_values].
  rewrite lookup_empty. cbn [default].
  unfold merge_metric_values. cbn [fold_left].
  rewrite lookup_empty.
  change (GenerateReportMetricValueSignature two_requests)
    with (GenerateReportMetricValueSignature one_request).
  rewrite lookup_insert_eq, insert_insert_eq.
  unfold emitted_sets, flat_values.
  rewrite !insert_empty, map_to_list_singleton.
  cbn [fmap list_fmap fst snd]. rewrite map_to_list_singleton. reflexivity.
Qed.

(** A money value of a delta metric is left as it was, whatever is merged
    into it. *)
Lemma value_merge_start_time from to :
  value (merge_start_time from to) = value to.
Proof.
  unfold merge_start_time.
  destruct (start_time from), (start_time to); try reflexivity.
  by destruct (TimestampBefore _ _).
Qed.

Lemma value_merge_end_time from to :
  value (merge_end_time from to) = value to.
Proof.
  unfold merge_end_time.
  destruct (end_time from), (end_time to); try reflexivity.
  by destruct (TimestampBefore _ _).
Qed.

Lemma MergeDeltaMetricValue_money from to :
  value_case to = kMoneyValue ->
  value (MergeDeltaMetricValue from to) = value to.
Proof.
  intros Hto. unfold MergeDeltaMetricValue.
  destruct (bool_decide _); cbn [negb]; [|reflexivity]. cbv zeta.
  assert (E : value (merge_end_time from (merge_start_time from to)) = value to)
    by (by rewrite value_merge_end_time, value_merge_start_time).
  unfold value_case in *. rewrite E.
  destruct (value to); try discriminate. exact E.
Qed.

(** Two int64 values of a delta metric are summed (within [int64]), two
    double values are added, whatever their labels and times. *)
Theorem MergeDeltaMetricValue_sums l1 s1 e1 l2 s2 e2 :
  (forall f t,
     value (MergeDeltaMetricValue (mkMetricValue l1 s1 e1 (Int64Value f))
                                  (mkMetricValue l2 s2 e2 (Int64Value t)))
     = Int64Value (wrap64 (t + f))) /\
  (forall f t,
     value (MergeDeltaMetricValue (mkMetricValue l1 s1 e1 (DoubleValue f))
                                  (mkMetricValue l2 s2 e2 (DoubleValue t)))
     = DoubleValue (t + f)%float).
Proof.
  split; intros f t; unfold MergeDeltaMetricValue; cbn [value_case value value_case_of];
    rewrite bool_decide_eq_true_2 by reflexivity; cbn [negb]; cbv zeta;
    unfold value_case, int64_value, double_value;
    rewrite !value_merge_end_time, !value_merge_start_time; reflexivity.
Qed.

Definition usd (n : Z) : MetricValue :=
  mkMetricValue ∅ None None (MoneyValue (mkMoney "USD" n 0)).

(** C3. Ten US dollars accumulated, twenty US dollars merged in under the
    delta kind: the two values have one signature and one currency, their
    saturated sum is thirty dollars, and the accumulated value stays ten
    dollars. *)
Theorem delta_money_not_summed :
  GenerateReportMetricValueSignature (md5 := plain_digest) (usd 20)
    = GenerateReportMetricValueSignature (md5 := plain_digest) (usd 10) /\
  SaturatedAddMoney (mkMoney "USD" 10 0) (mkMoney "USD" 20 0)
    = Some (mkMoney "USD" 30 0) /\
  MergeMetricValue DELTA (usd 20) (usd 10) = usd 10 /\
  MergeDeltaMetricValue (usd 20) (usd 10) = usd 10.
Proof. repeat split; vm_compute; reflexivity. Qed.

(** *** Operations merged one after the other *)

(** One more value of a metric name and a signature: the first is kept
    as it is, a later one is merged into the accumulated one. *)
Definition merge_into (metric_kind : MetricKind) (accumulated : option MetricValue)
    (metric_value : MetricValue) : option MetricValue :=
  Some match accumulated with
       | None => metric_value
       | Some existing => MergeMetricValue metric_kind metric_value existing
       end.

Section Aggregate.
Context `{md5 : MD5}.

(** An aggregator built from [operation], with the operations of [more]
    merged in order. *)
Definition aggregate (operation : Operation) (more : list Operation)
    (metric_kinds : option (gmap string MetricKind)) : OperationAggregator :=
  fold_left (fun agg operation => MergeOperation operation agg) more
            (new_OperationAggregator operation metric_kinds).

(** The values of a metric name and a signature among metric value sets,
    in order. *)
Definition values_of (key : string * string) (sets : list MetricValueSet)
  : list MetricValue :=
  sets ≫= (fun s =>
    if decide (metric_name s = key.1)
    then List.filter
           (fun v => bool_decide (GenerateReportMetricValueSignature v = key.2))
           (metric_values s)
    else []).

Lemma values_of_app key l1 l2 :
  values_of key (l1 ++ l2) = values_of key l1 ++ values_of key l2.
Proof. unfold values_of. by rewrite bind_app. Qed.

Lemma merge_metric_values_cons kind v vs (m : gmap string MetricValue) :
  merge_metric_values kind (v :: vs) m
  = merge_metric_values kind vs
      (<[GenerateReportMetricValueSignature v :=
           match m !! GenerateReportMetricValueSignature v with
           | None => v
           | Some existing => MergeMetricValue kind v existing
           end]> m).
Proof.
  unfold merge_metric_values. cbn [fold_left].
  by destruct (m !! GenerateReportMetricValueSignature v).
Qed.

Lemma merge_metric_values_lookup kind vs (m : gmap string MetricValue) sg :
  merge_metric_values kind vs m !! sg
  = fold_left (merge_into kind)
      (List.filter (fun v => bool_decide (GenerateReportMetricValueSignature v = sg)) vs)
      (m !! sg).
Proof.
  revert m. induction vs as [|v vs IH]; intros m; [reflexivity|].
  rewrite merge_metric_values_cons, IH. cbn [List.filter].
  destruct (decide (GenerateReportMetricValueSignature v = sg)) as [E|E].
  - rewrite bool_decide_eq_true_2 by exact E. cbn [fold_left].
    rewrite <- E, lookup_insert_eq. reflexivity.
  - rewrite bool_decide_eq_false_2 by exact E.
    by rewrite lookup_insert_ne by exact E.
Qed.

Lemma merge_metric_value_set_lookup kinds sets s key :
  lookup2 (merge_metric_value_set kinds sets s) key
  = fold_left (merge_into (kind_of kinds key.1)) (values_of key [s]) (lookup2 sets key).
Proof.
  destruct key as [name sg]. unfold values_of, lookup2, merge_metric_value_set.
  cbn [fst snd]. rewrite bind_singleton.
  destruct (decide (metric_name s = name)) as [E|E].
  - rewrite E, lookup_insert_eq. cbn [mbind option_bind].
    rewrite merge_metric_values_lookup. f_equal.
    by destruct (sets !! name).
  - rewrite lookup_insert_ne by exact E. reflexivity.
Qed.

Lemma MergeMetricValueSets_lookup kinds l sets key :
  lookup2 (fold_left (merge_metric_value_set kinds) l sets) key
  = fold_left (merge_into (kind_of kinds key.1)) (values_of key l) (lookup2 sets key).
Proof.
  revert sets. induction l as [|s l IH]; intros sets; [reflexivity|].
  cbn [fold_left]. rewrite IH, merge_metric_value_set_lookup.
  change (s :: l) with ([s] ++ l). by rewrite values_of_app, fold_left_app.
Qed.

Lemma metric_kinds_MergeOperation operation agg :
  metric_kinds_ (MergeOperation operation agg) = metric_kinds_ agg.
Proof. reflexivity. Qed.

Lemma aggregate_snoc operation more last kinds :
  aggregate operation (more ++ [last]) kinds
  = MergeOperation last (aggregate operation more kinds).
Proof. unfold aggregate. by rewrite fold_left_app. Qed.

Lemma metric_kinds_aggregate operation more kinds :
  metric_kinds_ (aggregate operation more kinds) = kinds.
Proof.
  induction more as [|last more IH] using rev_ind; [reflexivity|].
  by rewrite aggregate_snoc, metric_kinds_MergeOperation.
Qed.

Lemma flat_sets_lookup2 sets name v :
  (name, v) ∈ flat_sets sets <-> exists sg, lookup2 sets (name, sg) = Some v.
Proof.
  rewrite flat_sets_bind, list_elem_of_bind. unfold lookup2. cbn [fst snd]. split.
  - intros ([n inner] & Hin & He). cbn [fst snd] in Hin.
    apply list_elem_of_fmap in Hin as (v' & Hv & Hin). injection Hv as -> ->.
    apply list_elem_of_fmap in Hin as ([sg v''] & -> & Hin). cbn [snd].
    apply elem_of_map_to_list in He, Hin. exists sg. by rewrite He.
  - intros (sg & H). destruct (sets !! name) as [inner|] eqn:E; [|discriminate].
    cbn in H. exists (name, inner). split.
    + cbn [fst snd]. apply list_elem_of_fmap. exists v. split; [done|].
      apply list_elem_of_fmap. exists (sg, v). split; [done|].
      by apply elem_of_map_to_list.
    + by apply elem_of_map_to_list.
Qed.

(** The earlier of two optional start times and the later of two
    optional end times, as [MergeOperation] takes them: a time that is set
    wins over one that is not, and on equal times the one at hand stays. *)
Definition earlier (mine new : option Timestamp) : option Timestamp :=
  match new, mine with
  | Some t, Some t' => if TimestampBefore t t' then Some t else Some t'
  | Some t, None => Some t
  | None, _ => mine
  end.

Definition later (mine new : option Timestamp) : option Timestamp :=
  match new, mine with
  | Some t, Some t' => if TimestampBefore t' t then Some t else Some t'
  | Some t, None => Some t
  | None, _ => mine
  end.

Lemma MergeOperation_fields operation agg :
  MergeOperation operation agg
  = mkOperationAggregator
      (mkOperation
         (operation_name (operation_ agg)) (consumer_id (operation_ agg))
         (earlier (op_start_time (operation_ agg)) (op_start_time operation))
         (later (op_end_time (operation_ agg)) (op_end_time operation))
         (op_labels (operation_ agg)) (metric_value_sets (operation_ agg))
         (log_entries (operation_ agg) ++ log_entries operation)
         (importance (operation_ agg)))
      (fold_left (merge_metric_value_set (metric_kinds_ agg))
                 (metric_value_sets operation) (metric_value_sets_ agg))
      (metric_kinds_ agg).
Proof.
  destruct agg as [[name consumer start end_ labels sets logs imp] values kinds].
  unfold MergeOperation, MergeLogEntries, MergeMetricValueSets, earlier, later.
  cbn [operation_ metric_value_sets_ metric_kinds_ op_start_time op_end_time].
  destruct (op_start_time operation) as [s|], start as [s'|];
    try destruct (TimestampBefore s s');
    destruct (op_end_time operation) as [e|], end_ as [e'|];
    cbn; try destruct (TimestampBefore e' e); reflexivity.
Qed.

Lemma metric_value_sets_MergeOperation operation agg :
  metric_value_sets (operation_ (MergeOperation operation agg))
  = metric_value_sets (operation_ agg).
Proof. by rewrite MergeOperation_fields. Qed.

Lemma metric_value_sets_aggregate operation more kinds :
  metric_value_sets (operation_ (aggregate operation more kinds)) = [].
Proof.
  induction more as [|last more IH] using rev_ind; [reflexivity|].
  by rewrite aggregate_snoc, metric_value_sets_MergeOperation.
Qed.

Lemma lookup2_aggregate operation more kinds key :
  lookup2 (metric_value_sets_ (aggregate operation more kinds)) key
  = fold_left (merge_into (kind_of kinds key.1))
      (values_of key ((operation :: more) ≫= metric_value_sets)) None.
Proof.
  induction more as [|last more IH] using rev_ind.
  - unfold aggregate, new_OperationAggregator, MergeMetricValueSets.
    cbn [fold_left metric_value_sets_ metric_kinds_].
    rewrite MergeMetricValueSets_lookup, bind_singleton.
    unfold lookup2 at 1. by rewrite lookup_empty.
  - rewrite aggregate_snoc. unfold MergeOperation, MergeLogEntries, MergeMetricValueSets.
    cbn [metric_value_sets_ metric_kinds_].
    rewrite MergeMetricValueSets_lookup, IH, metric_kinds_aggregate.
    rewrite app_comm_cons, bind_app, values_of_app, fold_left_app.
    by rewrite bind_singleton.
Qed.

Lemma flat_values_aggregate operation more kinds name v :
  (name, v) ∈ flat_values
                (metric_value_sets (ToOperationProto (aggregate operation more kinds)))
  <-> exists sg,
        lookup2 (metric_value_sets_ (aggregate operation more kinds)) (name, sg)
        = Some v.
Proof.
  unfold ToOperationProto. cbn [metric_value_sets set_metric_value_sets].
  rewrite metric_value_sets_aggregate. cbn [app].
  apply flat_sets_lookup2.
Qed.

(** The value accumulated under a metric name and a signature is the
    values reported under that name and signature merged from left to
    right, in the order they were reported; the values of other names and
    signatures play no part in it. [ToOperationProto] emits the
    accumulated values, each under its metric name, and no other. *)
Theorem aggregate_lookup operation more kinds :
  (forall key,
     lookup2 (metric_value_sets_ (aggregate operation more kinds)) key
     = fold_left (merge_into (kind_of kinds key.1))
         (values_of key ((operation :: more) ≫= metric_value_sets)) None) /\
  (forall name v,
     (name, v) ∈ flat_values
                   (metric_value_sets (ToOperationProto (aggregate operation more kinds)))
     <-> exists sg,
           lookup2 (metric_value_sets_ (aggregate operation more kinds)) (name, sg)
           = Some v).
Proof.
  split.
  - apply lookup2_aggregate.
  - apply flat_values_aggregate.
Qed.

(** C9, as the source has it. A fresh aggregator built from [op] (with
    any metric-kind table) and converted back keeps the log entries and the
    other fields of [op], emits no two metric value sets of one name, and,
    when no two metric values of [op] share both metric name and
    signature, emits the metric values of [op], each under its metric name,
    up to order. In general it emits, for every metric name and signature
    that [op] has values of, one value: those values merged from left to
    right by the kind of the metric name. *)
Theorem singleton_aggregation op kinds :
  log_entries (ToOperationProto (new_OperationAggregator op kinds))
    = log_entries op /\
  operation_name (ToOperationProto (new_OperationAggregator op kinds))
    = operation_name op /\
  consumer_id (ToOperationProto (new_OperationAggregator op kinds))
    = consumer_id op /\
  op_labels (ToOperationProto (new_OperationAggregator op kinds))
    = op_labels op /\
  NoDup (metric_name
         <$> metric_value_sets (ToOperationProto (new_OperationAggregator op kinds))) /\
  (NoDup (value_keys (metric_value_sets op)) ->
   flat_values (metric_value_sets (ToOperationProto (new_OperationAggregator op kinds)))
     ≡ₚ flat_values (metric_value_sets op)) /\
  (forall name v,
     (name, v) ∈ flat_values
                   (metric_value_sets
                      (ToOperationProto (new_OperationAggregator op kinds)))
     <-> exists signature,
           fold_left (merge_into (kind_of kinds name))
                     (values_of (name, signature) (metric_value_sets op)) None
           = Some v).
Proof.
  split; [reflexivity|]. split; [reflexivity|]. split; [reflexivity|].
  split; [reflexivity|]. split; [|split].
  - unfold ToOperationProto, new_OperationAggregator. cbn.
    unfold emitted_sets. rewrite <- list_fmap_compose.
    apply NoDup_fst_map_to_list.
  - intros Hnd. unfold ToOperationProto, new_OperationAggregator. cbn.
    pose proof (MergeMetricValueSets_fresh kinds (metric_value_sets op) ∅ Hnd) as P.
    unfold flat_sets in P. rewrite P.
    + unfold emitted_sets. rewrite map_to_list_empty. reflexivity.
    + intros key _. unfold lookup2. by rewrite lookup_empty.
  - intros name v.
    change (new_OperationAggregator op kinds) with (aggregate op [] kinds).
    rewrite flat_values_aggregate.
    split; intros [signature H]; exists signature.
    + rewrite lookup2_aggregate in H. cbn [fst] in H. by rewrite bind_singleton in H.
    + rewrite lookup2_aggregate. cbn [fst]. by rewrite bind_singleton.
Qed.

(** *** Times *)

Lemma TimestampBefore_lt a b :
  TimestampBefore a b = true <->
  seconds a < seconds b \/ (seconds a = seconds b /\ ts_nanos a < ts_nanos b).
Proof.
  unfold TimestampBefore.
  rewrite orb_true_iff, andb_true_iff, !Z.ltb_lt, Z.eqb_eq. tauto.
Qed.

Lemma TimestampBefore_ge a b :
  TimestampBefore a b = false <->
  seconds b < seconds a \/ (seconds a = seconds b /\ ts_nanos b <= ts_nanos a).
Proof.
  rewrite <- not_true_iff_false, TimestampBefore_lt. lia.
Qed.

(** The times of a list that are set. *)
Definition set_times (times : list (option Timestamp)) : list Timestamp :=
  omap id times.

Lemma earlier_foldl mine times :
  match foldl earlier mine times with
  | None => mine = None /\ set_times times = []
  | Some t =>
      (mine = Some t \/ t ∈ set_times times) /\
      (forall t', mine = Some t' \/ t' ∈ set_times times -> TimestampBefore t' t = false)
  end.
Proof.
  revert mine. induction times as [|new times IH]; intros mine.
  - cbn. destruct mine as [t|]; [|done]. split; [by left|].
    intros t' [[= ->]|H]; [|by apply elem_of_nil in H].
    apply TimestampBefore_ge. lia.
  - cbn [foldl]. specialize (IH (earlier mine new)).
    destruct (foldl earlier (earlier mine new) times) as [t|].
    + destruct IH as [Hin Hmin]. unfold set_times in *. cbn [omap list_omap].
      assert (Hnew : forall t', new = Some t' -> TimestampBefore t' t = false).
      { intros t' ->. unfold earlier in Hmin. destruct mine as [m|].
        - destruct (TimestampBefore t' m) eqn:E; [apply Hmin; by left|].
          specialize (Hmin m ltac:(by left)).
          rewrite TimestampBefore_ge in *. lia.
        - apply Hmin. by left. }
      assert (Hmine : forall t', mine = Some t' -> TimestampBefore t' t = false).
      { intros t' ->. unfold earlier in Hmin. destruct new as [n|].
        - destruct (TimestampBefore n t') eqn:E; [|apply Hmin; by left].
          specialize (Hmin n ltac:(by left)).
          rewrite TimestampBefore_lt in E. rewrite TimestampBefore_ge in *. lia.
        - apply Hmin. by left. }
      split.
      * destruct Hin as [Hin|Hin].
        -- unfold earlier in Hin. destruct new as [n|], mine as [m|]; cbn [id];
             try destruct (TimestampBefore n m); try discriminate Hin; injection Hin as <-;
             rewrite ?elem_of_cons; auto.
        -- right. destruct new; cbn; rewrite ?elem_of_cons; auto.
      * intros t' [H|H]; [by apply Hmine|].
        destruct new as [n|]; cbn [id] in H.
        -- apply elem_of_cons in H as [->|H]; [by apply Hnew|]. apply Hmin. by right.
        -- apply Hmin. by right.
    + destruct IH as [He Ht]. unfold earlier in He. unfold set_times in *.
      destruct new as [n|], mine as [m|]; try destruct (TimestampBefore n m); done.
Qed.

Lemma later_foldl mine times :
  match foldl later mine times with
  | None => mine = None /\ set_times times = []
  | Some t =>
      (mine = Some t \/ t ∈ set_times times) /\
      (forall t', mine = Some t' \/ t' ∈ set_times times -> TimestampBefore t t' = false)
  end.
Proof.
  revert mine. induction times as [|new times IH]; intros mine.
  - cbn. destruct mine as [t|]; [|done]. split; [by left|].
    intros t' [[= ->]|H]; [|by apply elem_of_nil in H].
    apply TimestampBefore_ge. lia.
  - cbn [foldl]. specialize (IH (later mine new)).
    destruct (foldl later (later mine new) times) as [t|].
    + destruct IH as [Hin Hmax]. unfold set_times in *. cbn [omap list_omap].
      assert (Hnew : forall t', new = Some t' -> TimestampBefore t t' = false).
      { intros t' ->. unfold later in Hmax. destruct mine as [m|].
        - destruct (TimestampBefore m t') eqn:E; [apply Hmax; by left|].
          specialize (Hmax m ltac:(by left)).
          rewrite TimestampBefore_ge in *. lia.
        - apply Hmax. by left. }
      assert (Hmine : forall t', mine = Some t' -> TimestampBefore t t' = false).
      { intros t' ->. unfold later in Hmax. destruct new as [n|].
        - destruct (TimestampBefore t' n) eqn:E; [|apply Hmax; by left].
          specialize (Hmax n ltac:(by left)).
          rewrite TimestampBefore_lt in E. rewrite TimestampBefore_ge in *. lia.
        - apply Hmax. by left. }
      split.
      * destruct Hin as [Hin|Hin].
        -- unfold later in Hin. destruct new as [n|], mine as [m|]; cbn [id];
             try destruct (TimestampBefore m n); try discriminate Hin; injection Hin as <-;
             rewrite ?elem_of_cons; auto.
        -- right. destruct new; cbn; rewrite ?elem_of_cons; auto.
      * intros t' [H|H]; [by apply Hmine|].
        destruct new as [n|]; cbn [id] in H.
        -- apply elem_of_cons in H as [->|H]; [by apply Hnew|]. apply Hmax. by right.
        -- apply Hmax. by right.
    + destruct IH as [He Ht]. unfold later in He. unfold set_times in *.
      destruct new as [n|], mine as [m|]; try destruct (TimestampBefore m n); done.
Qed.

Lemma aggregate_operation operation more kinds :
  operation_ (aggregate operation more kinds)
  = mkOperation
      (operation_name operation) (consumer_id operation)
      (foldl earlier (op_start_time operation) (op_start_time <$> more))
      (foldl later (op_end_time operation) (op_end_time <$> more))
      (op_labels operation) []
      ((operation :: more) ≫= log_entries)
      (importance operation).
Proof.
  induction more as [|last more IH] using rev_ind.
  - cbn. by rewrite app_nil_r.
  - rewrite aggregate_snoc, MergeOperation_fields. cbn [operation_]. rewrite IH.
    cbn [operation_name consumer_id op_start_time op_end_time op_labels
         metric_value_sets log_entries importance].
    rewrite !fmap_app, !foldl_app, app_comm_cons, bind_app, bind_singleton.
    reflexivity.
Qed.

(** Operations merged into one keep the name, the consumer, the labels
    and the importance of the first; the log entries of all, in order; as
    start time the earliest start time that is set and as end time the
    latest end time that is set, if any. *)
Theorem aggregate_fields operation more kinds :
  operation_name (ToOperationProto (aggregate operation more kinds))
    = operation_name operation /\
  consumer_id (ToOperationProto (aggregate operation more kinds))
    = consumer_id operation /\
  op_labels (ToOperationProto (aggregate operation more kinds))
    = op_labels operation /\
  importance (ToOperationProto (aggregate operation more kinds))
    = importance operation /\
  log_entries (ToOperationProto (aggregate operation more kinds))
    = (operation :: more) ≫= log_entries /\
  match op_start_time (ToOperationProto (aggregate operation more kinds)) with
  | None => set_times (op_start_time <$> operation :: more) = []
  | Some t =>
      t ∈ set_times (op_start_time <$> operation :: more) /\
      forall t', t' ∈ set_times (op_start_time <$> operation :: more) ->
                 TimestampBefore t' t = false
  end /\
  match op_end_time (ToOperationProto (aggregate operation more kinds)) with
  | None => set_times (op_end_time <$> operation :: more) = []
  | Some t =>
      t ∈ set_times (op_end_time <$> operation :: more) /\
      forall t', t' ∈ set_times (op_end_time <$> operation :: more) ->
                 TimestampBefore t t' = false
  end.
Proof.
  unfold ToOperationProto. rewrite aggregate_operation.
  cbn [operation_name consumer_id op_start_time op_end_time op_labels
       metric_value_sets log_entries importance set_metric_value_sets].
  do 5 (split; [reflexivity|]). split.
  - pose proof (earlier_foldl (op_start_time operation) (op_start_time <$> more)) as H.
    destruct (foldl earlier _ _) as [t|]; unfold set_times in *;
      rewrite fmap_cons; cbn [omap list_omap].
    + destruct H as [Hin Hmin]. destruct (op_start_time operation) as [t0|]; cbn [id].
      * split.
        -- rewrite elem_of_cons. destruct Hin as [[= ->]|?]; auto.
        -- intros t' Ht'. apply Hmin. apply elem_of_cons in Ht' as [->|?]; auto.
      * split.
        -- by destruct Hin.
        -- intros t' Ht'. apply Hmin. by right.
    + destruct H as [-> H]. exact H.
  - pose proof (later_foldl (op_end_time operation) (op_end_time <$> more)) as H.
    destruct (foldl later _ _) as [t|]; unfold set_times in *;
      rewrite fmap_cons; cbn [omap list_omap].
    + destruct H as [Hin Hmax]. destruct (op_end_time operation) as [t0|]; cbn [id].
      * split.
        -- rewrite elem_of_cons. destruct Hin as [[= ->]|?]; auto.
        -- intros t' Ht'. apply Hmax. apply elem_of_cons in Ht' as [->|?]; auto.
      * split.
        -- by destruct Hin.
        -- intros t' Ht'. apply Hmax. by right.
    + destruct H as [-> H]. exact H.
Qed.

End Aggregate.

(** *** Sums of delta values, latest of the others *)

Lemma wrap64_add_l a b : wrap64 (wrap64 a + b) = wrap64 (a + b).
Proof.
  unfold wrap64, wrap.
  change (2 ^ (64 - 1)) with 9223372036854775808.
  change (2 ^ 64) with 18446744073709551616.
  replace ((a + 9223372036854775808) mod 18446744073709551616 - 9223372036854775808 + b + 9223372036854775808)
    with ((a + 9223372036854775808) mod 18446744073709551616 + b) by lia.
  rewrite Zplus_mod_idemp_l. f_equal. f_equal. lia.
Qed.

Lemma labels_merge_start_time from to :
  labels (merge_start_time from to) = labels to.
Proof.
  unfold merge_start_time.
  destruct (start_time from), (start_time to); try reflexivity.
  by destruct (TimestampBefore _ _).
Qed.

Lemma labels_merge_end_time from to :
  labels (merge_end_time from to) = labels to.
Proof.
  unfold merge_end_time.
  destruct (end_time from), (end_time to); try reflexivity.
  by destruct (TimestampBefore _ _).
Qed.

Lemma labels_MergeDeltaMetricValue from to :
  labels (MergeDeltaMetricValue from to) = labels to.
Proof.
  unfold MergeDeltaMetricValue. destruct (bool_decide _); cbn [negb]; [|reflexivity].
  cbv zeta.
  assert (E : labels (merge_end_time from (merge_start_time from to)) = labels to)
    by (by rewrite labels_merge_end_time, labels_merge_start_time).
  destruct (value_case _); exact E.
Qed.

Lemma MergeDeltaMetricValue_int64 from to :
  value_case from = kInt64Value -> value_case to = kInt64Value ->
  value (MergeDeltaMetricValue from to)
  = Int64Value (wrap64 (int64_value to + int64_value from)).
Proof.
  intros Hf Ht. unfold MergeDeltaMetricValue.
  rewrite bool_decide_eq_true_2 by congruence. cbn [negb]. cbv zeta.
  unfold value_case, int64_value in *.
  rewrite !value_merge_end_time, !value_merge_start_time.
  destruct (value to); try discriminate. reflexivity.
Qed.

Lemma MergeDeltaMetricValue_double from to :
  value_case from = kDoubleValue -> value_case to = kDoubleValue ->
  value (MergeDeltaMetricValue from to)
  = DoubleValue (double_value to + double_value from)%float.
Proof.
  intros Hf Ht. unfold MergeDeltaMetricValue.
  rewrite bool_decide_eq_true_2 by congruence. cbn [negb]. cbv zeta.
  unfold value_case, double_value in *.
  rewrite !value_merge_end_time, !value_merge_start_time.
  destruct (value to); try discriminate. reflexivity.
Qed.

(** The sum of int64 values, each addition within [int64]. *)
Definition int64_sum (first : Z) (more : list Z) : Z :=
  fold_left (fun sum x => wrap64 (sum + x)) more first.

Lemma int64_sum_wrap first more :
  in_int64 first ->
  int64_sum first more = wrap64 (first + foldr Z.add 0 more).
Proof.
  intros Hf. rewrite <- (wrap64_id first Hf) at 1. clear Hf. revert first.
  induction more as [|x more IH]; intros first.
  - cbn. by rewrite Z.add_0_r.
  - cbn [int64_sum fold_left foldr]. rewrite wrap64_add_l.
    change (fold_left _ more ?z) with (int64_sum z more).
    rewrite IH. f_equal. lia.
Qed.

(** The sum of double values, from left to right. *)
Definition double_sum (first : float) (more : list float) : float :=
  fold_left (fun sum x => (sum + x)%float) more first.

Lemma fold_merge_delta_int64 vs first :
  value_case first = kInt64Value ->
  Forall (fun v => value_case v = kInt64Value) vs ->
  exists sum,
    fold_left (merge_into DELTA) vs (Some first) = Some sum /\
    labels sum = labels first /\
    value sum = Int64Value (int64_sum (int64_value first) (int64_value <$> vs)).
Proof.
  revert first. induction vs as [|v vs IH]; intros first Hf Hvs.
  - exists first. split; [done|]. split; [done|]. cbn.
    unfold value_case, int64_value in *. by destruct (value first).
  - apply Forall_cons in Hvs as [Hv Hvs]. cbn [fold_left].
    change (merge_into DELTA (Some first) v) with (Some (MergeDeltaMetricValue v first)).
    pose proof (MergeDeltaMetricValue_int64 v first Hv Hf) as Hm.
    destruct (IH (MergeDeltaMetricValue v first)) as (sum & E & Hl & Hs);
      [by (unfold value_case; rewrite Hm)|exact Hvs|].
    exists sum. split; [exact E|]. split.
    + by rewrite Hl, labels_MergeDeltaMetricValue.
    + rewrite Hs. unfold int64_value at 1. rewrite Hm. by rewrite fmap_cons.
Qed.

Lemma fold_merge_delta_double vs first :
  value_case first = kDoubleValue ->
  Forall (fun v => value_case v = kDoubleValue) vs ->
  exists sum,
    fold_left (merge_into DELTA) vs (Some first) = Some sum /\
    labels sum = labels first /\
    value sum = DoubleValue (double_sum (double_value first) (double_value <$> vs)).
Proof.
  revert first. induction vs as [|v vs IH]; intros first Hf Hvs.
  - exists first. split; [done|]. split; [done|]. cbn.
    unfold value_case, double_value in *. by destruct (value first).
  - apply Forall_cons in Hvs as [Hv Hvs]. cbn [fold_left].
    change (merge_into DELTA (Some first) v) with (Some (MergeDeltaMetricValue v first)).
    pose proof (MergeDeltaMetricValue_double v first Hv Hf) as Hm.
    destruct (IH (MergeDeltaMetricValue v first)) as (sum & E & Hl & Hs);
      [by (unfold value_case; rewrite Hm)|exact Hvs|].
    exists sum. split; [exact E|]. split.
    + by rewrite Hl, labels_MergeDeltaMetricValue.
    + rewrite Hs. unfold double_value at 1. rewrite Hm. by rewrite fmap_cons.
Qed.

Section Kinds.
Context `{md5 : MD5}.

(** Under the delta kind, the int64 values reported under one metric
    name and one signature are accumulated into their sum, each addition
    taken within [int64], and double values into their sum from left to
    right; the accumulated value keeps the labels of the first. *)
Theorem aggregate_delta_sum operation more kinds key first vs :
  kind_of kinds key.1 = DELTA ->
  values_of key ((operation :: more) ≫= metric_value_sets) = first :: vs ->
  (Forall (fun v => value_case v = kInt64Value) (first :: vs) ->
   exists sum,
     lookup2 (metric_value_sets_ (aggregate operation more kinds)) key = Some sum /\
     labels sum = labels first /\
     value sum = Int64Value (int64_sum (int64_value first) (int64_value <$> vs)) /\
     (in_int64 (int64_value first) ->
      value sum
      = Int64Value (wrap64 (foldr Z.add 0 (int64_value <$> first :: vs))))) /\
  (Forall (fun v => value_case v = kDoubleValue) (first :: vs) ->
   exists sum,
     lookup2 (metric_value_sets_ (aggregate operation more kinds)) key = Some sum /\
     labels sum = labels first /\
     value sum = DoubleValue (double_sum (double_value first) (double_value <$> vs))).
Proof.
  intros Hk Hvs.
  rewrite (lookup2_aggregate operation more kinds key), Hk, Hvs.
  cbn [fold_left]. change (merge_into DELTA None first) with (Some first).
  split; intros Hall; apply Forall_cons in Hall as [Hf Hall].
  - destruct (fold_merge_delta_int64 vs first Hf Hall) as (sum & E & Hl & Hs).
    exists sum. split; [exact E|]. split; [exact Hl|]. split; [exact Hs|].
    intros Hr. rewrite Hs, int64_sum_wrap by exact Hr. by rewrite fmap_cons.
  - destruct (fold_merge_delta_double vs first Hf Hall) as (sum & E & Hl & Hs).
    exists sum. done.
Qed.

(** The end time of a metric value, the default when it is not set. *)
Definition end_of (v : MetricValue) : Timestamp := timestamp_or_default (end_time v).

Lemma TimestampBefore_irrefl a : TimestampBefore a a = false.
Proof. rewrite TimestampBefore_ge. lia. Qed.

Lemma TimestampBefore_asym a b :
  TimestampBefore a b = true -> TimestampBefore b a = false.
Proof. rewrite TimestampBefore_lt, TimestampBefore_ge. lia. Qed.

Lemma TimestampBefore_ge_trans a b c :
  TimestampBefore a b = false -> TimestampBefore b c = false ->
  TimestampBefore a c = false.
Proof. rewrite !TimestampBefore_ge. lia. Qed.

Lemma fold_merge_latest kind vs :
  kind <> DELTA -> vs <> [] ->
  exists i latest,
    vs !! i = Some latest /\
    fold_left (merge_into kind) vs None = Some latest /\
    (forall j v, vs !! j = Some v -> TimestampBefore (end_of latest) (end_of v) = false) /\
    (forall j v, (i < j)%nat -> vs !! j = Some v ->
                 TimestampBefore (end_of v) (end_of latest) = true).
Proof.
  intros Hk. induction vs as [|x vs IH] using rev_ind; [done|]. intros _.
  rewrite fold_left_app. cbn [fold_left].
  destruct (decide (vs = [])) as [->|Hne].
  - exists 0%nat, x. cbn. split; [done|]. split; [done|]. split.
    + intros [|j] v Hv; [|done]. cbn in Hv. injection Hv as <-.
      apply TimestampBefore_irrefl.
    + intros [|j] v Hj Hv; [lia|done].
  - destruct IH as (i & latest & Hi & E & Hmax & Hlast); [done|].
    rewrite E. unfold merge_into, MergeMetricValue.
    rewrite bool_decide_eq_false_2 by exact Hk.
    unfold MergeCumulativeOrGaugeMetricValue. fold (end_of x) (end_of latest).
    destruct (TimestampBefore (end_of x) (end_of latest)) eqn:Hx.
    + exists i, latest. split; [by apply lookup_app_l_Some|]. split; [done|]. split.
      * intros j v Hv. apply lookup_snoc_Some in Hv as [[_ Hv]|[_ <-]].
        -- by apply (Hmax j).
        -- by apply TimestampBefore_asym.
      * intros j v Hj Hv. apply lookup_snoc_Some in Hv as [[_ Hv]|[_ <-]].
        -- by apply (Hlast j).
        -- exact Hx.
    + exists (length vs), x. split; [by apply list_lookup_middle|]. split; [done|]. split.
      * intros j v Hv. apply lookup_snoc_Some in Hv as [[_ Hv]|[_ <-]].
        -- by apply (TimestampBefore_ge_trans _ (end_of latest)), (Hmax j).
        -- apply TimestampBefore_irrefl.
      * intros j v Hj Hv. apply lookup_lt_Some in Hv. rewrite length_app in Hv.
        cbn in Hv. lia.
Qed.

(** Under the gauge and cumulative kinds, the value accumulated under a
    metric name and a signature is the reported value with the latest end
    time and, among the values with that end time, the one reported last. *)
Theorem aggregate_latest operation more kinds key :
  kind_of kinds key.1 <> DELTA ->
  values_of key ((operation :: more) ≫= metric_value_sets) <> [] ->
  exists i latest,
    values_of key ((operation :: more) ≫= metric_value_sets) !! i = Some latest /\
    lookup2 (metric_value_sets_ (aggregate operation more kinds)) key = Some latest /\
    (forall j v,
       values_of key ((operation :: more) ≫= metric_value_sets) !! j = Some v ->
       TimestampBefore (end_of latest) (end_of v) = false) /\
    (forall j v,
       (i < j)%nat ->
       values_of key ((operation :: more) ≫= metric_value_sets) !! j = Some v ->
       TimestampBefore (end_of v) (end_of latest) = true).
Proof.
  intros Hk Hne. rewrite (lookup2_aggregate operation more kinds key).
  by apply fold_merge_latest.
Qed.

End Kinds.

(** *** Requests counted and a load read three times *)

(** Two values of one metric with different labels come back as they
    are. *)
Lemma singleton_aggregation_witness :
  flat_values
    (metric_value_sets
       (ToOperationProto
          (new_OperationAggregator (md5 := plain_digest) per_region None)))
  ≡ₚ flat_values (metric_value_sets per_region).
Proof.
  apply (singleton_aggregation (md5 := plain_digest) per_region None).
  apply (bool_decide_unpack (NoDup _)). vm_compute. exact I.
Defined.

(** The key of the values without labels of a metric, under the stand-in
    digest. *)
Definition unlabelled (name : string) : string * string := (name, ""%string).

Lemma aggregate_lookup_witness :
  exists sg,
    lookup2
      (metric_value_sets_ (aggregate (md5 := plain_digest) twice_counted [] None))
      ("requests"%string, sg)
    = Some (mkMetricValue ∅ None None (Int64Value 3)).
Proof.
  apply (proj2 (aggregate_lookup (md5 := plain_digest) twice_counted [] None)).
  vm_compute. apply list_elem_of_here.
Defined.

Lemma aggregate_delta_sum_witness :
  exists sum,
    lookup2
      (metric_value_sets_
         (aggregate (md5 := plain_digest) twice_counted [per_region; twice_counted] None))
      (unlabelled "requests")
    = Some sum /\
    labels sum = labels one_request /\
    value sum = Int64Value (int64_sum 1 [2; 1; 2]) /\
    (in_int64 (int64_value one_request) -> value sum = Int64Value (wrap64 6)).
Proof.
  apply (proj1 (aggregate_delta_sum (md5 := plain_digest) twice_counted
                  [per_region; twice_counted] None (unlabelled "requests")
                  one_request [two_requests; one_request; two_requests]
                  eq_refl eq_refl)).
  repeat constructor.
Defined.

(** A load of 5 read at time 10, of 7 read at time 30 and of 9 read at
    time 20, reported in this order under the gauge kind. *)
Definition reading (time load : Z) : MetricValue :=
  mkMetricValue ∅ None (Some (mkTimestamp time 0)) (Int64Value load).
Definition three_readings : Operation :=
  mkOperation "ListShelves" "project:p" None None ∅
    [mkMetricValueSet "load" [reading 10 5; reading 30 7; reading 20 9]] [] LOW.
Definition gauges : option (gmap string MetricKind) :=
  Some {[ "load"%string := GAUGE ]}.

Lemma aggregate_latest_witness :
  exists i latest,
    [reading 10 5; reading 30 7; reading 20 9] !! i = Some latest /\
    lookup2 (metric_value_sets_ (aggregate (md5 := plain_digest) three_readings [] gauges))
            (unlabelled "load")
    = Some latest /\
    (forall j v,
       [reading 10 5; reading 30 7; reading 20 9] !! j = Some v ->
       TimestampBefore (end_of latest) (end_of v) = false) /\
    (forall j v,
       (i < j)%nat ->
       [reading 10 5; reading 30 7; reading 20 9] !! j = Some v ->
       TimestampBefore (end_of v) (end_of latest) = true).
Proof.
  apply (aggregate_latest (md5 := plain_digest) three_readings [] gauges
           (unlabelled "load")).
  - vm_compute. discriminate.
  - vm_compute. discriminate.
Defined.

End OperationAggregator.

(** ** The LRU cache with a deleter *)

Module SimpleLRUCache.

(** [SimpleLRUCacheWithDeleter] ([utils/simple_lru_cache_inl.h]): a
    bounded map from keys to values in LRU order, with a capacity, an
    optional maximum idle time and an optional age-based eviction. Every
    removed value is handed to the deletion callback; the operations below
    return the removed values in the order the callback receives them.
    Times are readings of the cycle clock. *)
Section Cache.
Context {V : Type}.

(** Modelled from the spec: the entry of [SimpleLRUCacheWithDeleter]
    (its source is missing), a key and its value with the time of the
    last access and the time of insertion. *)
Record Entry : Type := mkEntry {
  entry_key : string;
  entry_value : V;
  last_use_time : Z;
  insert_time : Z
}.

(** Modelled from the spec: [SimpleLRUCacheWithDeleter] (its source is
    missing), with [max_entries], the optional [max_idle_seconds] and
    [age_based_eviction_seconds] windows and the entries in LRU order. *)
Record Cache : Type := mkCache {
  max_entries : Z;
  max_idle : option Z;
  age_based_eviction : option Z;
  (* Most recently used first. *)
  entries : list Entry
}.

Definition new_Cache (capacity : Z) : Cache := mkCache capacity None None [].

Definition SetMaxIdle (window : Z) (c : Cache) : Cache :=
  mkCache (max_entries c) (Some window) (age_based_eviction c) (entries c).

Definition SetAgeBasedEviction (window : Z) (c : Cache) : Cache :=
  mkCache (max_entries c) (max_idle c) (Some window) (entries c).

Definition set_entries (es : list Entry) (c : Cache) : Cache :=
  mkCache (max_entries c) (max_idle c) (age_based_eviction c) es.

Definition has_key (k : string) (e : Entry) : bool := String.eqb (entry_key e) k.

Definition find_entry (k : string) (c : Cache) : option Entry :=
  List.find (has_key k) (entries c).

(** Modelled from the spec: the value a [ScopedLookup] finds (the source
    is missing). *)
Definition Lookup (k : string) (c : Cache) : option V :=
  entry_value <$> find_entry k c.

(** Modelled from the spec: the end of a [ScopedLookup] that found [k]
    (the source is missing). The entry, with the value as the holder of
    the lookup left it, is the most recently used and was last used at
    [now]; its insertion time stays. *)
Definition Release (k : string) (v : V) (now : Z) (c : Cache) : Cache :=
  match find_entry k c with
  | Some e =>
      set_entries
        (mkEntry k v now (insert_time e)
         :: List.filter (fun e' => negb (has_key k e')) (entries c)) c
  | None => c
  end.

(** Modelled from the spec: [Insert] of a key that is not in the cache
    (the source is missing); entries above the capacity are evicted, least
    recently used first. *)
Definition Insert (k : string) (v : V) (now : Z) (c : Cache) : Cache * list V :=
  let es := mkEntry k v now now :: entries c in
  let capacity := Z.to_nat (max_entries c) in
  (set_entries (take capacity es) c, entry_value <$> reverse (drop capacity es)).

(** Modelled from the spec: an entry not accessed within the idle
    window, or inserted longer ago than the age window (the source is
    missing). *)
Definition expired (now : Z) (c : Cache) (e : Entry) : bool :=
  match max_idle c with
  | Some window => window <? now - last_use_time e
  | None => false
  end
  || match age_based_eviction c with
     | Some window => window <? now - insert_time e
     | None => false
     end.

(** Modelled from the spec: the sweep [RemoveExpiredEntries], from the
    least to the most recently used entry (the source is missing). *)
Definition RemoveExpiredEntries (now : Z) (c : Cache) : Cache * list V :=
  (set_entries (List.filter (fun e => negb (expired now c e)) (entries c)) c,
   entry_value <$> reverse (List.filter (expired now c) (entries c))).

(** Modelled from the spec: [RemoveAll] removes every entry, the least
    recently used first (the source is missing). *)
Definition RemoveAll (c : Cache) : Cache * list V :=
  (set_entries [] c, entry_value <$> reverse (entries c)).

(** The values in the cache. *)
Definition values (c : Cache) : list V := entry_value <$> entries c.

Lemma Lookup_values k c v : Lookup k c = Some v -> v ∈ values c.
Proof.
  unfold Lookup, find_entry, values. intros Hl.
  destruct (List.find (has_key k) (entries c)) as [e|] eqn:E; [|discriminate].
  inversion Hl; subst. apply List.find_some in E as [Hin _].
  apply list_elem_of_fmap. exists e. split; [done|]. by apply list_elem_of_In.
Qed.

Lemma Lookup_Release k (v v0 : V) now (c : Cache) :
  Lookup k c = Some v0 -> Lookup k (Release k v now c) = Some v.
Proof.
  unfold Lookup, Release. destruct (find_entry k c) as [e|]; [|discriminate].
  intros _. unfold find_entry. cbn [entries set_entries List.find].
  unfold has_key at 1. cbn [entry_key]. by rewrite String.eqb_refl.
Qed.

Lemma values_Release k v now c x :
  x ∈ values (Release k v now c) -> x = v \/ x ∈ values c.
Proof.
  unfold Release, values. destruct (find_entry k c) as [e|]; [|by right].
  cbn [entries set_entries]. rewrite fmap_cons, elem_of_cons.
  intros [->|Hin]; [by left|right].
  apply list_elem_of_fmap in Hin as (e' & -> & Hin).
  apply list_elem_of_fmap. exists e'. split; [done|].
  apply list_elem_of_In. apply list_elem_of_In in Hin.
  by apply List.filter_In in Hin as [Hin _].
Qed.

Lemma values_Insert k v now c x :
  x ∈ values (Insert k v now c).1 -> x = v \/ x ∈ values c.
Proof.
  unfold Insert, values. cbn [fst entries set_entries]. intros Hin.
  apply list_elem_of_fmap in Hin as (e & -> & Hin).
  apply elem_of_take in Hin as (i & Hi & _).
  apply list_elem_of_lookup_2 in Hi. apply elem_of_cons in Hi as [->|Hi].
  - by left.
  - right. apply list_elem_of_fmap. eauto.
Qed.

Lemma values_RemoveExpiredEntries now c x :
  x ∈ values (RemoveExpiredEntries now c).1 -> x ∈ values c.
Proof.
  unfold RemoveExpiredEntries, values. cbn [fst entries set_entries]. intros Hin.
  apply list_elem_of_fmap in Hin as (e & -> & Hin).
  apply list_elem_of_fmap. exists e. split; [done|].
  apply list_elem_of_In. apply list_elem_of_In in Hin.
  by apply List.filter_In in Hin as [Hin _].
Qed.

Lemma values_RemoveAll c : values (RemoveAll c).1 = [].
Proof. reflexivity. Qed.

End Cache.

Arguments Entry : clear implicits.
Arguments Cache : clear implicits.

(** *** What the cache holds *)

Lemma Lookup_Insert {V} k (v : V) now (c : Cache V) :
  0 < max_entries c -> Lookup k (Insert k v now c).1 = Some v.
Proof.
  intros Hc. unfold Lookup, Insert, find_entry. cbn [fst entries set_entries].
  destruct (Z.to_nat (max_entries c)) as [|n] eqn:E; [lia|].
  cbn [take List.find]. unfold has_key at 1. cbn [entry_key].
  by rewrite String.eqb_refl.
Qed.

Section CacheContents.
Context {V : Type}.

(** The keys of the cache. *)
Definition keys (c : Cache V) : list string := entry_key <$> entries c.

Lemma find_entry_None k (c : Cache V) : find_entry k c = None -> k ∉ keys c.
Proof.
  unfold find_entry, keys. intros Hf Hin.
  apply list_elem_of_fmap in Hin as (e & -> & Hin).
  apply list_elem_of_In in Hin.
  pose proof (List.find_none _ _ Hf e Hin) as H. unfold has_key in H.
  by rewrite String.eqb_refl in H.
Qed.

Lemma Insert_contents k (v : V) now (c : Cache V) :
  values (Insert k v now c).1 ++ (Insert k v now c).2 ≡ₚ v :: values c.
Proof.
  unfold Insert, values. cbn [fst snd entries set_entries].
  rewrite fmap_reverse, reverse_Permutation, <- fmap_app, take_drop. reflexivity.
Qed.

Lemma Insert_keys k (v : V) now (c : Cache V) :
  Lookup k c = None -> NoDup (keys c) -> NoDup (keys (Insert k v now c).1).
Proof.
  intros Hl Hnd. unfold keys, Insert. cbn [fst entries set_entries].
  rewrite fmap_take. eapply sublist_NoDup; [|apply sublist_take].
  rewrite fmap_cons. cbn [entry_key]. apply NoDup_cons. split; [|exact Hnd].
  apply find_entry_None. unfold Lookup in Hl. by destruct (find_entry k c).
Qed.

Lemma filter_other_keys k (es : list (Entry V)) :
  k ∉ entry_key <$> es -> List.filter (fun e' => negb (has_key k e')) es = es.
Proof.
  induction es as [|e es IH]; [done|]. rewrite fmap_cons, not_elem_of_cons.
  intros [Hne Hnin]. cbn [List.filter]. unfold has_key at 1.
  destruct (String.eqb_spec (entry_key e) k) as [E|_]; [congruence|].
  cbn [negb]. by rewrite IH.
Qed.

Lemma find_entry_split k (es : list (Entry V)) e :
  NoDup (entry_key <$> es) -> List.find (has_key k) es = Some e ->
  exists l1 l2,
    es = l1 ++ e :: l2 /\ entry_key e = k /\
    List.filter (fun e' => negb (has_key k e')) es = l1 ++ l2.
Proof.
  induction es as [|e0 es IH]; [discriminate|].
  rewrite fmap_cons. intros [Hnin Hnd]%NoDup_cons. cbn [List.find List.filter].
  unfold has_key at 1 3. destruct (String.eqb_spec (entry_key e0) k) as [E|E].
  - intros [= <-]. exists [], es. cbn [negb app]. split; [done|]. split; [done|].
    apply filter_other_keys. by rewrite <- E.
  - intros Hf. destruct (IH Hnd Hf) as (l1 & l2 & -> & Hk & Hfilter).
    exists (e0 :: l1), l2. cbn [negb app]. by rewrite Hfilter.
Qed.

Lemma Release_contents k (v v0 : V) now (c : Cache V) :
  Lookup k c = Some v0 -> NoDup (keys c) ->
  exists rest,
    values c ≡ₚ v0 :: rest /\ values (Release k v now c) ≡ₚ v :: rest /\
    NoDup (keys (Release k v now c)).
Proof.
  unfold Lookup, Release, values, keys, find_entry. intros Hl Hnd.
  destruct (List.find (has_key k) (entries c)) as [e|] eqn:Hf; [|discriminate].
  cbn [fmap option_fmap option_map] in Hl. injection Hl as <-.
  destruct (find_entry_split k (entries c) e Hnd Hf) as (l1 & l2 & Hes & Hk & Hfilter).
  cbn [entries set_entries]. rewrite Hfilter. rewrite Hes in Hnd |- *.
  exists (entry_value <$> l1 ++ l2). rewrite !fmap_cons, !fmap_app, !fmap_cons in *.
  cbn [entry_key entry_value]. split; [by rewrite Permutation_middle|].
  split; [reflexivity|]. rewrite Hk in Hnd.
  apply NoDup_app in Hnd as (H1 & H2 & H3). apply NoDup_cons in H3 as [H3 H4].
  apply NoDup_cons. split.
  - rewrite not_elem_of_app. split; [|exact H3].
    intros Hin. apply (H2 k Hin). apply list_elem_of_here.
  - apply NoDup_app. split; [exact H1|]. split; [|exact H4].
    intros x Hx Hx'. apply (H2 x Hx). by apply list_elem_of_further.
Qed.

Lemma filter_contents (P : Entry V -> bool) (es : list (Entry V)) :
  (entry_value <$> List.filter (fun e => negb (P e)) es)
  ++ (entry_value <$> reverse (List.filter P es))
  ≡ₚ entry_value <$> es.
Proof.
  rewrite reverse_Permutation.
  induction es as [|e es IH]; [done|]. cbn [List.filter].
  destruct (P e); cbn [negb]; rewrite !fmap_cons.
  - rewrite <- Permutation_middle. by rewrite IH.
  - cbn. by rewrite IH.
Qed.

Lemma RemoveExpiredEntries_contents now (c : Cache V) :
  values (RemoveExpiredEntries now c).1 ++ (RemoveExpiredEntries now c).2 ≡ₚ values c /\
  (NoDup (keys c) -> NoDup (keys (RemoveExpiredEntries now c).1)).
Proof.
  unfold RemoveExpiredEntries, values, keys. cbn [fst snd entries set_entries]. split.
  - apply filter_contents.
  - intros Hnd. generalize (fun e : Entry V => negb (expired now c e)). intros P.
    induction (entries c) as [|e es IH]; [done|].
    rewrite fmap_cons in Hnd. apply NoDup_cons in Hnd as [Hnin Hnd].
    cbn [List.filter]. destruct (P e); [|by apply IH].
    rewrite fmap_cons. apply NoDup_cons. split; [|by apply IH].
    intros Hin. apply Hnin. apply list_elem_of_fmap in Hin as (e' & -> & Hin).
    apply list_elem_of_fmap. exists e'. split; [done|].
    apply list_elem_of_In. apply list_elem_of_In in Hin.
    by apply List.filter_In in Hin as [Hin _].
Qed.

Lemma RemoveAll_contents (c : Cache V) : (RemoveAll c).2 ≡ₚ values c.
Proof. unfold RemoveAll, values. cbn [snd]. by rewrite fmap_reverse, reverse_Permutation. Qed.

End CacheContents.

End SimpleLRUCache.

(** ** The buffer of removed items ([src/cache_removed_items_handler.h]) *)

Module CacheRemovedItemsHandler.

Section Handler.
Context {RequestType : Type}.

(** [MergeItem(new_item, &old_item)]: whether the new item was merged, and
    the old item after the call. *)
Variable MergeItem : RequestType -> RequestType -> bool * RequestType.

(** The base class never merges. *)
Definition MergeItem_default (new_item old_item : RequestType)
  : bool * RequestType := (false, old_item).

(** [StackBuffer::Add] on the vector [items_]. *)
Definition Add (item : RequestType) (items_ : list RequestType)
  : list RequestType :=
  match last items_ with
  | None => items_ ++ [item]
  | Some old_item =>
      let '(merged, old_item) := MergeItem item old_item in
      if negb merged then items_ ++ [item]
      else removelast items_ ++ [old_item]
  end.

(** [AddRemovedItem], with the swapper in place. *)
Definition AddRemovedItem (item : RequestType) (stack_buffer_ : list RequestType)
  : list RequestType := Add item stack_buffer_.

(** [~StackBuffer] and [FlushOut]: the requests the flush callback is
    called with, in order; none when no callback is set. *)
Definition FlushOut (flush_callback_ : bool) (request : RequestType)
  : list RequestType :=
  if flush_callback_ then [request] else [].

Definition flush_items (flush_callback_ : bool) (items_ : list RequestType)
  : list RequestType :=
  items_ ≫= FlushOut flush_callback_.

Lemma flush_items_no_callback items_ : flush_items false items_ = [].
Proof. unfold flush_items. induction items_; [done|]. by rewrite bind_cons. Qed.

Lemma flush_items_callback items_ : flush_items true items_ = items_.
Proof.
  unfold flush_items. induction items_ as [|x l IH]; [done|].
  rewrite bind_cons, IH. reflexivity.
Qed.

End Handler.

End CacheRemovedItemsHandler.

(** ** The check aggregator ([src/check_aggregator_impl.cc]) *)

Module CheckAggregatorImpl.
Import Int Proto Signature SimpleLRUCache CacheRemovedItemsHandler.

(** [CheckAggregationOptions] ([include/aggregation_options.h]) *)
Record CheckAggregationOptions : Set := mkCheckAggregationOptions {
  num_entries : Z;
  flush_interval_ms : Z;
  expiration_ms : Z
}.

(** The three-argument constructor: the expiration is at least the flush
    interval plus one. *)
Definition new_CheckAggregationOptions
    (cache_entries flush_cache_entry_interval_ms response_expiration_ms : Z)
  : CheckAggregationOptions :=
  mkCheckAggregationOptions
    cache_entries flush_cache_entry_interval_ms
    (Z.max (wrap32 (flush_cache_entry_interval_ms + 1)) response_expiration_ms).

(** The constructor keeps the expiration above the flush interval. *)
Theorem expiration_above_flush_interval cache_entries flush expiration :
  flush < INT32_MAX ->
  flush_interval_ms (new_CheckAggregationOptions cache_entries flush expiration)
  < expiration_ms (new_CheckAggregationOptions cache_entries flush expiration)
  /\
  expiration
  <= expiration_ms (new_CheckAggregationOptions cache_entries flush expiration).
Proof.
  intros Hf. unfold new_CheckAggregationOptions. cbn [flush_interval_ms expiration_ms].
  destruct (Z_lt_le_dec flush INT32_MIN) as [Hlo|Hlo].
  - pose proof (wrap32_range (flush + 1)) as Hr.
    unfold in_int32, INT32_MIN in *. lia.
  - rewrite wrap32_id by (unfold in_int32, INT32_MIN, INT32_MAX in *; lia). lia.
Qed.

Lemma expiration_above_flush_interval_witness :
  flush_interval_ms (new_CheckAggregationOptions 10 500 100)
  < expiration_ms (new_CheckAggregationOptions 10 500 100).
Proof.
  refine (proj1 (expiration_above_flush_interval 10 500 100 _)).
  vm_compute. reflexivity.
Defined.

(** Cache entry for aggregated check requests and previous check response. *)
Record CacheElem : Type := mkCacheElem {
  operation_aggregator_ : option OperationAggregator.OperationAggregator;
  check_response_ : CheckResponse;
  last_check_time_ : Z;
  quota_scale_ : Z;
  is_flushing_ : bool
}.

Definition new_CacheElem (response : CheckResponse) (time : Z) (quota_scale : Z)
  : CacheElem :=
  mkCacheElem None response time quota_scale false.

Definition HasPendingCheckRequest (elem : CacheElem) : bool :=
  match operation_aggregator_ elem with Some _ => true | None => false end.

Definition set_operation_aggregator
    (a : option OperationAggregator.OperationAggregator) (elem : CacheElem)
  : CacheElem :=
  mkCacheElem a (check_response_ elem) (last_check_time_ elem)
              (quota_scale_ elem) (is_flushing_ elem).
Definition set_check_response (r : CheckResponse) (elem : CacheElem) : CacheElem :=
  mkCacheElem (operation_aggregator_ elem) r (last_check_time_ elem)
              (quota_scale_ elem) (is_flushing_ elem).
Definition set_last_check_time (t : Z) (elem : CacheElem) : CacheElem :=
  mkCacheElem (operation_aggregator_ elem) (check_response_ elem) t
              (quota_scale_ elem) (is_flushing_ elem).
Definition set_quota_scale (q : Z) (elem : CacheElem) : CacheElem :=
  mkCacheElem (operation_aggregator_ elem) (check_response_ elem)
              (last_check_time_ elem) q (is_flushing_ elem).
Definition set_is_flushing (v : bool) (elem : CacheElem) : CacheElem :=
  mkCacheElem (operation_aggregator_ elem) (check_response_ elem)
              (last_check_time_ elem) (quota_scale_ elem) v.

Record CheckAggregatorImpl : Type := mkCheckAggregatorImpl {
  service_name_ : string;
  options_ : CheckAggregationOptions;
  metric_kinds_ : option (gmap string MetricKind);
  (* Null when caching is disabled. *)
  cache_ : option (Cache CacheElem);
  flush_interval_in_cycle_ : Z;
  (* Whether a flush callback is set ([InternalSetFlushCallback]). The
     callback is the caller's: an operation returns the requests the
     callback is called with. *)
  flush_callback_ : bool
}.

Definition set_cache (c : option (Cache CacheElem)) (agg : CheckAggregatorImpl)
  : CheckAggregatorImpl :=
  mkCheckAggregatorImpl (service_name_ agg) (options_ agg) (metric_kinds_ agg) c
                        (flush_interval_in_cycle_ agg) (flush_callback_ agg).

Section WithDigest.
Context `{md5 : MD5}.

(** [SimpleCycleTimer::Frequency()], cycles per second: a parameter. *)
Variable Frequency : Z.

Definition Aggregate (request : CheckRequest)
    (metric_kinds : option (gmap string MetricKind)) (elem : CacheElem) : CacheElem :=
  match operation_aggregator_ elem with
  | None =>
      set_operation_aggregator
        (Some (OperationAggregator.new_OperationAggregator (operation request)
                                                           metric_kinds)) elem
  | Some aggregator =>
      set_operation_aggregator
        (Some (OperationAggregator.MergeOperation (operation request) aggregator))
        elem
  end.

Definition ReturnCheckRequestAndClear (service_name : string) (elem : CacheElem)
  : CheckRequest * CacheElem :=
  match operation_aggregator_ elem with
  | Some aggregator =>
      (mkCheckRequest service_name
                      (Some (OperationAggregator.ToOperationProto aggregator)),
       set_operation_aggregator None elem)
  | None => (mkCheckRequest service_name None, elem)
  end.

(** The constructor; no flush callback is set. *)
Definition new_CheckAggregatorImpl (service_name : string)
    (options : CheckAggregationOptions)
    (metric_kinds : option (gmap string MetricKind)) : CheckAggregatorImpl :=
  mkCheckAggregatorImpl
    service_name options metric_kinds
    (if 0 <? num_entries options
     then Some (SetMaxIdle (Z.quot (wrap64 (expiration_ms options * Frequency)) 1000)
                           (new_Cache (num_entries options)))
     else None)
    (Z.quot (wrap64 (flush_interval_ms options * Frequency)) 1000)
    false.

Definition SetFlushCallback (callback : bool) (agg : CheckAggregatorImpl)
  : CheckAggregatorImpl :=
  mkCheckAggregatorImpl (service_name_ agg) (options_ agg) (metric_kinds_ agg)
                        (cache_ agg) (flush_interval_in_cycle_ agg) callback.

(** [now] is the clock reading taken inside. *)
Definition ShouldFlush (now : Z) (agg : CheckAggregatorImpl) (elem : CacheElem) : bool :=
  let age := wrap64 (now - last_check_time_ elem) in
  flush_interval_in_cycle_ agg <=? age.

(** [OnCacheEntryDelete], on the buffer of the running operation. The
    check aggregator keeps the [MergeItem] of the base class. *)
Definition OnCacheEntryDelete (agg : CheckAggregatorImpl) (elem : CacheElem)
    (stack_buffer : list CheckRequest) : list CheckRequest :=
  if negb (HasPendingCheckRequest elem) then stack_buffer
  else
    let '(request, _) := ReturnCheckRequestAndClear (service_name_ agg) elem in
    AddRemovedItem MergeItem_default request stack_buffer.

Definition delete_entries (agg : CheckAggregatorImpl) (removed : list CacheElem)
    (stack_buffer : list CheckRequest) : list CheckRequest :=
  fold_left (fun buffer elem => OnCacheEntryDelete agg elem buffer)
            removed stack_buffer.

(** [Check(request, response)]. [now] is the clock reading of the lookup
    and of [ShouldFlush]; [now'] is the later reading the entry is stamped
    with. The result is the status, the response written (if any), the
    aggregator after the call and the requests the flush callback was
    called with. *)
Definition Check (request : CheckRequest) (now now' : Z) (agg : CheckAggregatorImpl)
  : Code * option CheckResponse * CheckAggregatorImpl * list CheckRequest :=
  if negb (String.eqb (cq_service_name request) (service_name_ agg)) then
    (INVALID_ARGUMENT, None, agg, [])
  else if negb (has_operation request) then
    (INVALID_ARGUMENT, None, agg, [])
  else if negb (bool_decide (importance (operation request) = LOW))
          || negb (bool_decide (is_Some (cache_ agg))) then
    (* By returning NOT_FOUND, caller will send request to server. *)
    (NOT_FOUND, None, agg, [])
  else
    match cache_ agg with
    | None => (NOT_FOUND, None, agg, [])
    | Some cache =>
      let request_signature := GenerateCheckRequestSignature request in
      let stack_buffer : list CheckRequest := [] in
      match Lookup request_signature cache with
      | None => (NOT_FOUND, None, agg, flush_items (flush_callback_ agg) stack_buffer)
      | Some elem =>
          if 0 <? check_errors_size (check_response_ elem) then
            if ShouldFlush now agg elem then
              let elem := set_last_check_time now' elem in
              (NOT_FOUND, None,
               set_cache (Some (Release request_signature elem now cache)) agg,
               flush_items (flush_callback_ agg) stack_buffer)
            else
              (OK, Some (check_response_ elem),
               set_cache (Some (Release request_signature elem now cache)) agg,
               flush_items (flush_callback_ agg) stack_buffer)
          else
            let elem := Aggregate request (metric_kinds_ agg) elem in
            if ShouldFlush now agg elem then
              let elem := set_is_flushing true elem in
              let elem := set_last_check_time now' elem in
              (NOT_FOUND, None,
               set_cache (Some (Release request_signature elem now cache)) agg,
               flush_items (flush_callback_ agg) stack_buffer)
            else
              (OK, Some (check_response_ elem),
               set_cache (Some (Release request_signature elem now cache)) agg,
               flush_items (flush_callback_ agg) stack_buffer)
      end
    end.

Definition CacheResponse (request : CheckRequest) (response : CheckResponse)
    (now : Z) (agg : CheckAggregatorImpl)
  : Code * CheckAggregatorImpl * list CheckRequest :=
  match cache_ agg with
  | Some cache =>
      let request_signature := GenerateCheckRequestSignature request in
      let quota_scale := 0 in
      match Lookup request_signature cache with
      | Some elem =>
          let elem := set_last_check_time now elem in
          let elem := set_check_response response elem in
          let elem := set_quota_scale quota_scale elem in
          let elem := set_is_flushing false elem in
          (OK, set_cache (Some (Release request_signature elem now cache)) agg,
           flush_items (flush_callback_ agg) [])
      | None =>
          let cache_elem := new_CacheElem response now quota_scale in
          let '(cache, removed) := Insert request_signature cache_elem now cache in
          (OK, set_cache (Some cache) agg,
           flush_items (flush_callback_ agg) (delete_entries agg removed []))
      end
  | None => (OK, agg, [])
  end.

(** When the next [Flush()] should be called. *)
Definition GetNextFlushInterval (agg : CheckAggregatorImpl) : Z :=
  match cache_ agg with
  | None => -1
  | Some _ => expiration_ms (options_ agg)
  end.

Definition Flush (now : Z) (agg : CheckAggregatorImpl)
  : Code * CheckAggregatorImpl * list CheckRequest :=
  match cache_ agg with
  | Some cache =>
      let '(cache, removed) := RemoveExpiredEntries now cache in
      (OK, set_cache (Some cache) agg,
       flush_items (flush_callback_ agg) (delete_entries agg removed []))
  | None => (OK, agg, [])
  end.

Definition FlushAll (agg : CheckAggregatorImpl)
  : Code * CheckAggregatorImpl * list CheckRequest :=
  match cache_ agg with
  | Some cache =>
      let '(cache, removed) := RemoveAll cache in
      (OK, set_cache (Some cache) agg,
       flush_items (flush_callback_ agg) (delete_entries agg removed []))
  | None => (OK, agg, [])
  end.

(** The destructor: no callback is called. *)
Definition delete_CheckAggregatorImpl (agg : CheckAggregatorImpl)
  : CheckAggregatorImpl * list CheckRequest :=
  let agg := SetFlushCallback false agg in
  let '(_, agg, flushed) := FlushAll agg in
  (agg, flushed).

(** The entries of the cache. *)
Definition elems (agg : CheckAggregatorImpl) : list CacheElem :=
  match cache_ agg with
  | Some cache => values cache
  | None => []
  end.

(** *** Properties *)

(** The entry of a request, in an aggregator that has a cache. *)
Definition lookup_elem (request : CheckRequest) (agg : CheckAggregatorImpl)
  : option CacheElem :=
  cache_ agg ≫= Lookup (GenerateCheckRequestSignature request).

(** A request the cache handles: of the service, with an operation of low
    importance. *)
Definition cacheable (request : CheckRequest) (agg : CheckAggregatorImpl) : Prop :=
  cq_service_name request = service_name_ agg /\
  has_operation request = true /\
  importance (operation request) = LOW.

Definition denied (elem : CacheElem) : Prop :=
  0 < check_errors_size (check_response_ elem).

Lemma Check_denied request now now' agg elem :
  cacheable request agg ->
  lookup_elem request agg = Some elem ->
  denied elem ->
  Check request now now' agg =
    if ShouldFlush now agg elem
    then (NOT_FOUND, None,
          set_cache (Release (GenerateCheckRequestSignature request)
                             (set_last_check_time now' elem) now <$> cache_ agg) agg,
          [])
    else (OK, Some (check_response_ elem),
          set_cache (Release (GenerateCheckRequestSignature request) elem now
                     <$> cache_ agg) agg,
          []).
Proof.
  intros (Hn & Ho & Hi) Hl Hd. unfold lookup_elem in Hl.
  destruct (cache_ agg) as [cache|] eqn:Hc; [|discriminate]. cbn in Hl.
  unfold Check. rewrite Hn, String.eqb_refl, Ho, Hi, Hc. cbn [negb orb].
  rewrite bool_decide_eq_true_2 by done.
  rewrite bool_decide_eq_true_2 by eauto. cbn [negb orb].
  rewrite Hl. unfold denied in Hd. rewrite (proj2 (Z.ltb_lt _ _) Hd).
  cbn [fmap option_fmap option_map].
  destruct (ShouldFlush now agg elem); unfold flush_items; reflexivity.
Qed.


Lemma lookup_elem_Release request elem elem0 now agg :
  lookup_elem request agg = Some elem0 ->
  lookup_elem request
    (set_cache (Release (GenerateCheckRequestSignature request) elem now
                <$> cache_ agg) agg) = Some elem.
Proof.
  unfold lookup_elem. destruct (cache_ agg) as [cache|]; [|discriminate].
  cbn. apply Lookup_Release.
Qed.

(** The statuses of successive calls of [Check] with one request, at the
    given pairs of clock readings. *)
Fixpoint Check_statuses (request : CheckRequest) (times : list (Z * Z))
    (agg : CheckAggregatorImpl) : list Code :=
  match times with
  | [] => []
  | (now, now') :: times =>
      let '(status, _, agg, _) := Check request now now' agg in
      status :: Check_statuses request times agg
  end.

Lemma Check_statuses_denied_fresh request times agg elem :
  cacheable request agg ->
  lookup_elem request agg = Some elem ->
  denied elem ->
  Forall (fun t => wrap64 (t.1 - last_check_time_ elem) < flush_interval_in_cycle_ agg)
         times ->
  Check_statuses request times agg = repeat OK (length times).
Proof.
  revert agg. induction times as [|[now now'] times IH]; intros agg Hc Hl Hd Ht.
  - reflexivity.
  - apply Forall_cons in Ht as [Ht1 Ht]. cbn [fst] in Ht1.
    cbn [Check_statuses length repeat].
    rewrite (Check_denied request now now' agg elem Hc Hl Hd).
    unfold ShouldFlush. rewrite (proj2 (Z.leb_gt _ _) Ht1).
    f_equal. apply (IH _); [exact Hc| |exact Hd|exact Ht].
    eapply lookup_elem_Release; eassumption.
Qed.

(** C7. A [Check] of a cacheable request that hits an entry whose
    response has check errors: when the age of the entry (the clock
    reading minus its last check time) is below the flush interval, it
    returns [OK] with the cached response and the entry stays as it was;
    when the age is at or above the flush interval, it stamps the entry
    with the current clock reading and returns [NOT_FOUND], and every later
    [Check] of the request within a flush interval of that stamp returns
    [OK]: one [NOT_FOUND] per flush interval. *)
Theorem Check_denied_hit request now now' agg elem :
  cacheable request agg ->
  lookup_elem request agg = Some elem ->
  denied elem ->
  (wrap64 (now - last_check_time_ elem) < flush_interval_in_cycle_ agg ->
   exists agg',
     Check request now now' agg = (OK, Some (check_response_ elem), agg', []) /\
     lookup_elem request agg' = Some elem) /\
  (flush_interval_in_cycle_ agg <= wrap64 (now - last_check_time_ elem) ->
   exists agg',
     Check request now now' agg = (NOT_FOUND, None, agg', []) /\
     lookup_elem request agg' = Some (set_last_check_time now' elem) /\
     forall later,
       Forall (fun t => wrap64 (t.1 - now') < flush_interval_in_cycle_ agg) later ->
       Check_statuses request later agg' = repeat OK (length later)).
Proof.
  intros Hc Hl Hd. rewrite (Check_denied request now now' agg elem Hc Hl Hd).
  unfold ShouldFlush. split; intros Hage.
  - rewrite (proj2 (Z.leb_gt _ _) Hage). eexists. split; [reflexivity|].
    eapply lookup_elem_Release; eassumption.
  - rewrite (proj2 (Z.leb_le _ _) Hage). eexists. split; [reflexivity|].
    split; [eapply lookup_elem_Release; eassumption|].
    intros later Hlater.
    apply Check_statuses_denied_fresh with (elem := set_last_check_time now' elem).
    + exact Hc.
    + eapply lookup_elem_Release; eassumption.
    + exact Hd.
    + exact Hlater.
Qed.

(** What [Check] does not take to the cache: a request of another
    service or without operation is refused with [INVALID_ARGUMENT]; a
    request whose operation is not of low importance, any request when
    caching is disabled, and a request that is not in the cache get
    [NOT_FOUND]. No response is written, the aggregator stays as it was and
    no flush callback is called. *)
Theorem Check_not_cached request now now' agg :
  (cq_service_name request <> service_name_ agg ->
   Check request now now' agg = (INVALID_ARGUMENT, None, agg, [])) /\
  (cq_service_name request = service_name_ agg ->
   has_operation request = false ->
   Check request now now' agg = (INVALID_ARGUMENT, None, agg, [])) /\
  (cq_service_name request = service_name_ agg ->
   has_operation request = true ->
   importance (operation request) <> LOW \/ cache_ agg = None
   \/ lookup_elem request agg = None ->
   Check request now now' agg = (NOT_FOUND, None, agg, [])).
Proof.
  unfold Check. repeat split.
  - intros Hne. by destruct (String.eqb_spec (cq_service_name request) (service_name_ agg)).
  - intros -> ->. by rewrite String.eqb_refl.
  - intros -> -> Hcase. rewrite String.eqb_refl. cbn [negb].
    destruct (bool_decide (importance (operation request) = LOW)) eqn:Hi;
      cbn [negb orb]; [|reflexivity].
    apply bool_decide_eq_true_1 in Hi.
    destruct (cache_ agg) as [cache|] eqn:Hc.
    + rewrite bool_decide_eq_true_2 by eauto. cbn [negb].
      destruct Hcase as [Hh|[Hn|Hl]]; [contradiction|discriminate|].
      unfold lookup_elem in Hl. rewrite Hc in Hl. cbn in Hl. rewrite Hl.
      reflexivity.
    + rewrite bool_decide_eq_false_2 by (intros [? ?]; discriminate). reflexivity.
Qed.

(** A [Check] of a cacheable request that hits an entry whose response
    has no check error accumulates the operation of the request into the
    entry: the entry then holds a pending aggregator, a new one built from
    the operation when the entry had none and otherwise the one it had
    with the operation merged in. The call returns [OK] with the cached
    response when the age of the entry is below the flush interval and
    otherwise marks the entry as flushing, stamps it and returns
    [NOT_FOUND]. *)
Theorem Check_pass_hit request now now' agg elem :
  cacheable request agg ->
  lookup_elem request agg = Some elem ->
  ~ denied elem ->
  (wrap64 (now - last_check_time_ elem) < flush_interval_in_cycle_ agg ->
   exists agg',
     Check request now now' agg = (OK, Some (check_response_ elem), agg', []) /\
     lookup_elem request agg'
     = Some (mkCacheElem
               (Some match operation_aggregator_ elem with
                     | None =>
                         OperationAggregator.new_OperationAggregator
                           (operation request) (metric_kinds_ agg)
                     | Some aggregator =>
                         OperationAggregator.MergeOperation (operation request)
                                                            aggregator
                     end)
               (check_response_ elem) (last_check_time_ elem)
               (quota_scale_ elem) (is_flushing_ elem))) /\
  (flush_interval_in_cycle_ agg <= wrap64 (now - last_check_time_ elem) ->
   exists agg',
     Check request now now' agg = (NOT_FOUND, None, agg', []) /\
     lookup_elem request agg'
     = Some (mkCacheElem
               (Some match operation_aggregator_ elem with
                     | None =>
                         OperationAggregator.new_OperationAggregator
                           (operation request) (metric_kinds_ agg)
                     | Some aggregator =>
                         OperationAggregator.MergeOperation (operation request)
                                                            aggregator
                     end)
               (check_response_ elem) now' (quota_scale_ elem) true)).
Proof.
  assert (Hentry :
    Aggregate request (metric_kinds_ agg) elem
    = mkCacheElem
        (Some match operation_aggregator_ elem with
              | None =>
                  OperationAggregator.new_OperationAggregator
                    (operation request) (metric_kinds_ agg)
              | Some aggregator =>
                  OperationAggregator.MergeOperation (operation request) aggregator
              end)
        (check_response_ elem) (last_check_time_ elem)
        (quota_scale_ elem) (is_flushing_ elem))
    by (unfold Aggregate; by destruct (operation_aggregator_ elem)).
  intros (Hn & Ho & Hi) Hl Hd. unfold lookup_elem in Hl |- *.
  destruct (cache_ agg) as [cache|] eqn:Hc; [|discriminate]. cbn in Hl.
  unfold Check. rewrite Hn, String.eqb_refl, Ho, Hi, Hc. cbn [negb orb].
  rewrite bool_decide_eq_true_2 by done.
  rewrite bool_decide_eq_true_2 by eauto. cbn [negb orb].
  rewrite Hl. unfold denied in Hd. rewrite (proj2 (Z.ltb_ge _ _)) by lia.
  assert (Hlast : last_check_time_ (Aggregate request (metric_kinds_ agg) elem)
                  = last_check_time_ elem)
    by (unfold Aggregate; by destruct (operation_aggregator_ elem)).
  assert (Hresp : check_response_ (Aggregate request (metric_kinds_ agg) elem)
                  = check_response_ elem)
    by (unfold Aggregate; by destruct (operation_aggregator_ elem)).
  unfold ShouldFlush. rewrite Hlast, Hresp. split; intros Hage.
  - rewrite (proj2 (Z.leb_gt _ _) Hage). eexists. split; [reflexivity|].
    cbn. rewrite <- Hentry. eapply Lookup_Release. exact Hl.
  - rewrite (proj2 (Z.leb_le _ _) Hage). eexists. split; [reflexivity|].
    cbn. rewrite (Lookup_Release _ _ _ _ _ Hl). by rewrite Hentry.
Qed.

(** The destructor of the check aggregator calls no flush callback and
    leaves no entry, whatever the cache holds. *)
Theorem delete_CheckAggregatorImpl_silent agg :
  (delete_CheckAggregatorImpl agg).2 = [] /\
  elems (delete_CheckAggregatorImpl agg).1 = [] /\
  flush_callback_ (delete_CheckAggregatorImpl agg).1 = false.
Proof.
  unfold delete_CheckAggregatorImpl, FlushAll, elems.
  destruct agg as [name options kinds [cache|] interval callback]; cbn;
    rewrite ?flush_items_no_callback; repeat split.
Qed.

(** *** Calls and reachable states *)

Inductive Call : Type :=
| CallCheck (request : CheckRequest) (now now' : Z)
| CallCacheResponse (request : CheckRequest) (response : CheckResponse) (now : Z)
| CallFlush (now : Z)
| CallFlushAll.

(** The aggregator after a call. *)
Definition run_call (agg : CheckAggregatorImpl) (call : Call) : CheckAggregatorImpl :=
  match call with
  | CallCheck request now now' => (Check request now now' agg).1.2
  | CallCacheResponse request response now => (CacheResponse request response now agg).1.2
  | CallFlush now => (Flush now agg).1.2
  | CallFlushAll => (FlushAll agg).1.2
  end.

Definition run_calls (agg : CheckAggregatorImpl) (calls : list Call)
  : CheckAggregatorImpl :=
  fold_left run_call calls agg.

(** An entry that holds a denial holds no pending aggregator. *)
Definition denied_clean (elem : CacheElem) : Prop :=
  denied elem -> operation_aggregator_ elem = None.

Definition all_denied_clean (agg : CheckAggregatorImpl) : Prop :=
  forall elem, elem ∈ elems agg -> denied_clean elem.

(** The call stores a response with check errors into an entry that
    holds a pending aggregator. *)
Definition overwrites_pending (agg : CheckAggregatorImpl) (call : Call) : bool :=
  match call with
  | CallCacheResponse request response _ =>
      (0 <? check_errors_size response)
      && match lookup_elem request agg with
         | Some elem => HasPendingCheckRequest elem
         | None => false
         end
  | _ => false
  end.

(** No call of the run overwrites a pending aggregator with a denial. *)
Fixpoint never_overwrites_pending (agg : CheckAggregatorImpl) (calls : list Call)
  : bool :=
  match calls with
  | [] => true
  | call :: calls =>
      negb (overwrites_pending agg call)
      && never_overwrites_pending (run_call agg call) calls
  end.

Lemma elems_set_cache_Release k elem now agg x :
  x ∈ elems (set_cache (Release k elem now <$> cache_ agg) agg) ->
  x = elem \/ x ∈ elems agg.
Proof.
  unfold elems. destruct (cache_ agg) as [cache|]; cbn; [|by right].
  apply values_Release.
Qed.

Lemma denied_clean_Aggregate request kinds elem :
  ~ denied elem -> denied_clean (Aggregate request kinds elem).
Proof.
  intros Hnd Hd. exfalso. apply Hnd. unfold denied in *.
  unfold Aggregate in Hd. by destruct (operation_aggregator_ elem).
Qed.

Lemma run_call_denied_clean agg call :
  all_denied_clean agg ->
  overwrites_pending agg call = false ->
  all_denied_clean (run_call agg call).
Proof.
  intros Hinv Hg. destruct call as [request now now'|request response now|now|];
    cbn [run_call].
  - (* Check *)
    unfold Check.
    destruct (negb (String.eqb _ _)); [exact Hinv|].
    destruct (negb (has_operation request)); [exact Hinv|].
    destruct (_ || _); [exact Hinv|].
    destruct (cache_ agg) as [cache|] eqn:Hc; [|exact Hinv].
    destruct (Lookup _ cache) as [elem|] eqn:Hl; [|exact Hinv].
    assert (Hin : elem ∈ elems agg).
    { unfold elems. rewrite Hc. eapply Lookup_values, Hl. }
    assert (Hrel : forall e, denied_clean e ->
      all_denied_clean
        (set_cache (Some (Release (GenerateCheckRequestSignature request) e now cache))
                   agg)).
    { intros e He x Hx.
      change (Some (Release (GenerateCheckRequestSignature request) e now cache))
        with (Release (GenerateCheckRequestSignature request) e now <$> Some cache) in Hx.
      rewrite <- Hc in Hx. apply elems_set_cache_Release in Hx as [->|Hx]; auto. }
    destruct (0 <? check_errors_size (check_response_ elem)) eqn:He.
    + destruct (ShouldFlush now agg elem); cbn; apply Hrel.
      * intros Hd. apply (Hinv elem Hin). exact Hd.
      * apply (Hinv elem Hin).
    + assert (Hnd : ~ denied elem) by (unfold denied; lia).
      pose proof (denied_clean_Aggregate request (metric_kinds_ agg) elem Hnd) as Hagg.
      destruct (ShouldFlush now agg _); cbn; apply Hrel; [|exact Hagg].
      intros Hd. apply Hagg. exact Hd.
  - (* CacheResponse *)
    unfold CacheResponse. cbn [overwrites_pending] in Hg. unfold lookup_elem in Hg.
    destruct (cache_ agg) as [cache|] eqn:Hc; [|exact Hinv]. cbn in Hg.
    destruct (Lookup _ cache) as [elem|] eqn:Hl.
    + cbn. intros x Hx.
      change (Some (Release ?k ?e now cache)) with (Release k e now <$> Some cache) in Hx.
      rewrite <- Hc in Hx. apply elems_set_cache_Release in Hx as [->|Hx]; [|auto].
      intros Hd. unfold denied in Hd. cbn in Hd. cbn.
      rewrite (proj2 (Z.ltb_lt _ _) Hd) in Hg. cbn in Hg.
      unfold HasPendingCheckRequest in Hg.
      by destruct (operation_aggregator_ elem).
    + destruct (Insert _ _ now cache) as [cache' removed] eqn:Hi. cbn.
      intros x Hx. unfold elems in Hx. cbn in Hx.
      replace cache' with (Insert (GenerateCheckRequestSignature request)
                                  (new_CacheElem response now 0) now cache).1 in Hx
        by (by rewrite Hi).
      apply values_Insert in Hx as [->|Hx].
      * intros _. reflexivity.
      * apply Hinv. unfold elems. by rewrite Hc.
  - (* Flush *)
    unfold Flush. destruct (cache_ agg) as [cache|] eqn:Hc; [|exact Hinv].
    cbn. intros x Hx. unfold elems in Hx. cbn in Hx.
    apply values_RemoveExpiredEntries in Hx. apply Hinv. unfold elems. by rewrite Hc.
  - (* FlushAll *)
    unfold FlushAll. destruct (cache_ agg) as [cache|] eqn:Hc; [|exact Hinv].
    cbn. intros x Hx. unfold elems in Hx. cbn in Hx. by apply elem_of_nil in Hx.
Qed.

Lemma new_CheckAggregatorImpl_clean service_name options kinds :
  all_denied_clean (new_CheckAggregatorImpl service_name options kinds).
Proof.
  intros x Hx. unfold elems, new_CheckAggregatorImpl in Hx. cbn in Hx.
  destruct (0 <? num_entries options); cbn in Hx; by apply elem_of_nil in Hx.
Qed.

Lemma run_calls_denied_clean agg calls :
  all_denied_clean agg ->
  never_overwrites_pending agg calls = true ->
  all_denied_clean (run_calls agg calls).
Proof.
  revert agg. induction calls as [|call calls IH]; intros agg Hinv Hg.
  - exact Hinv.
  - cbn [never_overwrites_pending] in Hg. apply andb_true_iff in Hg as [Hg1 Hg2].
    apply negb_true_iff in Hg1.
    cbn [run_calls fold_left]. apply IH; [|exact Hg2].
    by apply run_call_denied_clean.
Qed.

(** [CacheResponse] on an entry of the cache replaces the response and
    keeps the pending aggregator the entry has. *)
Lemma CacheResponse_keeps_aggregator request response now agg elem :
  lookup_elem request agg = Some elem ->
  lookup_elem request (CacheResponse request response now agg).1.2
  = Some (mkCacheElem (operation_aggregator_ elem) response now 0 false).
Proof.
  intros Hl. unfold CacheResponse. unfold lookup_elem in Hl |- *.
  destruct (cache_ agg) as [cache|] eqn:Hc; [|discriminate]. cbn in Hl.
  rewrite Hl. cbn. eapply Lookup_Release. exact Hl.
Qed.

(** C1, as the source has it. In every state reached from a new
    aggregator by [Check], [CacheResponse], [Flush] and [FlushAll] calls
    none of which stores a response with check errors into an entry that
    holds a pending aggregator, every entry whose response has check
    errors holds no pending aggregator; and [CacheResponse] on an existing
    entry keeps the pending aggregator of the entry, whatever the
    response. *)
Theorem denied_entries_hold_no_aggregator service_name options kinds calls :
  (never_overwrites_pending
     (new_CheckAggregatorImpl service_name options kinds) calls = true ->
   all_denied_clean
     (run_calls (new_CheckAggregatorImpl service_name options kinds) calls)) /\
  (forall request response now elem,
     lookup_elem request
       (run_calls (new_CheckAggregatorImpl service_name options kinds) calls)
     = Some elem ->
     lookup_elem request
       (CacheResponse request response now
          (run_calls (new_CheckAggregatorImpl service_name options kinds) calls)).1.2
     = Some (mkCacheElem (operation_aggregator_ elem) response now 0 false)).
Proof.
  split.
  - apply run_calls_denied_clean, new_CheckAggregatorImpl_clean.
  - intros request response now elem. apply CacheResponse_keeps_aggregator.
Qed.

End WithDigest.

(** *** A library service, a clock of a thousand cycles per second *)

Definition example_request : CheckRequest :=
  mkCheckRequest "library.googleapis.com"
    (Some (mkOperation "ListShelves" "project:p" None None ∅
             [mkMetricValueSet "tokens" [mkMetricValue ∅ None None (Int64Value 1)]]
             [] LOW)).

Definition pass_response : CheckResponse := mkCheckResponse "op-1" [].
Definition error_response : CheckResponse :=
  mkCheckResponse "op-1" [mkCheckError 7 "PERMISSION_DENIED"].

(** Ten entries, a flush interval of 100 ms, an expiration of 200 ms. *)
Definition example_aggregator : CheckAggregatorImpl :=
  new_CheckAggregatorImpl 1000 "library.googleapis.com"
    (new_CheckAggregationOptions 10 100 200) None.

(** The aggregator once the denial of the request was cached at time 0. *)
Definition denied_aggregator : CheckAggregatorImpl :=
  (CacheResponse (md5 := plain_digest) example_request error_response 0
     example_aggregator).1.2.

Lemma Check_denied_hit_witness :
  (exists agg',
     Check (md5 := plain_digest) example_request 50 50 denied_aggregator
       = (OK, Some error_response, agg', []) /\
     lookup_elem (md5 := plain_digest) example_request agg'
       = Some (new_CacheElem error_response 0 0)) /\
  (exists agg',
     Check (md5 := plain_digest) example_request 150 151 denied_aggregator
       = (NOT_FOUND, None, agg', []) /\
     lookup_elem (md5 := plain_digest) example_request agg'
       = Some (set_last_check_time 151 (new_CacheElem error_response 0 0)) /\
     forall later,
       Forall (fun t => wrap64 (t.1 - 151) < flush_interval_in_cycle_ denied_aggregator)
              later ->
       Check_statuses (md5 := plain_digest) example_request later agg'
       = repeat OK (length later)).
Proof.
  split.
  - apply (Check_denied_hit (md5 := plain_digest) example_request 50 50
             denied_aggregator (new_CacheElem error_response 0 0)).
    + repeat split.
    + reflexivity.
    + unfold denied. vm_compute. reflexivity.
    + vm_compute. reflexivity.
  - apply (Check_denied_hit (md5 := plain_digest) example_request 150 151
             denied_aggregator (new_CacheElem error_response 0 0)).
    + repeat split.
    + reflexivity.
    + unfold denied. vm_compute. reflexivity.
    + vm_compute. discriminate.
Defined.

Lemma Check_not_cached_witness :
  Check (md5 := plain_digest) example_request 5 5 example_aggregator
  = (NOT_FOUND, None, example_aggregator, []).
Proof.
  refine (proj2 (proj2 (Check_not_cached (md5 := plain_digest) example_request 5 5
                          example_aggregator)) _ _ _).
  - reflexivity.
  - reflexivity.
  - right. right. reflexivity.
Defined.

(** The aggregator once the pass of the request was cached at time 0. *)
Definition passed_aggregator : CheckAggregatorImpl :=
  (CacheResponse (md5 := plain_digest) example_request pass_response 0
     example_aggregator).1.2.

(** The check is answered from the cache, and the request the entry
    would send when it is flushed out is the request that was checked. *)
Lemma Check_pass_hit_witness :
  exists agg',
    Check (md5 := plain_digest) example_request 50 50 passed_aggregator
      = (OK, Some pass_response, agg', []) /\
    (fun elem => (ReturnCheckRequestAndClear "library.googleapis.com" elem).1)
    <$> lookup_elem (md5 := plain_digest) example_request agg' = Some example_request.
Proof.
  destruct (Check_pass_hit (md5 := plain_digest) example_request 50 50
              passed_aggregator (new_CacheElem pass_response 0 0))
    as [H _].
  - repeat split.
  - reflexivity.
  - unfold denied. vm_compute. discriminate.
  - destruct H as (agg' & E & Hl); [vm_compute; reflexivity|].
    exists agg'. split; [exact E|]. rewrite Hl. vm_compute. reflexivity.
Defined.

(** A denial is cached and the request is checked twice, within the
    flush interval and after it: the cache holds the entry of the request,
    with the denial, and the entry holds no pending aggregator. *)
Definition denied_run : list Call :=
  [CallCacheResponse example_request error_response 0;
   CallCheck example_request 10 10;
   CallCheck example_request 150 151].

Lemma denied_entries_hold_no_aggregator_witness :
  exists elem,
    elems (run_calls (md5 := plain_digest) example_aggregator denied_run) = [elem] /\
    lookup_elem (md5 := plain_digest) example_request
      (run_calls (md5 := plain_digest) example_aggregator denied_run) = Some elem /\
    check_response_ elem = error_response /\
    denied elem /\
    operation_aggregator_ elem = None.
Proof.
  exists (set_last_check_time 151 (new_CacheElem error_response 0 0)).
  assert (E : elems (run_calls (md5 := plain_digest) example_aggregator denied_run)
              = [set_last_check_time 151 (new_CacheElem error_response 0 0)])
    by (vm_compute; reflexivity).
  assert (Hd : denied (set_last_check_time 151 (new_CacheElem error_response 0 0)))
    by (unfold denied; vm_compute; reflexivity).
  split; [exact E|]. split; [vm_compute; reflexivity|].
  split; [reflexivity|]. split; [exact Hd|].
  refine (proj1 (denied_entries_hold_no_aggregator (md5 := plain_digest) 1000
                   "library.googleapis.com" (new_CheckAggregationOptions 10 100 200)
                   None denied_run) _ _ _ Hd).
  - vm_compute. reflexivity.
  - change (run_calls
              (new_CheckAggregatorImpl 1000 "library.googleapis.com"
                 (new_CheckAggregationOptions 10 100 200) None) denied_run)
      with (run_calls (md5 := plain_digest) example_aggregator denied_run).
    rewrite E. apply list_elem_of_here.
Defined.

(** C1, counterexample. The pass of a request is cached, a [Check] of the
    request accumulates its operation into the entry, and then a response
    with a check error is cached for the request: the entry holds the
    denial and still holds the pending aggregator. *)
Lemma denial_over_pending_aggregator :
  (fun elem => (0 <? check_errors_size (check_response_ elem),
                HasPendingCheckRequest elem))
  <$> lookup_elem (md5 := plain_digest) example_request
        (run_calls (md5 := plain_digest) example_aggregator
           [CallCacheResponse example_request pass_response 0;
            CallCheck example_request 10 10;
            CallCacheResponse example_request error_response 20])
  = Some (true, true).
Proof. vm_compute. reflexivity. Qed.

(** *** A cached response answers the next check *)

Section RoundTrip.
Context `{md5 : MD5}.

Lemma Check_passed request now now' agg elem :
  cacheable request agg ->
  lookup_elem request agg = Some elem ->
  ~ denied elem ->
  Check request now now' agg =
    if ShouldFlush now agg elem
    then (NOT_FOUND, None,
          set_cache
            (Release (GenerateCheckRequestSignature request)
                     (set_last_check_time now'
                        (set_is_flushing true (Aggregate request (metric_kinds_ agg) elem)))
                     now <$> cache_ agg) agg,
          [])
    else (OK, Some (check_response_ elem),
          set_cache (Release (GenerateCheckRequestSignature request)
                             (Aggregate request (metric_kinds_ agg) elem) now
                     <$> cache_ agg) agg,
          []).
Proof.
  intros (Hn & Ho & Hi) Hl Hd. unfold lookup_elem in Hl.
  destruct (cache_ agg) as [cache|] eqn:Hc; [|discriminate]. cbn in Hl.
  unfold Check. rewrite Hn, String.eqb_refl, Ho, Hi, Hc. cbn [negb orb].
  rewrite bool_decide_eq_true_2 by done.
  rewrite bool_decide_eq_true_2 by eauto. cbn [negb orb].
  rewrite Hl. unfold denied in Hd. rewrite (proj2 (Z.ltb_ge _ _)) by lia.
  assert (Hlast : last_check_time_ (Aggregate request (metric_kinds_ agg) elem)
                  = last_check_time_ elem)
    by (unfold Aggregate; by destruct (operation_aggregator_ elem)).
  assert (Hresp : check_response_ (Aggregate request (metric_kinds_ agg) elem)
                  = check_response_ elem)
    by (unfold Aggregate; by destruct (operation_aggregator_ elem)).
  unfold ShouldFlush. rewrite Hlast, Hresp.
  cbn [fmap option_fmap option_map].
  destruct (_ <=? _); unfold flush_items; reflexivity.
Qed.

(** The entry [CacheResponse] leaves for the request: the response,
    stamped with the clock reading, on top of the pending aggregator of an
    entry that was there. *)
Lemma CacheResponse_lookup request response now agg cache :
  cache_ agg = Some cache -> 0 < max_entries cache ->
  exists elem,
    lookup_elem request (CacheResponse request response now agg).1.2 = Some elem /\
    check_response_ elem = response /\ last_check_time_ elem = now /\
    is_flushing_ elem = false /\
    operation_aggregator_ elem
    = lookup_elem request agg ≫= operation_aggregator_.
Proof.
  intros Hc Hcap. unfold CacheResponse, lookup_elem. rewrite Hc. cbn [mbind option_bind].
  destruct (Lookup (GenerateCheckRequestSignature request) cache) as [elem|] eqn:Hl.
  - cbn [fst snd set_cache cache_ mbind option_bind]. eexists. split.
    + eapply Lookup_Release. exact Hl.
    + done.
  - destruct (Insert _ _ now cache) as [cache' removed] eqn:Hi.
    cbn [fst snd set_cache cache_ mbind option_bind]. eexists. split.
    + replace cache' with (Insert (GenerateCheckRequestSignature request)
                                  (new_CacheElem response now 0) now cache).1
        by (by rewrite Hi).
      by apply Lookup_Insert.
    + done.
Qed.

(** A response that was cached for a request answers the next [Check] of
    the request, as long as the age of the entry stays below the flush
    interval: [Check] returns [OK] with that response and calls no flush
    callback. *)
Theorem CacheResponse_Check request response now agg cache t t' :
  cacheable request agg ->
  cache_ agg = Some cache -> 0 < max_entries cache ->
  wrap64 (t - now) < flush_interval_in_cycle_ agg ->
  exists agg',
    Check request t t' (CacheResponse request response now agg).1.2
    = (OK, Some response, agg', []).
Proof.
  intros Hcb Hc Hcap Hage.
  destruct (CacheResponse_lookup request response now agg cache Hc Hcap)
    as (elem & Hl & Hr & Ht & _).
  set (agg1 := (CacheResponse request response now agg).1.2) in *.
  assert (Hagg1 : service_name_ agg1 = service_name_ agg /\
                  flush_interval_in_cycle_ agg1 = flush_interval_in_cycle_ agg /\
                  metric_kinds_ agg1 = metric_kinds_ agg).
  { unfold agg1, CacheResponse. rewrite Hc.
    destruct (Lookup _ cache); [done|]. by destruct (Insert _ _ now cache). }
  destruct Hagg1 as (Hn & Hf & Hk).
  assert (Hcb1 : cacheable request agg1).
  { destruct Hcb as (H1 & H2 & H3). repeat split; [congruence|done|done]. }
  assert (Hfresh : ShouldFlush t agg1 elem = false).
  { unfold ShouldFlush. rewrite Ht, Hf. by apply Z.leb_gt. }
  destruct (decide (denied elem)) as [Hd|Hd].
  - rewrite (Check_denied request t t' agg1 elem Hcb1 Hl Hd), Hfresh, Hr. eauto.
  - rewrite (Check_passed request t t' agg1 elem Hcb1 Hl Hd), Hfresh, Hr. eauto.
Qed.

End RoundTrip.

Lemma CacheResponse_Check_witness :
  exists agg',
    Check (md5 := plain_digest) example_request 50 50
      (CacheResponse (md5 := plain_digest) example_request pass_response 0
                     example_aggregator).1.2
    = (OK, Some pass_response, agg', []).
Proof.
  destruct (cache_ example_aggregator) as [cache|] eqn:E;
    [|vm_compute in E; discriminate].
  apply (CacheResponse_Check (md5 := plain_digest) example_request pass_response 0
           example_aggregator cache 50 50).
  - repeat split.
  - exact E.
  - vm_compute in E. injection E as <-. reflexivity.
  - vm_compute. reflexivity.
Defined.

End CheckAggregatorImpl.

(** ** The report aggregator ([src/report_aggregator_impl.cc]) *)

Module ReportAggregatorImpl.
Import Int Proto Signature SimpleLRUCache CacheRemovedItemsHandler.

(** [ReportAggregationOptions] ([include/aggregation_options.h]) *)
Record ReportAggregationOptions : Set := mkReportAggregationOptions {
  num_entries : Z;
  flush_interval_ms : Z
}.

(** A report can carry many operations, merge multiple report requests
    into one report request until its number of operations reach this
    limit. *)
Definition kMaxOperationsToSend : Z := 100.

(** [operations().size()] *)
Definition operations_size (request : ReportRequest) : Z :=
  Z.of_nat (length (operations request)).

(** Returns whether the given report request has high value operations. *)
Definition HasHighImportantOperation (request : ReportRequest) : bool :=
  existsb (fun operation => negb (bool_decide (importance operation = LOW)))
          (operations request).

Record ReportAggregatorImpl : Type := mkReportAggregatorImpl {
  service_name_ : string;
  service_config_id_ : string;
  options_ : ReportAggregationOptions;
  metric_kinds_ : option (gmap string MetricKind);
  (* Null when caching is disabled. *)
  cache_ : option (Cache OperationAggregator.OperationAggregator);
  (* Whether a flush callback is set. *)
  flush_callback_ : bool
}.

Definition set_cache (c : option (Cache OperationAggregator.OperationAggregator))
    (agg : ReportAggregatorImpl) : ReportAggregatorImpl :=
  mkReportAggregatorImpl (service_name_ agg) (service_config_id_ agg) (options_ agg)
                         (metric_kinds_ agg) c (flush_callback_ agg).

(** [old_item->MergeFrom(new_item)] on report requests: a non-empty string
    field of the source replaces the field, repeated fields are appended. *)
Definition MergeFrom (from into : ReportRequest) : ReportRequest :=
  mkReportRequest
    (if String.eqb (rq_service_name from) "" then rq_service_name into
     else rq_service_name from)
    (if String.eqb (service_config_id from) "" then service_config_id into
     else service_config_id from)
    (operations into ++ operations from).

Definition MergeItem (new_item old_item : ReportRequest) : bool * ReportRequest :=
  if negb (String.eqb (rq_service_name old_item) (rq_service_name new_item))
     || (kMaxOperationsToSend
         <? wrap32 (operations_size old_item + operations_size new_item))
  then (false, old_item)
  else (true, MergeFrom new_item old_item).

Section WithDigest.
Context `{md5 : MD5}.

(** [SimpleCycleTimer::Frequency()], cycles per second. *)
Variable Frequency : Z.

(** The constructor; no flush callback is set. *)
Definition new_ReportAggregatorImpl (service_name service_config_id : string)
    (options : ReportAggregationOptions)
    (metric_kinds : option (gmap string MetricKind)) : ReportAggregatorImpl :=
  mkReportAggregatorImpl
    service_name service_config_id options metric_kinds
    (if 0 <? num_entries options
     then Some (SetAgeBasedEviction
                  (Z.quot (wrap64 (flush_interval_ms options * Frequency)) 1000)
                  (new_Cache (num_entries options)))
     else None)
    false.

Definition SetFlushCallback (callback : bool) (agg : ReportAggregatorImpl)
  : ReportAggregatorImpl :=
  mkReportAggregatorImpl (service_name_ agg) (service_config_id_ agg) (options_ agg)
                         (metric_kinds_ agg) (cache_ agg) callback.

(** [OnCacheEntryDelete], on the buffer of the running operation. *)
Definition OnCacheEntryDelete (agg : ReportAggregatorImpl)
    (iop : OperationAggregator.OperationAggregator)
    (stack_buffer : list ReportRequest) : list ReportRequest :=
  let request :=
    mkReportRequest (service_name_ agg) (service_config_id_ agg)
                    [OperationAggregator.ToOperationProto iop] in
  AddRemovedItem MergeItem request stack_buffer.

Definition delete_entries (agg : ReportAggregatorImpl)
    (removed : list OperationAggregator.OperationAggregator)
    (stack_buffer : list ReportRequest) : list ReportRequest :=
  fold_left (fun buffer iop => OnCacheEntryDelete agg iop buffer)
            removed stack_buffer.

(** One round of the loop of [Report], on the cache and the buffer. *)
Definition report_operation (agg : ReportAggregatorImpl) (now : Z)
    (state : Cache OperationAggregator.OperationAggregator * list ReportRequest)
    (operation : Operation)
  : Cache OperationAggregator.OperationAggregator * list ReportRequest :=
  let '(cache, stack_buffer) := state in
  let signature := GenerateReportOperationSignature operation in
  match Lookup signature cache with
  | Some iop =>
      (Release signature (OperationAggregator.MergeOperation operation iop) now cache,
       stack_buffer)
  | None =>
      let iop :=
        OperationAggregator.new_OperationAggregator operation (metric_kinds_ agg) in
      let '(cache, removed) := Insert signature iop now cache in
      (cache, delete_entries agg removed stack_buffer)
  end.

(** [Report(request)]: the status, the aggregator after the call and the
    requests the flush callback was called with. *)
Definition Report (request : ReportRequest) (now : Z) (agg : ReportAggregatorImpl)
  : Code * ReportAggregatorImpl * list ReportRequest :=
  if negb (String.eqb (rq_service_name request) (service_name_ agg)) then
    (INVALID_ARGUMENT, agg, [])
  else if HasHighImportantOperation request
          || negb (bool_decide (is_Some (cache_ agg))) then
    (* By returning NOT_FOUND, caller will send request to server. *)
    (NOT_FOUND, agg, [])
  else
    match cache_ agg with
    | None => (NOT_FOUND, agg, [])
    | Some cache =>
        let '(cache, stack_buffer) :=
          fold_left (report_operation agg now) (operations request) (cache, []) in
        (OK, set_cache (Some cache) agg,
         flush_items (flush_callback_ agg) stack_buffer)
    end.

(** When the next [Flush()] should be called. *)
Definition GetNextFlushInterval (agg : ReportAggregatorImpl) : Z :=
  match cache_ agg with
  | None => -1
  | Some _ => flush_interval_ms (options_ agg)
  end.

Definition Flush (now : Z) (agg : ReportAggregatorImpl)
  : Code * ReportAggregatorImpl * list ReportRequest :=
  match cache_ agg with
  | Some cache =>
      let '(cache, removed) := RemoveExpiredEntries now cache in
      (OK, set_cache (Some cache) agg,
       flush_items (flush_callback_ agg) (delete_entries agg removed []))
  | None => (OK, agg, [])
  end.

Definition FlushAll (agg : ReportAggregatorImpl)
  : Code * ReportAggregatorImpl * list ReportRequest :=
  match cache_ agg with
  | Some cache =>
      let '(cache, removed) := RemoveAll cache in
      (OK, set_cache (Some cache) agg,
       flush_items (flush_callback_ agg) (delete_entries agg removed []))
  | None => (OK, agg, [])
  end.

(** The destructor: no callback is called. *)
Definition delete_ReportAggregatorImpl (agg : ReportAggregatorImpl)
  : ReportAggregatorImpl * list ReportRequest :=
  let agg := SetFlushCallback false agg in
  let '(_, agg, flushed) := FlushAll agg in
  (agg, flushed).

End WithDigest.

(** *** Properties *)

(** A request of at most a hundred operations. *)
Definition small (request : ReportRequest) : Prop :=
  operations_size request <= kMaxOperationsToSend.

Lemma MergeItem_merges new_item old_item :
  in_int32 (operations_size old_item + operations_size new_item) ->
  (MergeItem new_item old_item).1 = true <->
  rq_service_name old_item = rq_service_name new_item /\
  operations_size old_item + operations_size new_item <= kMaxOperationsToSend.
Proof.
  intros Hr. unfold MergeItem. rewrite (wrap32_id _ Hr).
  destruct (String.eqb_spec (rq_service_name old_item) (rq_service_name new_item))
    as [E|E]; cbn [negb orb].
  - destruct (Z.ltb_spec kMaxOperationsToSend
                (operations_size old_item + operations_size new_item)); cbn [fst].
    + split; [discriminate|]. intros [_ ?]. lia.
    + split; [|reflexivity]. intros _. split; [exact E|lia].
  - cbn [fst]. split; [discriminate|]. intros [? _]. contradiction.
Qed.

Lemma MergeItem_result new_item old_item :
  MergeItem new_item old_item =
  if (MergeItem new_item old_item).1 then (true, MergeFrom new_item old_item)
  else (false, old_item).
Proof. unfold MergeItem. by destruct (_ || _). Qed.

Lemma Add_MergeItem item items :
  Add MergeItem item items =
  match last items with
  | None => [item]
  | Some old_item =>
      if (MergeItem item old_item).1
      then removelast items ++ [MergeFrom item old_item]
      else items ++ [item]
  end.
Proof.
  unfold Add. destruct (last items) as [old_item|] eqn:E.
  - rewrite (MergeItem_result item old_item).
    by destruct (MergeItem item old_item).1.
  - apply last_None in E. by subst.
Qed.

(** The tail [MergeItem] leaves when it merges, field by field. *)
Lemma MergeItem_merged new_item old_item :
  (MergeItem new_item old_item).1 = true ->
  MergeFrom new_item old_item
  = mkReportRequest
      (rq_service_name old_item)
      (if String.eqb (service_config_id new_item) ""
       then service_config_id old_item
       else service_config_id new_item)
      (operations old_item ++ operations new_item).
Proof.
  unfold MergeItem, MergeFrom.
  destruct (String.eqb_spec (rq_service_name old_item) (rq_service_name new_item))
    as [E|E]; cbn [negb orb]; [|discriminate].
  intros _. rewrite <- E. by destruct (String.eqb (rq_service_name old_item) "").
Qed.

Lemma Add_MergeItem_merged item items :
  Add MergeItem item items =
  match last items with
  | None => [item]
  | Some old_item =>
      if (MergeItem item old_item).1
      then removelast items
           ++ [mkReportRequest
                 (rq_service_name old_item)
                 (if String.eqb (service_config_id item) ""
                  then service_config_id old_item
                  else service_config_id item)
                 (operations old_item ++ operations item)]
      else items ++ [item]
  end.
Proof.
  rewrite Add_MergeItem. destruct (last items) as [old_item|]; [|reflexivity].
  destruct (MergeItem item old_item).1 eqn:Hm; [|reflexivity].
  by rewrite (MergeItem_merged item old_item Hm).
Qed.

(** The buffer loses no operation and keeps their order. *)
Lemma Add_MergeItem_operations item items :
  Add MergeItem item items ≫= operations
  = (items ≫= operations) ++ operations item.
Proof.
  rewrite Add_MergeItem_merged. destruct (last items) as [old_item|] eqn:E.
  - apply last_Some in E as [l' ->].
    destruct (MergeItem item old_item).1.
    + rewrite removelast_last, !bind_app, !bind_singleton. cbn [operations].
      by rewrite app_assoc.
    + by rewrite bind_app, bind_singleton.
  - apply last_None in E. subst. by rewrite bind_singleton.
Qed.

Lemma operations_size_nonneg request : 0 <= operations_size request.
Proof. unfold operations_size. lia. Qed.

Lemma Forall_removelast {A} (P : A -> Prop) l : Forall P l -> Forall P (removelast l).
Proof.
  induction 1 as [|x l Hx Hl IH]; [constructor|].
  cbn. destruct l; [constructor|]. constructor; assumption.
Qed.

Lemma Add_small item items :
  small item -> Forall small items -> Forall small (Add MergeItem item items).
Proof.
  intros Hi Hs. rewrite Add_MergeItem.
  destruct (last items) as [old_item|] eqn:E.
  - assert (Hold : small old_item).
    { apply last_Some in E as [l' ->]. apply Forall_app in Hs as [_ Hs].
      by inversion Hs. }
    destruct (MergeItem item old_item).1 eqn:Hm.
    + apply Forall_app. split; [by apply Forall_removelast|].
      apply Forall_cons; split; [|constructor].
      apply MergeItem_merges in Hm as [_ Hm].
      * unfold small, operations_size, MergeFrom in *. cbn [operations].
        rewrite length_app. lia.
      * pose proof (operations_size_nonneg item).
        pose proof (operations_size_nonneg old_item).
        unfold small, kMaxOperationsToSend, in_int32, INT32_MIN, INT32_MAX in *. lia.
    + apply Forall_app. split; [exact Hs|]. by repeat constructor.
  - by repeat constructor.
Qed.

Lemma flush_items_small cb items :
  Forall small items -> Forall small (flush_items cb items).
Proof.
  intros H. destruct cb.
  - by rewrite flush_items_callback.
  - rewrite flush_items_no_callback. constructor.
Qed.

Section Small.
Context `{md5 : MD5}.

Lemma OnCacheEntryDelete_small agg iop buffer :
  Forall small buffer -> Forall small (OnCacheEntryDelete agg iop buffer).
Proof.
  intros H. unfold OnCacheEntryDelete, AddRemovedItem. apply Add_small; [|exact H].
  unfold small, operations_size, kMaxOperationsToSend. cbn. lia.
Qed.

Lemma delete_entries_small agg removed buffer :
  Forall small buffer -> Forall small (delete_entries agg removed buffer).
Proof.
  revert buffer. unfold delete_entries.
  induction removed as [|iop removed IH]; intros buffer H; [exact H|].
  cbn [fold_left]. apply IH. by apply OnCacheEntryDelete_small.
Qed.

Lemma report_operation_small agg now state operation :
  Forall small state.2 -> Forall small (report_operation agg now state operation).2.
Proof.
  destruct state as [cache buffer]. cbn [snd]. intros H. unfold report_operation.
  destruct (Lookup _ cache); [exact H|].
  destruct (Insert _ _ now cache) as [cache' removed]. cbn [snd].
  by apply delete_entries_small.
Qed.

Lemma Report_small request now agg : Forall small (Report request now agg).2.
Proof.
  unfold Report.
  destruct (negb (String.eqb _ _)); [constructor|].
  destruct (_ || _); [constructor|].
  destruct (cache_ agg) as [cache|]; [|constructor].
  assert (H : Forall small
    (fold_left (report_operation agg now) (operations request) (cache, [])).2).
  { generalize (operations request) as ops.
    assert (H0 : Forall small (cache, @nil ReportRequest).2) by constructor.
    revert H0. generalize (cache, @nil ReportRequest) as state.
    intros state H0 ops. revert state H0.
    induction ops as [|op ops IH]; intros state H0; [exact H0|].
    cbn [fold_left]. apply IH. by apply report_operation_small. }
  destruct (fold_left _ _ _) as [cache' buffer]. cbn [snd] in *.
  by apply flush_items_small.
Qed.

Lemma Flush_small now agg : Forall small (Flush now agg).2.
Proof.
  unfold Flush. destruct (cache_ agg) as [cache|]; [|constructor].
  destruct (RemoveExpiredEntries now cache) as [cache' removed]. cbn [snd].
  apply flush_items_small, delete_entries_small. constructor.
Qed.

Lemma FlushAll_small agg : Forall small (FlushAll agg).2.
Proof.
  unfold FlushAll. destruct (cache_ agg) as [cache|]; [|constructor].
  destruct (RemoveAll cache) as [cache' removed]. cbn [snd].
  apply flush_items_small, delete_entries_small. constructor.
Qed.

End Small.

Lemma Add_MergeItem_default {R} (item : R) items :
  Add MergeItem_default item items = items ++ [item].
Proof. unfold Add, MergeItem_default. by destruct (last items). Qed.

(** What [Report] does not take to the cache: a request of another
    service is refused with [INVALID_ARGUMENT]; a request with an
    operation that is not of low importance, and any request when caching
    is disabled, get [NOT_FOUND]. The aggregator stays as it was and no
    flush callback is called. *)
Theorem Report_not_cached `{md5 : MD5} request now agg :
  (rq_service_name request <> service_name_ agg ->
   Report request now agg = (INVALID_ARGUMENT, agg, [])) /\
  (rq_service_name request = service_name_ agg ->
   HasHighImportantOperation request = true \/ cache_ agg = None ->
   Report request now agg = (NOT_FOUND, agg, [])).
Proof.
  unfold Report. split.
  - intros Hne. by destruct (String.eqb_spec (rq_service_name request) (service_name_ agg)).
  - intros -> Hcase. rewrite String.eqb_refl. cbn [negb].
    destruct Hcase as [->|Hc]; [reflexivity|]. rewrite Hc.
    rewrite bool_decide_eq_false_2 by (intros [? ?]; discriminate).
    by rewrite orb_true_r.
Qed.

(** The destructor of the report aggregator calls no flush callback and
    leaves no entry, whatever the cache holds. *)
Theorem delete_ReportAggregatorImpl_silent agg :
  (delete_ReportAggregatorImpl agg).2 = [] /\
  values <$> cache_ (delete_ReportAggregatorImpl agg).1
    = (fun _ => []) <$> cache_ agg /\
  flush_callback_ (delete_ReportAggregatorImpl agg).1 = false.
Proof.
  unfold delete_ReportAggregatorImpl, FlushAll.
  destruct agg as [name config options kinds [cache|] callback]; cbn;
    rewrite ?flush_items_no_callback; repeat split.
Qed.

Section EvictionBuffer.
Context `{md5 : MD5}.

(** C8. [MergeItem] of the report aggregator merges the new request into
    the old one exactly when the service names are equal and the
    operations of both are at most 100 together (the sum taken within
    [int]); [Add] merges into the tail of the buffer when [MergeItem] does
    and appends otherwise (and to an empty buffer). The merged tail keeps
    its service name, takes the service config id of the new request
    unless that is empty, and holds its own operations followed by those
    of the new request; either way the buffer holds the operations it
    held, in order, followed by those of the new request. Hence every
    request that [Report], [Flush] or [FlushAll] of the report aggregator
    hands to the flush callback holds at most 100 operations. The buffer
    of the check aggregator keeps the [MergeItem] of the base class and
    always appends. *)
Theorem eviction_buffer_merge :
  (forall new_item old_item,
     in_int32 (operations_size old_item + operations_size new_item) ->
     (MergeItem new_item old_item).1 = true <->
     rq_service_name old_item = rq_service_name new_item /\
     operations_size old_item + operations_size new_item <= kMaxOperationsToSend) /\
  (forall item items,
     Add MergeItem item items =
     match last items with
     | None => [item]
     | Some old_item =>
         if (MergeItem item old_item).1
         then removelast items
              ++ [mkReportRequest
                    (rq_service_name old_item)
                    (if String.eqb (service_config_id item) ""
                     then service_config_id old_item
                     else service_config_id item)
                    (operations old_item ++ operations item)]
         else items ++ [item]
     end) /\
  (forall item items,
     Add MergeItem item items ≫= operations
     = (items ≫= operations) ++ operations item) /\
  (forall agg request now, Forall small (Report request now agg).2) /\
  (forall agg now, Forall small (Flush now agg).2) /\
  (forall agg, Forall small (FlushAll agg).2) /\
  (forall (item : CheckRequest) items,
     Add MergeItem_default item items = items ++ [item]) /\
  (forall agg elem buffer,
     CheckAggregatorImpl.OnCacheEntryDelete agg elem buffer =
     if CheckAggregatorImpl.HasPendingCheckRequest elem
     then buffer ++ [(CheckAggregatorImpl.ReturnCheckRequestAndClear
                        (CheckAggregatorImpl.service_name_ agg) elem).1]
     else buffer).
Proof.
  split; [exact MergeItem_merges|].
  split; [exact Add_MergeItem_merged|].
  split; [exact Add_MergeItem_operations|].
  split; [intros; apply Report_small|].
  split; [intros; apply Flush_small|].
  split; [intros; apply FlushAll_small|].
  split; [intros; apply Add_MergeItem_default|].
  intros agg elem buffer. unfold CheckAggregatorImpl.OnCacheEntryDelete.
  destruct (CheckAggregatorImpl.HasPendingCheckRequest elem); cbn [negb]; [|reflexivity].
  destruct (CheckAggregatorImpl.ReturnCheckRequestAndClear _ elem) as [request elem'].
  unfold AddRemovedItem. apply Add_MergeItem_default.
Qed.
End EvictionBuffer.

Definition one_operation : ReportRequest :=
  mkReportRequest "library.googleapis.com" "2016-09-19r0"
    [mkOperation "ListShelves" "project:p" None None ∅ [] [] LOW].

Definition urgent_operation : ReportRequest :=
  mkReportRequest "library.googleapis.com" "2016-09-19r0"
    [mkOperation "DeleteShelf" "project:p" None None ∅ [] [] HIGH].

Definition example_aggregator : ReportAggregatorImpl :=
  new_ReportAggregatorImpl 1000 "library.googleapis.com" "2016-09-19r0"
    (mkReportAggregationOptions 10 1000) None.

Lemma Report_not_cached_witness :
  Report (md5 := plain_digest) urgent_operation 0 example_aggregator
  = (NOT_FOUND, example_aggregator, []).
Proof.
  refine (proj2 (Report_not_cached (md5 := plain_digest) urgent_operation 0
                   example_aggregator) _ _).
  - reflexivity.
  - left. reflexivity.
Defined.

(** An evicted request of one operation goes into a tail of one
    operation of the same service: the buffer holds one request of the two
    operations. *)
Lemma eviction_buffer_merge_witness :
  (MergeItem urgent_operation one_operation).1 = true /\
  Add MergeItem urgent_operation [one_operation]
  = [mkReportRequest "library.googleapis.com" "2016-09-19r0"
       (operations one_operation ++ operations urgent_operation)].
Proof.
  assert (Hm : (MergeItem urgent_operation one_operation).1 = true).
  { apply (proj1 (eviction_buffer_merge (md5 := plain_digest))
                 urgent_operation one_operation).
    - vm_compute. split; discriminate.
    - split; [reflexivity|]. vm_compute. discriminate. }
  split; [exact Hm|].
  rewrite (proj1 (proj2 (eviction_buffer_merge (md5 := plain_digest)))
             urgent_operation [one_operation]).
  cbn [last]. rewrite Hm. reflexivity.
Defined.

(** *** No log entry is lost or sent twice *)

(** The log entries of report requests, and those the cache holds. *)
Definition logs_of (requests : list ReportRequest) : list LogEntry :=
  requests ≫= (fun request => operations request ≫= log_entries).

Definition cached_logs (agg : ReportAggregatorImpl) : list LogEntry :=
  match cache_ agg with
  | Some cache =>
      values cache ≫= (fun iop => log_entries (OperationAggregator.operation_ iop))
  | None => []
  end.

(** The calls a report aggregator receives. *)
Inductive Call : Type :=
| CallReport (request : ReportRequest) (now : Z)
| CallFlush (now : Z)
| CallFlushAll.

(** The aggregator, the requests handed to the flush callback and the
    requests [Report] took ([OK]) so far. *)
Record Run : Type := mkRun {
  aggregator : ReportAggregatorImpl;
  sent : list ReportRequest;
  taken : list ReportRequest
}.

Section Conservation.
Context `{md5 : MD5}.

Definition run_call (run : Run) (call : Call) : Run :=
  match call with
  | CallReport request now =>
      let '(status, agg, flushed) := Report request now (aggregator run) in
      mkRun agg (sent run ++ flushed)
            (if bool_decide (status = OK) then taken run ++ [request] else taken run)
  | CallFlush now =>
      let '(_, agg, flushed) := Flush now (aggregator run) in
      mkRun agg (sent run ++ flushed) (taken run)
  | CallFlushAll =>
      let '(_, agg, flushed) := FlushAll (aggregator run) in
      mkRun agg (sent run ++ flushed) (taken run)
  end.

Definition run_calls (agg : ReportAggregatorImpl) (calls : list Call) : Run :=
  fold_left run_call calls (mkRun agg [] []).

Lemma logs_of_app l1 l2 : logs_of (l1 ++ l2) = logs_of l1 ++ logs_of l2.
Proof. unfold logs_of. by rewrite bind_app. Qed.

Lemma logs_of_singleton request :
  logs_of [request] = operations request ≫= log_entries.
Proof. unfold logs_of. by rewrite bind_singleton. Qed.

Lemma logs_of_Add item items :
  logs_of (Add MergeItem item items) = logs_of items ++ logs_of [item].
Proof.
  rewrite Add_MergeItem. destruct (last items) as [old_item|] eqn:E.
  - destruct (MergeItem item old_item).1.
    + apply last_Some in E as [l' ->]. rewrite removelast_last, !logs_of_app.
      rewrite <- app_assoc. f_equal. unfold logs_of, MergeFrom.
      rewrite !bind_singleton. cbn [operations]. by rewrite bind_app.
    + by rewrite logs_of_app.
  - apply last_None in E. by subst.
Qed.

Lemma logs_of_delete_entries agg removed buffer :
  logs_of (delete_entries agg removed buffer)
  = logs_of buffer
    ++ removed ≫= (fun iop => log_entries (OperationAggregator.operation_ iop)).
Proof.
  revert buffer. unfold delete_entries.
  induction removed as [|iop removed IH]; intros buffer.
  - cbn. by rewrite app_nil_r.
  - cbn [fold_left]. rewrite IH. unfold OnCacheEntryDelete, AddRemovedItem.
    rewrite logs_of_Add, bind_cons, <- app_assoc. f_equal. f_equal.
    unfold logs_of. rewrite bind_singleton. cbn [operations].
    rewrite bind_singleton. reflexivity.
Qed.

(** The cache holds no two entries of one key, every request buffered or
    sent went to the callback, and the log entries sent and cached are the
    log entries taken. *)
Definition conserved (run : Run) : Prop :=
  flush_callback_ (aggregator run) = true /\
  (forall cache, cache_ (aggregator run) = Some cache -> NoDup (keys cache)) /\
  logs_of (sent run) ++ cached_logs (aggregator run) ≡ₚ logs_of (taken run).

Definition cache_logs (cache : Cache OperationAggregator.OperationAggregator)
  : list LogEntry :=
  values cache ≫= (fun iop => log_entries (OperationAggregator.operation_ iop)).

Lemma report_operation_conserved agg now cache buffer operation :
  NoDup (keys cache) ->
  NoDup (keys (report_operation agg now (cache, buffer) operation).1) /\
  logs_of (report_operation agg now (cache, buffer) operation).2
  ++ cache_logs (report_operation agg now (cache, buffer) operation).1
  ≡ₚ logs_of buffer ++ cache_logs cache ++ log_entries operation.
Proof.
  intros Hnd. unfold report_operation, cache_logs.
  destruct (Lookup (GenerateReportOperationSignature operation) cache) as [iop|] eqn:Hl.
  - cbn [fst snd].
    destruct (Release_contents (GenerateReportOperationSignature operation)
                (OperationAggregator.MergeOperation operation iop) iop now cache Hl Hnd)
      as (rest & P1 & P2 & P3).
    split; [exact P3|]. rewrite P1, P2, !bind_cons.
    apply Permutation_app_head.
    assert (E : log_entries (OperationAggregator.operation_
                               (OperationAggregator.MergeOperation operation iop))
                = log_entries (OperationAggregator.operation_ iop)
                  ++ log_entries operation).
    { by rewrite OperationAggregator.MergeOperation_fields. }
    rewrite E, <- !app_assoc. apply Permutation_app_head, Permutation_app_comm.
  - pose proof (Insert_contents (GenerateReportOperationSignature operation)
                  (OperationAggregator.new_OperationAggregator operation (metric_kinds_ agg))
                  now cache) as P.
    pose proof (Insert_keys (GenerateReportOperationSignature operation)
                  (OperationAggregator.new_OperationAggregator operation (metric_kinds_ agg))
                  now cache Hl Hnd) as K.
    destruct (Insert _ _ now cache) as [cache' removed]. cbn [fst snd] in *.
    split; [exact K|]. rewrite logs_of_delete_entries, <- app_assoc.
    apply Permutation_app_head.
    rewrite (Permutation_app_comm (removed ≫= _)), <- bind_app, P, bind_cons.
    cbn. apply Permutation_app_comm.
Qed.

Lemma fold_report_operation_conserved agg now ops cache buffer :
  NoDup (keys cache) ->
  NoDup (keys (fold_left (report_operation agg now) ops (cache, buffer)).1) /\
  logs_of (fold_left (report_operation agg now) ops (cache, buffer)).2
  ++ cache_logs (fold_left (report_operation agg now) ops (cache, buffer)).1
  ≡ₚ logs_of buffer ++ cache_logs cache ++ ops ≫= log_entries.
Proof.
  revert cache buffer. induction ops as [|op ops IH]; intros cache buffer Hnd.
  - cbn [fold_left fst snd]. split; [exact Hnd|]. cbn. by rewrite app_nil_r.
  - cbn [fold_left].
    destruct (report_operation_conserved agg now cache buffer op Hnd) as [K P].
    destruct (report_operation agg now (cache, buffer) op) as [cache1 buffer1].
    cbn [fst snd] in *. destruct (IH cache1 buffer1 K) as [K' P'].
    split; [exact K'|]. rewrite P', bind_cons, !app_assoc.
    apply Permutation_app_tail. by rewrite <- !app_assoc.
Qed.

Lemma run_call_conserved run call : conserved run -> conserved (run_call run call).
Proof.
  intros (Hcb & Hnd & Hlogs). unfold conserved, cached_logs in *.
  destruct call as [request now|now|]; cbn [run_call].
  - unfold Report.
    destruct (negb (String.eqb _ _));
      [cbn; rewrite app_nil_r; done|].
    destruct (_ || _); [cbn; rewrite app_nil_r; done|].
    destruct (cache_ (aggregator run)) as [cache|] eqn:Hc;
      [|cbn; rewrite app_nil_r, Hc; done].
    destruct (fold_report_operation_conserved (aggregator run) now (operations request)
                cache [] (Hnd cache eq_refl)) as [K P].
    destruct (fold_left _ _ _) as [cache' buffer]. cbn [fst snd] in *.
    rewrite Hcb, flush_items_callback.
    cbn [aggregator sent taken set_cache cache_ flush_callback_].
    split; [done|]. split; [by intros ? [= <-]|].
    rewrite bool_decide_eq_true_2 by done.
    rewrite !logs_of_app, <- app_assoc, P, <- Hlogs.
    rewrite logs_of_singleton. change (logs_of []) with (@nil LogEntry).
    unfold cache_logs. cbn [app]. by rewrite <- !app_assoc.
  - unfold Flush. destruct (cache_ (aggregator run)) as [cache|] eqn:Hc;
      [|cbn; rewrite app_nil_r, Hc; done].
    destruct (RemoveExpiredEntries_contents now cache) as [P K].
    destruct (RemoveExpiredEntries now cache) as [cache' removed]. cbn [fst snd] in *.
    rewrite Hcb, flush_items_callback.
    cbn [aggregator sent taken set_cache cache_ flush_callback_].
    split; [done|]. split; [intros ? [= <-]; by apply K, Hnd|].
    rewrite logs_of_app, logs_of_delete_entries, <- Hlogs, <- app_assoc.
    apply Permutation_app_head. cbn [logs_of app].
    change (logs_of []) with (@nil LogEntry). cbn [app].
    by rewrite (Permutation_app_comm (removed ≫= _)), <- bind_app, P.
  - unfold FlushAll. destruct (cache_ (aggregator run)) as [cache|] eqn:Hc;
      [|cbn; rewrite app_nil_r, Hc; done].
    pose proof (RemoveAll_contents cache) as P. unfold RemoveAll in *. cbn [fst snd] in *.
    rewrite Hcb, flush_items_callback.
    cbn [aggregator sent taken set_cache cache_ flush_callback_].
    split; [done|]. split; [intros ? [= <-]; constructor|].
    rewrite logs_of_app, logs_of_delete_entries, <- Hlogs.
    cbn. change (logs_of []) with (@nil LogEntry). cbn [app].
    rewrite app_nil_r. apply Permutation_app_head. by rewrite P.
Qed.

Lemma run_calls_conserved agg calls :
  flush_callback_ agg = true ->
  (forall cache, cache_ agg = Some cache -> entries cache = []) ->
  conserved (run_calls agg calls).
Proof.
  intros Hcb Hempty. unfold run_calls.
  assert (H0 : conserved (mkRun agg [] [])).
  { unfold conserved, cached_logs. cbn. split; [done|]. split.
    - intros cache Hc. unfold keys. rewrite (Hempty cache Hc). constructor.
    - destruct (cache_ agg) as [cache|] eqn:Hc; [|done].
      unfold values. by rewrite (Hempty cache eq_refl). }
  revert H0. generalize (mkRun agg [] []).
  induction calls as [|call calls IH]; intros run Hrun; [exact Hrun|].
  cbn [fold_left]. by apply IH, run_call_conserved.
Qed.

(** No log entry is lost or sent twice. A new report aggregator with its
    flush callback set, after any calls of [Report], [Flush] and
    [FlushAll] and a last [FlushAll], has handed to the flush callback
    the log entries of the requests [Report] took ([OK]), each once, up
    to order. *)
Theorem report_logs_conserved Frequency service_name service_config_id options kinds
    calls :
  logs_of
    (sent
       (run_calls
          (SetFlushCallback true
             (new_ReportAggregatorImpl Frequency service_name service_config_id
                                       options kinds))
          (calls ++ [CallFlushAll])))
  ≡ₚ logs_of
       (taken
          (run_calls
             (SetFlushCallback true
                (new_ReportAggregatorImpl Frequency service_name service_config_id
                                          options kinds))
             (calls ++ [CallFlushAll]))).
Proof.
  set (agg0 := SetFlushCallback true _).
  assert (H : conserved (run_calls agg0 calls)).
  { apply run_calls_conserved; [reflexivity|].
    unfold agg0, new_ReportAggregatorImpl. cbn.
    destruct (0 <? num_entries options); [|discriminate]. by intros ? [= <-]. }
  unfold run_calls in *. rewrite fold_left_app. cbn [fold_left].
  destruct (fold_left run_call calls (mkRun agg0 [] [])) as [agg sent0 taken0].
  destruct H as (Hcb & Hnd & Hlogs). cbn [aggregator sent taken] in *.
  unfold run_call, FlushAll. cbn [aggregator sent taken].
  unfold cached_logs in Hlogs.
  destruct (cache_ agg) as [cache|] eqn:Hc.
  - pose proof (RemoveAll_contents cache) as P. unfold RemoveAll in *. cbn [fst snd] in *.
    rewrite Hcb, flush_items_callback. cbn [sent taken].
    rewrite logs_of_app, logs_of_delete_entries, <- Hlogs.
    change (logs_of []) with (@nil LogEntry). cbn [app].
    apply Permutation_app_head. by rewrite P.
  - cbn [sent taken]. by rewrite app_nil_r, <- Hlogs, app_nil_r.
Qed.

End Conservation.

End ReportAggregatorImpl.

(** ** The client ([src/service_control_client_impl.cc]) *)

Module ServiceControlClientImpl.
Import Int Proto SimpleLRUCache CacheRemovedItemsHandler.

(** [ServiceControlClientOptions]: the transports and the timer factory
    are functions of the caller; the options say whether each is set. *)
Record ServiceControlClientOptions : Type := mkServiceControlClientOptions {
  check_options : CheckAggregatorImpl.CheckAggregationOptions;
  report_options : ReportAggregatorImpl.ReportAggregationOptions;
  metric_kinds : option (gmap string MetricKind);
  check_transport : bool;
  report_transport : bool;
  periodic_timer : bool
}.

(** The calls the client makes on its collaborators (the two aggregators,
    the transports, the timer) and on the completion callback of its
    caller, in the order it makes them. The completion callback a caller
    passes is taken to be set. *)
Inductive Event : Type :=
| CheckTransport (request : CheckRequest)
| ReportTransport (request : ReportRequest)
| CheckFlushAll
| ReportFlushAll
| CheckSetFlushCallback (callback : bool)
| ReportSetFlushCallback (callback : bool)
| StartTimer (interval_ms : Z)
| TimerStop
| OnDone (status : Code).

Record ServiceControlClientImpl : Type := mkServiceControlClientImpl {
  check_aggregator_ : CheckAggregatorImpl.CheckAggregatorImpl;
  report_aggregator_ : ReportAggregatorImpl.ReportAggregatorImpl;
  (* Whether the transports taken from the options are set. *)
  check_transport_ : bool;
  report_transport_ : bool;
  (* Whether a timer was created. *)
  flush_timer_ : bool;
  total_called_checks_ : Z;
  send_checks_by_flush_ : Z;
  send_checks_in_flight_ : Z;
  total_called_reports_ : Z;
  send_reports_by_flush_ : Z;
  send_reports_in_flight_ : Z;
  send_report_operations_ : Z
}.

Definition set_check_aggregator (a : CheckAggregatorImpl.CheckAggregatorImpl)
    (c : ServiceControlClientImpl) : ServiceControlClientImpl :=
  mkServiceControlClientImpl
    a (report_aggregator_ c) (check_transport_ c) (report_transport_ c) (flush_timer_ c)
    (total_called_checks_ c) (send_checks_by_flush_ c) (send_checks_in_flight_ c)
    (total_called_reports_ c) (send_reports_by_flush_ c) (send_reports_in_flight_ c)
    (send_report_operations_ c).

Definition set_report_aggregator (a : ReportAggregatorImpl.ReportAggregatorImpl)
    (c : ServiceControlClientImpl) : ServiceControlClientImpl :=
  mkServiceControlClientImpl
    (check_aggregator_ c) a (check_transport_ c) (report_transport_ c) (flush_timer_ c)
    (total_called_checks_ c) (send_checks_by_flush_ c) (send_checks_in_flight_ c)
    (total_called_reports_ c) (send_reports_by_flush_ c) (send_reports_in_flight_ c)
    (send_report_operations_ c).

(** [CheckFlushCallback]: the check transport of the options is called
    and the counter of checks sent by flush goes up. The transport is
    called without a test: when it is not set the call throws
    [std::bad_function_call] ([None]) and the counter is not touched. *)
Definition CheckFlushCallback (state : ServiceControlClientImpl * list Event)
    (check_request : CheckRequest) : option (ServiceControlClientImpl * list Event) :=
  let '(c, events) := state in
  if check_transport_ c then
    Some
      (mkServiceControlClientImpl
         (check_aggregator_ c) (report_aggregator_ c)
         (check_transport_ c) (report_transport_ c) (flush_timer_ c)
         (total_called_checks_ c) (wrap64 (send_checks_by_flush_ c + 1))
         (send_checks_in_flight_ c)
         (total_called_reports_ c) (send_reports_by_flush_ c)
         (send_reports_in_flight_ c) (send_report_operations_ c),
       events ++ [CheckTransport check_request])
  else None.

(** [ReportFlushCallback], likewise with the report transport of the
    options. *)
Definition ReportFlushCallback (state : ServiceControlClientImpl * list Event)
    (report_request : ReportRequest) : option (ServiceControlClientImpl * list Event) :=
  let '(c, events) := state in
  if report_transport_ c then
    Some
      (mkServiceControlClientImpl
         (check_aggregator_ c) (report_aggregator_ c)
         (check_transport_ c) (report_transport_ c) (flush_timer_ c)
         (total_called_checks_ c) (send_checks_by_flush_ c) (send_checks_in_flight_ c)
         (total_called_reports_ c) (wrap64 (send_reports_by_flush_ c + 1))
         (send_reports_in_flight_ c)
         (wrap64 (send_report_operations_ c
                  + ReportAggregatorImpl.operations_size report_request)),
       events ++ [ReportTransport report_request])
  else None.

(** The flush callback on the requests an aggregator flushes out, one
    after the other; an exception ends the run. *)
Fixpoint call_flush_callback {RequestType : Type}
    (callback : ServiceControlClientImpl * list Event -> RequestType ->
                option (ServiceControlClientImpl * list Event))
    (flushed : list RequestType) (state : ServiceControlClientImpl * list Event)
  : option (ServiceControlClientImpl * list Event) :=
  match flushed with
  | [] => Some state
  | request :: flushed =>
      state ← callback state request;
      call_flush_callback callback flushed state
  end.

Definition GetNextFlushInterval (c : ServiceControlClientImpl) : Z :=
  let check_interval := CheckAggregatorImpl.GetNextFlushInterval (check_aggregator_ c) in
  let report_interval :=
    ReportAggregatorImpl.GetNextFlushInterval (report_aggregator_ c) in
  if check_interval <? 0 then report_interval
  else if report_interval <? 0 then check_interval
  else Z.min check_interval report_interval.

Section WithDigest.
Context `{md5 : MD5}.

(** [SimpleCycleTimer::Frequency()], cycles per second. *)
Variable Frequency : Z.

(** The constructor. The factory of report aggregators it calls takes no
    service config id; the aggregator is built with an empty one. *)
Definition new_ServiceControlClientImpl (service_name : string)
    (options : ServiceControlClientOptions)
  : ServiceControlClientImpl * list Event :=
  let check_aggregator :=
    CheckAggregatorImpl.new_CheckAggregatorImpl
      Frequency service_name (check_options options) (metric_kinds options) in
  let report_aggregator :=
    ReportAggregatorImpl.new_ReportAggregatorImpl
      Frequency service_name "" (report_options options) (metric_kinds options) in
  let check_aggregator := CheckAggregatorImpl.SetFlushCallback true check_aggregator in
  let report_aggregator :=
    ReportAggregatorImpl.SetFlushCallback true report_aggregator in
  let c :=
    mkServiceControlClientImpl check_aggregator report_aggregator
                               (check_transport options) (report_transport options)
                               false 0 0 0 0 0 0 0 in
  let events := [CheckSetFlushCallback true; ReportSetFlushCallback true] in
  let flush_interval := GetNextFlushInterval c in
  if periodic_timer options && (0 <? flush_interval) then
    (mkServiceControlClientImpl check_aggregator report_aggregator
                                (check_transport options) (report_transport options)
                                true 0 0 0 0 0 0 0,
     events ++ [StartTimer flush_interval])
  else (c, events).

(** [Report(report_request, report_response, on_report_done,
    report_transport)]; [report_transport] says whether the transport
    passed is set, [now] is the clock reading of the call. The result is
    the client after the call and the calls made; [None] when a flush
    callback throws. *)
Definition Report (report_request : ReportRequest) (report_transport : bool)
    (now : Z) (c : ServiceControlClientImpl)
  : option (ServiceControlClientImpl * list Event) :=
  let c :=
    mkServiceControlClientImpl
      (check_aggregator_ c) (report_aggregator_ c)
      (check_transport_ c) (report_transport_ c) (flush_timer_ c)
      (total_called_checks_ c) (send_checks_by_flush_ c) (send_checks_in_flight_ c)
      (wrap64 (total_called_reports_ c + 1)) (send_reports_by_flush_ c)
      (send_reports_in_flight_ c) (send_report_operations_ c) in
  if negb report_transport then Some (c, [OnDone INVALID_ARGUMENT])
  else
    let '(status, aggregator, flushed) :=
      ReportAggregatorImpl.Report report_request now (report_aggregator_ c) in
    '(c, events) ←
      call_flush_callback ReportFlushCallback flushed
                          (set_report_aggregator aggregator c, []);
    if bool_decide (status = NOT_FOUND) then
      Some
        (mkServiceControlClientImpl
           (check_aggregator_ c) (report_aggregator_ c)
           (check_transport_ c) (report_transport_ c) (flush_timer_ c)
           (total_called_checks_ c) (send_checks_by_flush_ c)
           (send_checks_in_flight_ c)
           (total_called_reports_ c) (send_reports_by_flush_ c)
           (wrap64 (send_reports_in_flight_ c + 1))
           (wrap64 (send_report_operations_ c
                    + ReportAggregatorImpl.operations_size report_request)),
         events ++ [ReportTransport report_request])
    else Some (c, events ++ [OnDone status]).

(** [Report(report_request, report_response, on_report_done)]: with the
    report transport of the options. *)
Definition Report_stored (report_request : ReportRequest) (now : Z)
    (c : ServiceControlClientImpl)
  : option (ServiceControlClientImpl * list Event) :=
  Report report_request (report_transport_ c) now c.

(** [FlushAll()]: both caches, the check cache first; each request a
    cache flushes out goes through the flush callback of the client. *)
Definition FlushAll (c : ServiceControlClientImpl)
  : option (Code * ServiceControlClientImpl * list Event) :=
  let '(check_status, aggregator, flushed) :=
    CheckAggregatorImpl.FlushAll (check_aggregator_ c) in
  '(c, events) ←
    call_flush_callback CheckFlushCallback flushed
                        (set_check_aggregator aggregator c, [CheckFlushAll]);
  let '(report_status, aggregator, flushed) :=
    ReportAggregatorImpl.FlushAll (report_aggregator_ c) in
  '(c, events) ←
    call_flush_callback ReportFlushCallback flushed
                        (set_report_aggregator aggregator c, events ++ [ReportFlushAll]);
  Some (if negb (bool_decide (check_status = OK)) then check_status else report_status,
        c, events).

(** The destructor. *)
Definition delete_ServiceControlClientImpl (c : ServiceControlClientImpl)
  : option (ServiceControlClientImpl * list Event) :=
  (* Flush out all cached data *)
  '(_, c, events) ← FlushAll c;
  let events := if flush_timer_ c then events ++ [TimerStop] else events in
  (* Disconnects all callback functions since this object is going away. *)
  let c :=
    set_check_aggregator
      (CheckAggregatorImpl.SetFlushCallback false (check_aggregator_ c)) c in
  let events := events ++ [CheckSetFlushCallback false] in
  let c :=
    set_report_aggregator
      (ReportAggregatorImpl.SetFlushCallback false (report_aggregator_ c)) c in
  let events := events ++ [ReportSetFlushCallback false] in
  Some (c, events).

End WithDigest.

(** *** Checks, the timer and the statistics *)

Section Calls.
Context `{md5 : MD5}.

(** [Check(check_request, check_response, on_check_done,
    check_transport)]; [check_transport] says whether the transport passed
    is set, [now] is the clock reading of the lookup and [now'] the later
    reading an entry is stamped with. The result is the client after the
    call, the response written (if any) and the calls made; [None] when a
    flush callback throws. *)
Definition Check (check_request : CheckRequest) (check_transport : bool)
    (now now' : Z) (c : ServiceControlClientImpl)
  : option (ServiceControlClientImpl * option CheckResponse * list Event) :=
  let c :=
    mkServiceControlClientImpl
      (check_aggregator_ c) (report_aggregator_ c)
      (check_transport_ c) (report_transport_ c) (flush_timer_ c)
      (wrap64 (total_called_checks_ c + 1)) (send_checks_by_flush_ c)
      (send_checks_in_flight_ c)
      (total_called_reports_ c) (send_reports_by_flush_ c)
      (send_reports_in_flight_ c) (send_report_operations_ c) in
  if negb check_transport then Some (c, None, [OnDone INVALID_ARGUMENT])
  else
    let '(status, check_response, aggregator, flushed) :=
      CheckAggregatorImpl.Check check_request now now' (check_aggregator_ c) in
    '(c, events) ←
      call_flush_callback CheckFlushCallback flushed
                          (set_check_aggregator aggregator c, []);
    if bool_decide (status = NOT_FOUND) then
      Some
        (mkServiceControlClientImpl
           (check_aggregator_ c) (report_aggregator_ c)
           (check_transport_ c) (report_transport_ c) (flush_timer_ c)
           (total_called_checks_ c) (send_checks_by_flush_ c)
           (wrap64 (send_checks_in_flight_ c + 1))
           (total_called_reports_ c) (send_reports_by_flush_ c)
           (send_reports_in_flight_ c) (send_report_operations_ c),
         check_response, events ++ [CheckTransport check_request])
    else Some (c, check_response, events ++ [OnDone status]).

(** [Check(check_request, check_response, on_check_done)]: with the check
    transport of the options. *)
Definition Check_stored (check_request : CheckRequest) (now now' : Z)
    (c : ServiceControlClientImpl)
  : option (ServiceControlClientImpl * option CheckResponse * list Event) :=
  Check check_request (check_transport_ c) now now' c.

(** The completion [Check] hands to the transport, called by the
    transport with the status of the remote call once [check_response]
    holds the answer; [now] is the clock reading of [CacheResponse]. *)
Definition on_check_transport_done (check_request : CheckRequest)
    (check_response : CheckResponse) (status : Code) (now : Z)
    (c : ServiceControlClientImpl) : option (ServiceControlClientImpl * list Event) :=
  '(c, events) ←
    (if bool_decide (status = OK) then
       let '(_, aggregator, flushed) :=
         CheckAggregatorImpl.CacheResponse check_request check_response now
                                           (check_aggregator_ c) in
       call_flush_callback CheckFlushCallback flushed
                           (set_check_aggregator aggregator c, [])
     else Some (c, []));
  Some (c, events ++ [OnDone status]).

(** The function the constructor gives to the periodic timer: [Flush] on
    the check aggregator, then on the report aggregator. *)
Definition on_timer (now now' : Z) (c : ServiceControlClientImpl)
  : option (ServiceControlClientImpl * list Event) :=
  let '(_, aggregator, flushed) :=
    CheckAggregatorImpl.Flush now (check_aggregator_ c) in
  '(c, events) ←
    call_flush_callback CheckFlushCallback flushed
                        (set_check_aggregator aggregator c, []);
  let '(_, aggregator, flushed) :=
    ReportAggregatorImpl.Flush now' (report_aggregator_ c) in
  call_flush_callback ReportFlushCallback flushed
                      (set_report_aggregator aggregator c, events).

(** [Flush()] *)
Definition Flush (now now' : Z) (c : ServiceControlClientImpl)
  : option (Code * ServiceControlClientImpl * list Event) :=
  let '(check_status, aggregator, flushed) :=
    CheckAggregatorImpl.Flush now (check_aggregator_ c) in
  '(c, events) ←
    call_flush_callback CheckFlushCallback flushed
                        (set_check_aggregator aggregator c, []);
  let '(report_status, aggregator, flushed) :=
    ReportAggregatorImpl.Flush now' (report_aggregator_ c) in
  '(c, events) ←
    call_flush_callback ReportFlushCallback flushed
                        (set_report_aggregator aggregator c, events);
  Some (if negb (bool_decide (check_status = OK)) then check_status else report_status,
        c, events).

End Calls.

(** [Statistics]: the counters, read as [uint64_t]. *)
Record Statistics : Set := mkStatistics {
  total_called_checks : Z;
  send_checks_by_flush : Z;
  send_checks_in_flight : Z;
  total_called_reports : Z;
  send_reports_by_flush : Z;
  send_reports_in_flight : Z;
  send_report_operations : Z
}.

Definition uint64 (z : Z) : Z := z mod 2 ^ 64.

Definition GetStatistics (c : ServiceControlClientImpl) : Code * Statistics :=
  (OK,
   mkStatistics
     (uint64 (total_called_checks_ c)) (uint64 (send_checks_by_flush_ c))
     (uint64 (send_checks_in_flight_ c))
     (uint64 (total_called_reports_ c)) (uint64 (send_reports_by_flush_ c))
     (uint64 (send_reports_in_flight_ c)) (uint64 (send_report_operations_ c))).

(** *** Properties *)

(** The parts of the client that the flush callbacks leave alone. *)
Definition same_parts (c c' : ServiceControlClientImpl) : Prop :=
  check_aggregator_ c' = check_aggregator_ c /\
  report_aggregator_ c' = report_aggregator_ c /\
  check_transport_ c' = check_transport_ c /\
  report_transport_ c' = report_transport_ c /\
  flush_timer_ c' = flush_timer_ c.

Lemma same_parts_refl c : same_parts c c.
Proof. by repeat split. Qed.

Lemma same_parts_trans c c' c'' :
  same_parts c c' -> same_parts c' c'' -> same_parts c c''.
Proof.
  unfold same_parts. intros (H1 & H2 & H3 & H4 & H5) (G1 & G2 & G3 & G4 & G5).
  repeat split; congruence.
Qed.

(** The flush callback of checks returns on every request when the check
    transport is set, and then the transport was called with each request
    in order; it throws on the first request when the transport is not
    set. *)
Lemma call_CheckFlushCallback flushed c events :
  (check_transport_ c = true \/ flushed = [] ->
   exists c',
     call_flush_callback CheckFlushCallback flushed (c, events)
     = Some (c', events ++ (CheckTransport <$> flushed)) /\
     same_parts c c') /\
  (check_transport_ c = false -> flushed <> [] ->
   call_flush_callback CheckFlushCallback flushed (c, events) = None).
Proof.
  split.
  - revert c events. induction flushed as [|request flushed IH]; intros c events H.
    + exists c. cbn. rewrite app_nil_r. split; [done|apply same_parts_refl].
    + destruct H as [H|H]; [|discriminate].
      cbn [call_flush_callback CheckFlushCallback]. rewrite H. cbn [mbind option_bind].
      match goal with
      | |- context [call_flush_callback _ flushed (?c1, ?events1)] =>
          destruct (IH c1 events1) as (c' & E & Hs); [left; reflexivity|]
      end.
      exists c'. rewrite E, fmap_cons, <- app_assoc. split; [done|].
      unfold same_parts in *. cbn in Hs. rewrite H. exact Hs.
  - intros H Hne. destruct flushed as [|request flushed]; [done|].
    cbn [call_flush_callback CheckFlushCallback]. by rewrite H.
Qed.

Lemma call_ReportFlushCallback flushed c events :
  (report_transport_ c = true \/ flushed = [] ->
   exists c',
     call_flush_callback ReportFlushCallback flushed (c, events)
     = Some (c', events ++ (ReportTransport <$> flushed)) /\
     same_parts c c') /\
  (report_transport_ c = false -> flushed <> [] ->
   call_flush_callback ReportFlushCallback flushed (c, events) = None).
Proof.
  split.
  - revert c events. induction flushed as [|request flushed IH]; intros c events H.
    + exists c. cbn. rewrite app_nil_r. split; [done|apply same_parts_refl].
    + destruct H as [H|H]; [|discriminate].
      cbn [call_flush_callback ReportFlushCallback]. rewrite H. cbn [mbind option_bind].
      match goal with
      | |- context [call_flush_callback _ flushed (?c1, ?events1)] =>
          destruct (IH c1 events1) as (c' & E & Hs); [left; reflexivity|]
      end.
      exists c'. rewrite E, fmap_cons, <- app_assoc. split; [done|].
      unfold same_parts in *. cbn in Hs. rewrite H. exact Hs.
  - intros H Hne. destruct flushed as [|request flushed]; [done|].
    cbn [call_flush_callback ReportFlushCallback]. by rewrite H.
Qed.

Lemma call_CheckFlushCallback_Some flushed c events c' events' :
  call_flush_callback CheckFlushCallback flushed (c, events) = Some (c', events') ->
  events' = events ++ (CheckTransport <$> flushed) /\ same_parts c c' /\
  (check_transport_ c = true \/ flushed = []).
Proof.
  intros E. destruct (call_CheckFlushCallback flushed c events) as [H1 H2].
  assert (H : check_transport_ c = true \/ flushed = []).
  { destruct (check_transport_ c) eqn:Ht; [by left|].
    destruct flushed as [|request flushed]; [by right|].
    rewrite H2 in E; [discriminate|reflexivity|discriminate]. }
  destruct (H1 H) as (c2 & E2 & Hs). rewrite E2 in E. injection E as <- <-. done.
Qed.

Lemma call_ReportFlushCallback_Some flushed c events c' events' :
  call_flush_callback ReportFlushCallback flushed (c, events) = Some (c', events') ->
  events' = events ++ (ReportTransport <$> flushed) /\ same_parts c c' /\
  (report_transport_ c = true \/ flushed = []).
Proof.
  intros E. destruct (call_ReportFlushCallback flushed c events) as [H1 H2].
  assert (H : report_transport_ c = true \/ flushed = []).
  { destruct (report_transport_ c) eqn:Ht; [by left|].
    destruct flushed as [|request flushed]; [by right|].
    rewrite H2 in E; [discriminate|reflexivity|discriminate]. }
  destruct (H1 H) as (c2 & E2 & Hs). rewrite E2 in E. injection E as <- <-. done.
Qed.

(** The operations of a list of report requests, all together. *)
Definition total_operations (requests : list ReportRequest) : Z :=
  foldr Z.add 0 (ReportAggregatorImpl.operations_size <$> requests).

Lemma total_operations_app l1 l2 :
  total_operations (l1 ++ l2) = total_operations l1 + total_operations l2.
Proof.
  unfold total_operations. induction l1 as [|x l1 IH]; [reflexivity|].
  cbn in *. lia.
Qed.

Lemma total_operations_Add item items :
  total_operations (Add ReportAggregatorImpl.MergeItem item items)
  = total_operations items + ReportAggregatorImpl.operations_size item.
Proof.
  rewrite ReportAggregatorImpl.Add_MergeItem.
  destruct (last items) as [old_item|] eqn:E.
  - destruct (ReportAggregatorImpl.MergeItem item old_item).1.
    + apply last_Some in E as [l' ->]. rewrite removelast_last.
      rewrite !total_operations_app. unfold total_operations.
      unfold ReportAggregatorImpl.operations_size, ReportAggregatorImpl.MergeFrom.
      cbn. rewrite length_app. lia.
    + rewrite total_operations_app. unfold total_operations. cbn. lia.
  - apply last_None in E. subst. unfold total_operations. cbn. lia.
Qed.

Section Shutdown.
Context `{md5 : MD5}.

Lemma total_operations_delete_entries agg removed buffer :
  total_operations (ReportAggregatorImpl.delete_entries agg removed buffer)
  = total_operations buffer + Z.of_nat (length removed).
Proof.
  revert buffer. unfold ReportAggregatorImpl.delete_entries.
  induction removed as [|iop removed IH]; intros buffer.
  - cbn [fold_left length]. lia.
  - cbn [fold_left length]. rewrite IH.
    unfold ReportAggregatorImpl.OnCacheEntryDelete, AddRemovedItem.
    rewrite total_operations_Add.
    unfold ReportAggregatorImpl.operations_size. cbn. lia.
Qed.

(** With its callback set, [FlushAll] of the report aggregator hands every
    cached operation to the callback. *)
Lemma Report_FlushAll_total agg cache :
  ReportAggregatorImpl.cache_ agg = Some cache ->
  ReportAggregatorImpl.flush_callback_ agg = true ->
  total_operations (ReportAggregatorImpl.FlushAll agg).2
  = Z.of_nat (length (entries cache)).
Proof.
  intros Hc Hcb. unfold ReportAggregatorImpl.FlushAll. rewrite Hc, Hcb.
  unfold RemoveAll. cbn [snd]. rewrite flush_items_callback.
  rewrite total_operations_delete_entries.
  rewrite length_fmap, length_reverse. unfold total_operations. cbn [fmap list_fmap foldr]. lia.
Qed.

(** With its flush callback set, [FlushAll] of the report aggregator
    hands the callback requests of at most 100 operations each that hold
    as many operations together as the cache has entries, and leaves the
    cache empty. *)
Theorem Report_FlushAll_sends_all agg cache :
  ReportAggregatorImpl.cache_ agg = Some cache ->
  ReportAggregatorImpl.flush_callback_ agg = true ->
  total_operations (ReportAggregatorImpl.FlushAll agg).2
    = Z.of_nat (length (entries cache)) /\
  Forall ReportAggregatorImpl.small (ReportAggregatorImpl.FlushAll agg).2 /\
  values <$> ReportAggregatorImpl.cache_ (ReportAggregatorImpl.FlushAll agg).1.2
    = Some [].
Proof.
  intros Hc Hcb. split; [by apply Report_FlushAll_total|].
  split; [apply ReportAggregatorImpl.FlushAll_small|].
  unfold ReportAggregatorImpl.FlushAll. rewrite Hc. reflexivity.
Qed.

(** The operations the buffer of the report aggregator holds once the
    removed entries were added: those it held, then the operation of each
    entry, in order. *)
Lemma operations_delete_entries agg removed buffer :
  ReportAggregatorImpl.delete_entries agg removed buffer ≫= operations
  = (buffer ≫= operations) ++ (OperationAggregator.ToOperationProto <$> removed).
Proof.
  revert buffer. unfold ReportAggregatorImpl.delete_entries.
  induction removed as [|iop removed IH]; intros buffer.
  - cbn [fold_left fmap list_fmap]. by rewrite app_nil_r.
  - cbn [fold_left]. rewrite IH.
    unfold ReportAggregatorImpl.OnCacheEntryDelete, AddRemovedItem.
    rewrite ReportAggregatorImpl.Add_MergeItem_operations. cbn [operations].
    by rewrite fmap_cons, <- app_assoc.
Qed.

(** With its callback set, [FlushAll] of the report aggregator hands the
    operation of every entry to the callback, least recently used
    first. *)
Lemma Report_FlushAll_operations agg cache :
  ReportAggregatorImpl.cache_ agg = Some cache ->
  ReportAggregatorImpl.flush_callback_ agg = true ->
  (ReportAggregatorImpl.FlushAll agg).2 ≫= operations
  = OperationAggregator.ToOperationProto <$> reverse (values cache).
Proof.
  intros Hc Hcb. unfold ReportAggregatorImpl.FlushAll. rewrite Hc, Hcb.
  unfold RemoveAll. cbn [snd]. rewrite flush_items_callback.
  rewrite operations_delete_entries. unfold values. by rewrite fmap_reverse.
Qed.

(** The request [OnCacheEntryDelete] of the check aggregator buffers for
    an entry, if any. *)
Definition pending_request (agg : CheckAggregatorImpl.CheckAggregatorImpl)
    (elem : CheckAggregatorImpl.CacheElem) : option CheckRequest :=
  if CheckAggregatorImpl.HasPendingCheckRequest elem
  then Some (CheckAggregatorImpl.ReturnCheckRequestAndClear
               (CheckAggregatorImpl.service_name_ agg) elem).1
  else None.

Lemma Check_delete_entries agg removed buffer :
  CheckAggregatorImpl.delete_entries agg removed buffer
  = buffer ++ omap (pending_request agg) removed.
Proof.
  revert buffer. unfold CheckAggregatorImpl.delete_entries.
  induction removed as [|elem removed IH]; intros buffer.
  - cbn. by rewrite app_nil_r.
  - cbn [fold_left omap list_omap]. rewrite IH.
    unfold CheckAggregatorImpl.OnCacheEntryDelete, pending_request.
    destruct (CheckAggregatorImpl.HasPendingCheckRequest elem); cbn [negb]; [|done].
    destruct (CheckAggregatorImpl.ReturnCheckRequestAndClear _ elem) as [request e'].
    unfold AddRemovedItem. rewrite ReportAggregatorImpl.Add_MergeItem_default.
    cbn. by rewrite <- app_assoc.
Qed.

(** With its callback set, [FlushAll] of the check aggregator hands the
    pending request of every entry that has one to the callback, least
    recently used first. *)
Lemma Check_FlushAll_pending agg :
  CheckAggregatorImpl.flush_callback_ agg = true ->
  (CheckAggregatorImpl.FlushAll agg).2
  = omap (pending_request agg) (reverse (CheckAggregatorImpl.elems agg)).
Proof.
  intros Hcb. unfold CheckAggregatorImpl.FlushAll, CheckAggregatorImpl.elems.
  destruct (CheckAggregatorImpl.cache_ agg) as [cache|]; [|reflexivity].
  unfold RemoveAll. cbn [snd]. rewrite Hcb, flush_items_callback, Check_delete_entries.
  unfold values. by rewrite fmap_reverse.
Qed.

(** [FlushAll] of the client: the calls it makes when no flush callback
    throws, and when one does. *)
Lemma FlushAll_events c :
  (check_transport_ c = true
   \/ (CheckAggregatorImpl.FlushAll (check_aggregator_ c)).2 = [] ->
   report_transport_ c = true
   \/ (ReportAggregatorImpl.FlushAll (report_aggregator_ c)).2 = [] ->
   exists status c',
     FlushAll c
     = Some (status, c',
             [CheckFlushAll]
             ++ (CheckTransport <$> (CheckAggregatorImpl.FlushAll (check_aggregator_ c)).2)
             ++ [ReportFlushAll]
             ++ (ReportTransport
                 <$> (ReportAggregatorImpl.FlushAll (report_aggregator_ c)).2)) /\
     flush_timer_ c' = flush_timer_ c) /\
  (check_transport_ c = false
   /\ (CheckAggregatorImpl.FlushAll (check_aggregator_ c)).2 <> []
   \/ report_transport_ c = false
      /\ (ReportAggregatorImpl.FlushAll (report_aggregator_ c)).2 <> [] ->
   FlushAll c = None).
Proof.
  unfold FlushAll.
  destruct (CheckAggregatorImpl.FlushAll (check_aggregator_ c))
    as [[check_status check_agg] flushed_checks].
  cbn [snd].
  destruct (call_CheckFlushCallback flushed_checks (set_check_aggregator check_agg c)
              [CheckFlushAll]) as [Hchecks Hthrown].
  cbn [set_check_aggregator check_transport_] in Hchecks, Hthrown.
  split.
  - intros Hct Hrt. destruct (Hchecks Hct) as (c1 & -> & Hs1).
    cbn [mbind option_bind].
    destruct Hs1 as (_ & Hr1 & _ & Hrt1 & Ht1). cbn in Hr1, Hrt1, Ht1. rewrite Hr1.
    destruct (ReportAggregatorImpl.FlushAll (report_aggregator_ c))
      as [[report_status report_agg] flushed_reports].
    cbn [snd] in *.
    destruct (call_ReportFlushCallback flushed_reports
                (set_report_aggregator report_agg c1)
                (([CheckFlushAll] ++ (CheckTransport <$> flushed_checks))
                 ++ [ReportFlushAll])) as [Hreports _].
    cbn [set_report_aggregator report_transport_] in Hreports.
    rewrite Hrt1 in Hreports. destruct (Hreports Hrt) as (c2 & -> & Hs2).
    cbn [mbind option_bind]. eexists _, c2. rewrite <- !app_assoc.
    split; [reflexivity|].
    destruct Hs2 as (_ & _ & _ & _ & Ht2). cbn in Ht2. congruence.
  - intros [[Hct Hne]|[Hrt Hne]].
    + by rewrite (Hthrown Hct Hne).
    + destruct (call_flush_callback CheckFlushCallback flushed_checks _)
        as [[c1 events1]|] eqn:E1; [|reflexivity].
      cbn [mbind option_bind].
      apply call_CheckFlushCallback_Some in E1 as (_ & Hs1 & _).
      destruct Hs1 as (_ & Hr1 & _ & Hrt1 & _). cbn in Hr1, Hrt1. rewrite Hr1.
      destruct (ReportAggregatorImpl.FlushAll (report_aggregator_ c))
        as [[report_status report_agg] flushed_reports].
      cbn [snd] in *.
      destruct (call_ReportFlushCallback flushed_reports
                  (set_report_aggregator report_agg c1) (events1 ++ [ReportFlushAll]))
        as [_ Hthrown2].
      cbn [set_report_aggregator report_transport_] in Hthrown2.
      rewrite Hrt1 in Hthrown2. by rewrite (Hthrown2 Hrt Hne).
Qed.

(** C2, as the source has it. The destructor of the client first calls
    [FlushAll] on both caches, the check cache first, with the flush
    callbacks as they are; then stops the periodic timer, if there is one;
    then sets both flush callbacks to null. With the callbacks set (as the
    constructor leaves them), the pending request of every entry of the
    check cache and every operation of the report cache is handed to the
    flush callbacks during that [FlushAll], least recently used first, and
    the callbacks call the transports of the options with them. When a
    cache flushes a request out and the transport is not set, the callback
    throws and the destructor does not return. *)
Theorem shutdown_flushes_then_disconnects c :
  (check_transport_ c = true
   \/ (CheckAggregatorImpl.FlushAll (check_aggregator_ c)).2 = [] ->
   report_transport_ c = true
   \/ (ReportAggregatorImpl.FlushAll (report_aggregator_ c)).2 = [] ->
   exists c',
     delete_ServiceControlClientImpl c
     = Some (c',
             [CheckFlushAll]
             ++ (CheckTransport <$> (CheckAggregatorImpl.FlushAll (check_aggregator_ c)).2)
             ++ [ReportFlushAll]
             ++ (ReportTransport
                 <$> (ReportAggregatorImpl.FlushAll (report_aggregator_ c)).2)
             ++ (if flush_timer_ c then [TimerStop] else [])
             ++ [CheckSetFlushCallback false; ReportSetFlushCallback false]) /\
     CheckAggregatorImpl.flush_callback_ (check_aggregator_ c') = false /\
     ReportAggregatorImpl.flush_callback_ (report_aggregator_ c') = false) /\
  (check_transport_ c = false
   /\ (CheckAggregatorImpl.FlushAll (check_aggregator_ c)).2 <> []
   \/ report_transport_ c = false
      /\ (ReportAggregatorImpl.FlushAll (report_aggregator_ c)).2 <> [] ->
   delete_ServiceControlClientImpl c = None) /\
  (CheckAggregatorImpl.flush_callback_ (check_aggregator_ c) = true ->
   (CheckAggregatorImpl.FlushAll (check_aggregator_ c)).2
   = omap (pending_request (check_aggregator_ c))
          (reverse (CheckAggregatorImpl.elems (check_aggregator_ c)))) /\
  (ReportAggregatorImpl.flush_callback_ (report_aggregator_ c) = true ->
   forall cache,
     ReportAggregatorImpl.cache_ (report_aggregator_ c) = Some cache ->
     (ReportAggregatorImpl.FlushAll (report_aggregator_ c)).2 ≫= operations
     = OperationAggregator.ToOperationProto <$> reverse (values cache)).
Proof.
  destruct (FlushAll_events c) as [Hevents Hthrown].
  split; [|split; [|split; [apply Check_FlushAll_pending|
    intros Hcb cache Hc; by apply Report_FlushAll_operations]]].
  - intros Hct Hrt. destruct (Hevents Hct Hrt) as (status & c1 & E & Ht).
    unfold delete_ServiceControlClientImpl. rewrite E. cbn [mbind option_bind].
    rewrite Ht. eexists. split.
    { destruct (flush_timer_ c); rewrite <- ?app_assoc; reflexivity. }
    split; reflexivity.
  - intros H. unfold delete_ServiceControlClientImpl. by rewrite (Hthrown H).
Qed.

End Shutdown.

(** *** A client of the library service *)

Definition example_options : ServiceControlClientOptions :=
  mkServiceControlClientOptions
    (CheckAggregatorImpl.new_CheckAggregationOptions 10 100 200)
    (ReportAggregatorImpl.mkReportAggregationOptions 10 1000)
    None true true true.

Definition example_report : ReportRequest :=
  mkReportRequest "library.googleapis.com" ""
    [mkOperation "ListShelves" "project:p" None None ∅
       [mkMetricValueSet "requests" [mkMetricValue ∅ None None (Int64Value 1)]]
       [mkLogEntry "access" "GET /shelves"] LOW].

Definition example_client : ServiceControlClientImpl :=
  (new_ServiceControlClientImpl 1000 "library.googleapis.com" example_options).1.

(** The client once the report was made at time 0: the report is in the
    cache and the transport was not called. *)
Definition reporting_client : ServiceControlClientImpl :=
  match Report (md5 := plain_digest) example_report true 0 example_client with
  | Some (c, _) => c
  | None => example_client
  end.

(** C2, counterexample. The client holds one cached report when it is
    destroyed: both caches are flushed first, the report transport is
    called with the cached report, and only then is the timer stopped and
    are the callbacks set to null. *)
Lemma shutdown_sends_cached_report :
  snd <$> Report (md5 := plain_digest) example_report true 0 example_client
  = Some [OnDone OK] /\
  snd <$> delete_ServiceControlClientImpl reporting_client
  = Some [CheckFlushAll; ReportFlushAll; ReportTransport example_report; TimerStop;
          CheckSetFlushCallback false; ReportSetFlushCallback false].
Proof. split; vm_compute; reflexivity. Qed.

Lemma Report_FlushAll_sends_all_witness :
  total_operations
    (ReportAggregatorImpl.FlushAll (report_aggregator_ reporting_client)).2 = 1 /\
  Forall ReportAggregatorImpl.small
    (ReportAggregatorImpl.FlushAll (report_aggregator_ reporting_client)).2.
Proof.
  destruct (ReportAggregatorImpl.cache_ (report_aggregator_ reporting_client))
    as [cache|] eqn:E; [|vm_compute in E; discriminate].
  destruct (Report_FlushAll_sends_all (report_aggregator_ reporting_client) cache
              E eq_refl) as (Ht & Hs & _).
  split; [|exact Hs]. rewrite Ht.
  vm_compute in E. injection E as <-. reflexivity.
Defined.

(** The client that holds one cached report is destroyed: the destructor
    returns, and the operations of the flushed report requests are the
    operation of the report. *)
Lemma shutdown_flushes_then_disconnects_witness :
  is_Some (delete_ServiceControlClientImpl reporting_client) /\
  (ReportAggregatorImpl.FlushAll (report_aggregator_ reporting_client)).2 ≫= operations
  = operations example_report.
Proof.
  split.
  - destruct (proj1 (shutdown_flushes_then_disconnects reporting_client))
      as (c' & -> & _); [by left|by left|]. by eexists.
  - destruct (ReportAggregatorImpl.cache_ (report_aggregator_ reporting_client))
      as [cache|] eqn:E; [|vm_compute in E; discriminate].
    rewrite (proj2 (proj2 (proj2 (shutdown_flushes_then_disconnects reporting_client)))
               eq_refl cache E).
    vm_compute in E. injection E as <-. vm_compute. reflexivity.
Defined.

(** *** The statistics count the calls *)

(** The calls a client receives: from its user (with a transport of the
    call, or with the transports of the options), from the transport when
    a remote check ends, and from the timer. *)
Inductive Call : Type :=
| CallCheck (request : CheckRequest) (transport : bool) (now now' : Z)
| CallReport (request : ReportRequest) (transport : bool) (now : Z)
| CallCheckStored (request : CheckRequest) (now now' : Z)
| CallReportStored (request : ReportRequest) (now : Z)
| CheckTransportDone (request : CheckRequest) (response : CheckResponse)
                     (status : Code) (now : Z)
| TimerFired (now now' : Z)
| CallFlush (now now' : Z)
| CallFlushAll.

Section Run.
Context `{md5 : MD5}.

(** One call on the client: the client after it and the calls it made;
    [None] when a flush callback throws. *)
Definition make_call (call : Call) (c : ServiceControlClientImpl)
  : option (ServiceControlClientImpl * list Event) :=
  match call with
  | CallCheck request transport now now' =>
      '(c, _, events) ← Check request transport now now' c; Some (c, events)
  | CallReport request transport now => Report request transport now c
  | CallCheckStored request now now' =>
      '(c, _, events) ← Check_stored request now now' c; Some (c, events)
  | CallReportStored request now => Report_stored request now c
  | CheckTransportDone request response status now =>
      on_check_transport_done request response status now c
  | TimerFired now now' => on_timer now now' c
  | CallFlush now now' => '(_, c, events) ← Flush now now' c; Some (c, events)
  | CallFlushAll => '(_, c, events) ← FlushAll c; Some (c, events)
  end.

Definition run_call (state : option (ServiceControlClientImpl * list Event))
    (call : Call) : option (ServiceControlClientImpl * list Event) :=
  '(c, trace) ← state;
  '(c, events) ← make_call call c;
  Some (c, trace ++ events).

Definition run_calls (c : ServiceControlClientImpl) (calls : list Call)
  : option (ServiceControlClientImpl * list Event) :=
  fold_left run_call calls (Some (c, [])).

End Run.

(** The calls of a trace to the check transport, to the report transport,
    and the operations of the reports sent. *)
Definition checks_sent (trace : list Event) : Z :=
  Z.of_nat
    (length
       (List.filter (fun e => match e with CheckTransport _ => true | _ => false end)
                    trace)).
Definition reports_sent (trace : list Event) : Z :=
  Z.of_nat
    (length
       (List.filter (fun e => match e with ReportTransport _ => true | _ => false end)
                    trace)).
Definition operations_sent (trace : list Event) : Z :=
  foldr Z.add 0
    ((fun e => match e with
               | ReportTransport request => ReportAggregatorImpl.operations_size request
               | _ => 0
               end) <$> trace).

(** The calls of [Check] and of [Report] among the calls made. *)
Definition check_calls (calls : list Call) : Z :=
  Z.of_nat
    (length
       (List.filter (fun c => match c with
                              | CallCheck _ _ _ _ | CallCheckStored _ _ _ => true
                              | _ => false
                              end)
                    calls)).
Definition report_calls (calls : list Call) : Z :=
  Z.of_nat
    (length
       (List.filter (fun c => match c with
                              | CallReport _ _ _ | CallReportStored _ _ => true
                              | _ => false
                              end)
                    calls)).

(** Equality of counters read as [uint64_t]. *)
Definition same_uint64 (a b : Z) : Prop := uint64 a = uint64 b.

Lemma checks_sent_app t1 t2 : checks_sent (t1 ++ t2) = checks_sent t1 + checks_sent t2.
Proof. unfold checks_sent. rewrite List.filter_app, length_app. lia. Qed.

Lemma reports_sent_app t1 t2 :
  reports_sent (t1 ++ t2) = reports_sent t1 + reports_sent t2.
Proof. unfold reports_sent. rewrite List.filter_app, length_app. lia. Qed.

Lemma operations_sent_app t1 t2 :
  operations_sent (t1 ++ t2) = operations_sent t1 + operations_sent t2.
Proof.
  unfold operations_sent. induction t1 as [|e t1 IH]; [reflexivity|].
  cbn in *. lia.
Qed.

Lemma wrap64_multiple z : exists q, wrap64 z = z + q * 18446744073709551616.
Proof.
  unfold wrap64, wrap.
  change (2 ^ (64 - 1)) with 9223372036854775808.
  change (2 ^ 64) with 18446744073709551616.
  exists (- ((z + 9223372036854775808) / 18446744073709551616)).
  pose proof (Z.div_mod (z + 9223372036854775808) 18446744073709551616 ltac:(lia)).
  lia.
Qed.

(** Closes an equality of counters read as [uint64_t]: every wrap is the
    value plus a multiple of [2^64]. *)
Ltac solve_uint64 :=
  unfold same_uint64, uint64 in *;
  change (2 ^ 64) with 18446744073709551616 in *;
  repeat match goal with
         | |- context [wrap64 ?z] =>
             let q := fresh "q" in
             let Hq := fresh "Hq" in
             destruct (wrap64_multiple z) as [q Hq]; rewrite Hq; clear Hq
         end;
  Z.to_euclidean_division_equations; lia.

(** The counters of [c'] are those of [c] plus [checks] calls of [Check],
    [reports] calls of [Report] and what the calls of [events] to the
    transports make: the checks sent, the reports sent and the operations
    in the reports sent. *)
Definition moves (c c' : ServiceControlClientImpl) (checks reports : Z)
    (events : list Event) : Prop :=
  same_uint64 (total_called_checks_ c') (total_called_checks_ c + checks) /\
  same_uint64 (total_called_reports_ c') (total_called_reports_ c + reports) /\
  same_uint64 (send_checks_by_flush_ c' + send_checks_in_flight_ c')
              (send_checks_by_flush_ c + send_checks_in_flight_ c
               + checks_sent events) /\
  same_uint64 (send_reports_by_flush_ c' + send_reports_in_flight_ c')
              (send_reports_by_flush_ c + send_reports_in_flight_ c
               + reports_sent events) /\
  same_uint64 (send_report_operations_ c')
              (send_report_operations_ c + operations_sent events).

(** Proves that one step of the source moves the counters as stated. *)
Ltac solve_moves :=
  unfold moves, checks_sent, reports_sent, operations_sent; cbn;
  do 4 (split; [solve_uint64|]); solve_uint64.

Lemma moves_refl c : moves c c 0 0 [].
Proof. solve_moves. Qed.

Lemma moves_trans {c c' c'' k1 k2 l1 l2 e1 e2} :
  moves c c' k1 k2 e1 -> moves c' c'' l1 l2 e2 ->
  moves c c'' (k1 + l1) (k2 + l2) (e1 ++ e2).
Proof.
  unfold moves. rewrite checks_sent_app, reports_sent_app, operations_sent_app.
  generalize (checks_sent e1), (reports_sent e1), (operations_sent e1),
    (checks_sent e2), (reports_sent e2), (operations_sent e2).
  intros a1 a2 a3 b1 b2 b3 (H1 & H2 & H3 & H4 & H5) (G1 & G2 & G3 & G4 & G5).
  do 4 (split; [solve_uint64|]); solve_uint64.
Qed.

Lemma moves_eq {c c' k1 k2 e} l1 l2 e' :
  moves c c' k1 k2 e -> k1 = l1 -> k2 = l2 -> e = e' -> moves c c' l1 l2 e'.
Proof. by intros H <- <- <-. Qed.

Lemma moves_set_check_aggregator a c : moves c (set_check_aggregator a c) 0 0 [].
Proof. solve_moves. Qed.

Lemma moves_set_report_aggregator a c : moves c (set_report_aggregator a c) 0 0 [].
Proof. solve_moves. Qed.

Lemma moves_CheckFlushCallback flushed c events c' events' :
  call_flush_callback CheckFlushCallback flushed (c, events) = Some (c', events') ->
  moves c c' 0 0 (CheckTransport <$> flushed).
Proof.
  revert c events. induction flushed as [|request flushed IH]; intros c events.
  - cbn. intros [= <- <-]. apply moves_refl.
  - cbn [call_flush_callback CheckFlushCallback].
    destruct (check_transport_ c) eqn:Ht; [|discriminate]. cbn [mbind option_bind].
    intros E. apply IH in E.
    match type of E with
    | moves ?c1 _ _ _ _ =>
        assert (H1 : moves c c1 0 0 [CheckTransport request]) by solve_moves
    end.
    exact (moves_eq 0 0 _ (moves_trans H1 E) eq_refl eq_refl eq_refl).
Qed.

Lemma moves_ReportFlushCallback flushed c events c' events' :
  call_flush_callback ReportFlushCallback flushed (c, events) = Some (c', events') ->
  moves c c' 0 0 (ReportTransport <$> flushed).
Proof.
  revert c events. induction flushed as [|request flushed IH]; intros c events.
  - cbn. intros [= <- <-]. apply moves_refl.
  - cbn [call_flush_callback ReportFlushCallback].
    destruct (report_transport_ c) eqn:Ht; [|discriminate]. cbn [mbind option_bind].
    intros E. apply IH in E.
    match type of E with
    | moves ?c1 _ _ _ _ =>
        assert (H1 : moves c c1 0 0 [ReportTransport request]) by solve_moves
    end.
    exact (moves_eq 0 0 _ (moves_trans H1 E) eq_refl eq_refl eq_refl).
Qed.

(** Events that are no call to a transport. *)
Lemma moves_silent c c' k1 k2 events e :
  moves c c' k1 k2 events ->
  match e with CheckTransport _ | ReportTransport _ => False | _ => True end ->
  moves c c' k1 k2 (events ++ [e]) /\ moves c c' k1 k2 (e :: events).
Proof.
  unfold moves. rewrite checks_sent_app, reports_sent_app, operations_sent_app.
  intros H He.
  assert (Hs : checks_sent [e] = 0 /\ reports_sent [e] = 0 /\ operations_sent [e] = 0)
    by (by destruct e).
  assert (Hc : checks_sent (e :: events) = checks_sent events /\
               reports_sent (e :: events) = reports_sent events /\
               operations_sent (e :: events) = operations_sent events)
    by (by destruct e).
  destruct Hs as (-> & -> & ->). destruct Hc as (-> & -> & ->).
  by rewrite !Z.add_0_r.
Qed.

(** The client has both transports of the options. *)
Definition transports_set (c : ServiceControlClientImpl) : Prop :=
  check_transport_ c = true /\ report_transport_ c = true.

Section Statistics.
Context `{md5 : MD5}.

(** What a call does when it returns: the counters move with the calls it
    makes to the transports, and the transports of the options stay. *)
Definition accounted (c c' : ServiceControlClientImpl) (checks reports : Z)
    (events : list Event) : Prop :=
  moves c c' checks reports events /\
  check_transport_ c' = check_transport_ c /\
  report_transport_ c' = report_transport_ c.

Lemma accounted_Check request transport now now' c c' response events :
  Check request transport now now' c = Some (c', response, events) ->
  accounted c c' 1 0 events.
Proof.
  unfold Check, accounted. destruct transport; cbn [negb].
  - cbn [check_aggregator_].
    destruct (CheckAggregatorImpl.Check request now now' (check_aggregator_ c))
      as [[[status response0] aggregator] flushed].
    match goal with
    | |- context [call_flush_callback CheckFlushCallback flushed (?c1, [])] =>
        assert (H1 : moves c c1 1 0 []) by solve_moves;
        destruct (call_flush_callback CheckFlushCallback flushed (c1, []))
          as [[c2 events2]|] eqn:E; cbn [mbind option_bind]; [|discriminate]
    end.
    pose proof (moves_CheckFlushCallback _ _ _ _ _ E) as H2.
    apply call_CheckFlushCallback_Some in E as (-> & (_ & _ & Hct & Hrt & _) & _).
    cbn in Hct, Hrt. pose proof (moves_trans H1 H2) as H.
    destruct (bool_decide (status = NOT_FOUND)); intros [= <- <- <-].
    + split; [|by cbn].
      match goal with
      | |- moves _ ?c3 _ _ _ =>
          assert (H3 : moves c2 c3 0 0 [CheckTransport request]) by solve_moves
      end.
      exact (moves_eq 1 0 _ (moves_trans H H3) eq_refl eq_refl eq_refl).
    + split; [|done].
      refine (moves_eq 1 0 _ (proj1 (moves_silent _ _ _ _ _ (OnDone status) H I))
                       eq_refl eq_refl eq_refl).
  - intros [= <- <- <-]. split; [solve_moves|by cbn].
Qed.

Lemma accounted_Report request transport now c c' events :
  Report request transport now c = Some (c', events) ->
  accounted c c' 0 1 events.
Proof.
  unfold Report, accounted. destruct transport; cbn [negb].
  - cbn [report_aggregator_].
    destruct (ReportAggregatorImpl.Report request now (report_aggregator_ c))
      as [[status aggregator] flushed].
    match goal with
    | |- context [call_flush_callback ReportFlushCallback flushed (?c1, [])] =>
        assert (H1 : moves c c1 0 1 []) by solve_moves;
        destruct (call_flush_callback ReportFlushCallback flushed (c1, []))
          as [[c2 events2]|] eqn:E; cbn [mbind option_bind]; [|discriminate]
    end.
    pose proof (moves_ReportFlushCallback _ _ _ _ _ E) as H2.
    apply call_ReportFlushCallback_Some in E as (-> & (_ & _ & Hct & Hrt & _) & _).
    cbn in Hct, Hrt. pose proof (moves_trans H1 H2) as H.
    destruct (bool_decide (status = NOT_FOUND)); intros [= <- <-].
    + split; [|by cbn].
      match goal with
      | |- moves _ ?c3 _ _ _ =>
          assert (H3 : moves c2 c3 0 0 [ReportTransport request]) by solve_moves
      end.
      exact (moves_eq 0 1 _ (moves_trans H H3) eq_refl eq_refl eq_refl).
    + split; [|done].
      refine (moves_eq 0 1 _ (proj1 (moves_silent _ _ _ _ _ (OnDone status) H I))
                       eq_refl eq_refl eq_refl).
  - intros [= <- <-]. split; [solve_moves|by cbn].
Qed.

Lemma accounted_on_check_transport_done request response status now c c' events :
  on_check_transport_done request response status now c = Some (c', events) ->
  accounted c c' 0 0 events.
Proof.
  unfold on_check_transport_done, accounted. destruct (bool_decide (status = OK)).
  - destruct (CheckAggregatorImpl.CacheResponse request response now (check_aggregator_ c))
      as [[status' aggregator] flushed].
    destruct (call_flush_callback CheckFlushCallback flushed _)
      as [[c2 events2]|] eqn:E; cbn [mbind option_bind]; [|discriminate].
    pose proof (moves_CheckFlushCallback _ _ _ _ _ E) as H2.
    apply call_CheckFlushCallback_Some in E as (-> & (_ & _ & Hct & Hrt & _) & _).
    cbn in Hct, Hrt.
    pose proof (moves_trans (moves_set_check_aggregator aggregator c) H2) as H.
    intros [= <- <-]. split; [|done].
    refine (moves_eq 0 0 _ (proj1 (moves_silent _ _ _ _ _ (OnDone status) H I))
                     eq_refl eq_refl eq_refl).
  - cbn [mbind option_bind]. intros [= <- <-]. split; [solve_moves|done].
Qed.

Lemma accounted_on_timer now now' c c' events :
  on_timer now now' c = Some (c', events) -> accounted c c' 0 0 events.
Proof.
  unfold on_timer, accounted.
  destruct (CheckAggregatorImpl.Flush now (check_aggregator_ c))
    as [[status aggregator] flushed].
  destruct (call_flush_callback CheckFlushCallback flushed _)
    as [[c2 events2]|] eqn:E; cbn [mbind option_bind]; [|discriminate].
  pose proof (moves_CheckFlushCallback _ _ _ _ _ E) as H2.
  apply call_CheckFlushCallback_Some in E as (-> & (_ & _ & Hct & Hrt & _) & _).
  cbn in Hct, Hrt.
  pose proof (moves_trans (moves_set_check_aggregator aggregator c) H2) as H.
  destruct (ReportAggregatorImpl.Flush now' (report_aggregator_ c2))
    as [[status' aggregator'] flushed'].
  intros E'. pose proof (moves_ReportFlushCallback _ _ _ _ _ E') as H3.
  apply call_ReportFlushCallback_Some in E' as (-> & (_ & _ & Hct' & Hrt' & _) & _).
  cbn in Hct', Hrt'. split; [|split; congruence].
  exact (moves_eq 0 0 _
           (moves_trans H (moves_trans (moves_set_report_aggregator aggregator' c2) H3))
           eq_refl eq_refl eq_refl).
Qed.

Lemma Flush_on_timer now now' c :
  (fun result => (result.1.2, result.2)) <$> Flush now now' c = on_timer now now' c.
Proof.
  unfold Flush, on_timer.
  destruct (CheckAggregatorImpl.Flush now (check_aggregator_ c))
    as [[status aggregator] flushed].
  destruct (call_flush_callback CheckFlushCallback flushed _) as [[c2 events]|];
    [|reflexivity].
  cbn [mbind option_bind].
  destruct (ReportAggregatorImpl.Flush now' (report_aggregator_ c2))
    as [[status' aggregator'] flushed'].
  by destruct (call_flush_callback ReportFlushCallback flushed' _) as [[c3 events']|].
Qed.

Lemma accounted_Flush now now' c status c' events :
  Flush now now' c = Some (status, c', events) -> accounted c c' 0 0 events.
Proof.
  intros E. apply (accounted_on_timer now now'). by rewrite <- Flush_on_timer, E.
Qed.

Lemma accounted_FlushAll c status c' events :
  FlushAll c = Some (status, c', events) -> accounted c c' 0 0 events.
Proof.
  unfold FlushAll, accounted.
  destruct (CheckAggregatorImpl.FlushAll (check_aggregator_ c))
    as [[check_status aggregator] flushed].
  destruct (call_flush_callback CheckFlushCallback flushed _)
    as [[c2 events2]|] eqn:E; cbn [mbind option_bind]; [|discriminate].
  pose proof (moves_CheckFlushCallback _ _ _ _ _ E) as H2.
  apply call_CheckFlushCallback_Some in E as (-> & (_ & _ & Hct & Hrt & _) & _).
  cbn in Hct, Hrt.
  pose proof (moves_trans (moves_set_check_aggregator aggregator c) H2) as H.
  destruct (ReportAggregatorImpl.FlushAll (report_aggregator_ c2))
    as [[report_status aggregator'] flushed'].
  destruct (call_flush_callback ReportFlushCallback flushed' _)
    as [[c3 events3]|] eqn:E'; cbn [mbind option_bind]; [|discriminate].
  pose proof (moves_ReportFlushCallback _ _ _ _ _ E') as H3.
  apply call_ReportFlushCallback_Some in E' as (-> & (_ & _ & Hct' & Hrt' & _) & _).
  cbn in Hct', Hrt'. intros [= <- <- <-]. split; [|split; congruence].
  apply (moves_silent _ _ _ _ _ CheckFlushAll) in H as [_ H]; [|exact I].
  apply (moves_silent _ _ _ _ _ ReportFlushAll) in H as [H _]; [|exact I].
  exact (moves_eq 0 0 _
           (moves_trans H (moves_trans (moves_set_report_aggregator aggregator' c2) H3))
           eq_refl eq_refl eq_refl).
Qed.

End Statistics.

Section Returns.
Context `{md5 : MD5}.

(** With both transports of the options set, no flush callback throws:
    every call returns. *)
Lemma make_call_returns call c :
  transports_set c -> is_Some (make_call call c).
Proof.
  intros [Hct Hrt].
  assert (Hchecks : forall flushed a events,
    exists c', call_flush_callback CheckFlushCallback flushed
                 (set_check_aggregator a c, events)
               = Some (c', events ++ (CheckTransport <$> flushed)) /\
               same_parts (set_check_aggregator a c) c').
  { intros flushed a events. apply call_CheckFlushCallback. by left. }
  assert (Hreports : forall flushed a c1 events,
    report_transport_ c1 = true ->
    exists c', call_flush_callback ReportFlushCallback flushed
                 (set_report_aggregator a c1, events)
               = Some (c', events ++ (ReportTransport <$> flushed)) /\
               same_parts (set_report_aggregator a c1) c').
  { intros flushed a c1 events H. apply call_ReportFlushCallback. by left. }
  assert (HCheck : forall request transport now now',
    is_Some (Check request transport now now' c)).
  { intros request transport now now'. unfold Check.
    destruct transport; cbn [negb]; [|by eexists].
    cbn [check_aggregator_].
    destruct (CheckAggregatorImpl.Check request now now' (check_aggregator_ c))
      as [[[status response] aggregator] flushed].
    match goal with
    | |- context [call_flush_callback CheckFlushCallback flushed (?c1, [])] =>
        destruct (proj1 (call_CheckFlushCallback flushed c1 []))
          as (c2 & -> & _); [by left|]
    end.
    cbn [mbind option_bind]. by destruct (bool_decide _); eexists. }
  assert (HReport : forall request transport now,
    is_Some (Report request transport now c)).
  { intros request transport now. unfold Report.
    destruct transport; cbn [negb]; [|by eexists].
    cbn [report_aggregator_].
    destruct (ReportAggregatorImpl.Report request now (report_aggregator_ c))
      as [[status aggregator] flushed].
    match goal with
    | |- context [call_flush_callback ReportFlushCallback flushed (?c1, [])] =>
        destruct (proj1 (call_ReportFlushCallback flushed c1 []))
          as (c2 & -> & _); [by left|]
    end.
    cbn [mbind option_bind]. by destruct (bool_decide _); eexists. }
  destruct call as [request transport now now'|request transport now
                   |request now now'|request now
                   |request response status now|now now'|now now'|];
    cbn [make_call].
  - destruct (HCheck request transport now now') as [[[c' r] events] ->]. by eexists.
  - apply HReport.
  - unfold Check_stored.
    destruct (HCheck request (check_transport_ c) now now') as [[[c' r] events] ->].
    by eexists.
  - apply HReport.
  - unfold on_check_transport_done. destruct (bool_decide (status = OK)).
    + destruct (CheckAggregatorImpl.CacheResponse request response now
                  (check_aggregator_ c)) as [[status' aggregator] flushed].
      destruct (Hchecks flushed aggregator []) as (c2 & -> & _). by eexists.
    + by eexists.
  - unfold on_timer.
    destruct (CheckAggregatorImpl.Flush now (check_aggregator_ c))
      as [[status aggregator] flushed].
    destruct (Hchecks flushed aggregator []) as (c2 & -> & Hs).
    cbn [mbind option_bind].
    destruct (ReportAggregatorImpl.Flush now' (report_aggregator_ c2))
      as [[status' aggregator'] flushed'].
    destruct (Hreports flushed' aggregator' c2 ([] ++ (CheckTransport <$> flushed)))
      as (c3 & -> & _); [|by eexists].
    destruct Hs as (_ & _ & _ & H & _). cbn in H. congruence.
  - unfold Flush.
    destruct (CheckAggregatorImpl.Flush now (check_aggregator_ c))
      as [[status aggregator] flushed].
    destruct (Hchecks flushed aggregator []) as (c2 & -> & Hs).
    cbn [mbind option_bind].
    destruct (ReportAggregatorImpl.Flush now' (report_aggregator_ c2))
      as [[status' aggregator'] flushed'].
    destruct (Hreports flushed' aggregator' c2 ([] ++ (CheckTransport <$> flushed)))
      as (c3 & -> & _); [|by eexists].
    destruct Hs as (_ & _ & _ & H & _). cbn in H. congruence.
  - destruct (proj1 (FlushAll_events c)) as (status & c' & -> & _);
      [by left|by left|]. by eexists.
Qed.

(** A call that returns moves the counters with the calls it is and the
    calls it makes to the transports, and keeps the transports of the
    options. *)
Lemma accounted_make_call call c c' events :
  make_call call c = Some (c', events) ->
  accounted c c' (check_calls [call]) (report_calls [call]) events.
Proof.
  destruct call as [request transport now now'|request transport now
                   |request now now'|request now
                   |request response status now|now now'|now now'|];
    cbn [make_call].
  - destruct (Check request transport now now' c) as [[[c2 r] events2]|] eqn:E;
      [|discriminate].
    cbn [mbind option_bind]. intros [= <- <-].
    exact (accounted_Check _ _ _ _ _ _ _ _ E).
  - apply accounted_Report.
  - unfold Check_stored.
    destruct (Check request _ now now' c) as [[[c2 r] events2]|] eqn:E;
      [|discriminate].
    cbn [mbind option_bind]. intros [= <- <-].
    exact (accounted_Check _ _ _ _ _ _ _ _ E).
  - apply accounted_Report.
  - apply accounted_on_check_transport_done.
  - apply accounted_on_timer.
  - destruct (Flush now now' c) as [[[status c2] events2]|] eqn:E; [|discriminate].
    cbn [mbind option_bind]. intros [= <- <-].
    exact (accounted_Flush _ _ _ _ _ _ E).
  - destruct (FlushAll c) as [[[status c2] events2]|] eqn:E; [|discriminate].
    cbn [mbind option_bind]. intros [= <- <-].
    exact (accounted_FlushAll _ _ _ _ E).
Qed.

Lemma run_calls_snoc c calls call :
  run_calls c (calls ++ [call]) = run_call (run_calls c calls) call.
Proof. unfold run_calls. by rewrite fold_left_app. Qed.

Lemma accounted_run_calls c calls c' trace :
  run_calls c calls = Some (c', trace) ->
  accounted c c' (check_calls calls) (report_calls calls) trace.
Proof.
  revert c' trace. induction calls as [|call calls IH] using rev_ind; intros c' trace.
  - cbn. intros [= <- <-]. split; [apply moves_refl|done].
  - rewrite run_calls_snoc. unfold run_call.
    destruct (run_calls c calls) as [[c1 trace1]|]; [|discriminate].
    cbn [mbind option_bind].
    destruct (make_call call c1) as [[c2 events]|] eqn:E; [|discriminate].
    cbn [mbind option_bind]. intros [= <- <-].
    destruct (IH c1 trace1 eq_refl) as (H1 & Hct1 & Hrt1).
    destruct (accounted_make_call _ _ _ _ E) as (H2 & Hct2 & Hrt2).
    split; [|split; congruence].
    refine (moves_eq _ _ _ (moves_trans H1 H2) _ _ eq_refl).
    + unfold check_calls. rewrite List.filter_app, length_app. lia.
    + unfold report_calls. rewrite List.filter_app, length_app. lia.
Qed.

Lemma run_calls_returns c calls :
  transports_set c -> is_Some (run_calls c calls).
Proof.
  intros Hc. induction calls as [|call calls IH] using rev_ind; [by eexists|].
  rewrite run_calls_snoc. unfold run_call.
  destruct IH as [[c1 trace1] E]. rewrite E. cbn [mbind option_bind].
  destruct (accounted_run_calls _ _ _ _ E) as (_ & Hct & Hrt).
  destruct (make_call_returns call c1) as [[c2 events] ->]; [|by eexists].
  destruct Hc. split; congruence.
Qed.

(** The statistics count what the client did. A new client whose options
    have both transports returns from every call; and whenever a new
    client returned from the calls made, [total_called_checks] and
    [total_called_reports] are the numbers of calls of [Check] and of
    [Report], the checks sent by flush and in flight are together the
    calls of the check transport, the reports sent by flush and in flight
    are together the calls of the report transport, and
    [send_report_operations] is the number of operations in the reports
    handed to the report transport (all read as [uint64_t]). *)
Theorem statistics_count_calls Frequency service_name options calls :
  (check_transport options = true -> report_transport options = true ->
   is_Some (run_calls (new_ServiceControlClientImpl Frequency service_name options).1
                      calls)) /\
  (forall c trace,
     run_calls (new_ServiceControlClientImpl Frequency service_name options).1 calls
     = Some (c, trace) ->
     total_called_checks (GetStatistics c).2 = uint64 (check_calls calls) /\
     total_called_reports (GetStatistics c).2 = uint64 (report_calls calls) /\
     uint64 (send_checks_by_flush (GetStatistics c).2
             + send_checks_in_flight (GetStatistics c).2)
     = uint64 (checks_sent trace) /\
     uint64 (send_reports_by_flush (GetStatistics c).2
             + send_reports_in_flight (GetStatistics c).2)
     = uint64 (reports_sent trace) /\
     send_report_operations (GetStatistics c).2 = uint64 (operations_sent trace)).
Proof.
  assert (Hnew :
    total_called_checks_
      (new_ServiceControlClientImpl Frequency service_name options).1 = 0 /\
    total_called_reports_
      (new_ServiceControlClientImpl Frequency service_name options).1 = 0 /\
    send_checks_by_flush_
      (new_ServiceControlClientImpl Frequency service_name options).1 = 0 /\
    send_checks_in_flight_
      (new_ServiceControlClientImpl Frequency service_name options).1 = 0 /\
    send_reports_by_flush_
      (new_ServiceControlClientImpl Frequency service_name options).1 = 0 /\
    send_reports_in_flight_
      (new_ServiceControlClientImpl Frequency service_name options).1 = 0 /\
    send_report_operations_
      (new_ServiceControlClientImpl Frequency service_name options).1 = 0 /\
    check_transport_
      (new_ServiceControlClientImpl Frequency service_name options).1
    = check_transport options /\
    report_transport_
      (new_ServiceControlClientImpl Frequency service_name options).1
    = report_transport options).
  { unfold new_ServiceControlClientImpl. by destruct (_ && _). }
  destruct Hnew as (N1 & N2 & N3 & N4 & N5 & N6 & N7 & N8 & N9).
  split.
  - intros Hct Hrt. apply run_calls_returns. split; congruence.
  - intros c trace E.
    destruct (accounted_run_calls _ _ _ _ E) as ((H1 & H2 & H3 & H4 & H5) & _).
    rewrite N1, N2, N3, N4, N5, N6, N7 in *.
    unfold GetStatistics.
    cbn [snd total_called_checks total_called_reports send_checks_by_flush
         send_checks_in_flight send_reports_by_flush send_reports_in_flight
         send_report_operations].
    repeat split.
    + exact H1.
    + exact H2.
    + clear -H3. solve_uint64.
    + clear -H4. solve_uint64.
    + exact H5.
Qed.

End Returns.

Section Disabled.
Context `{md5 : MD5}.

(** A client whose two caches are disabled. *)
Definition pass_through (c : ServiceControlClientImpl) : Prop :=
  CheckAggregatorImpl.cache_ (check_aggregator_ c) = None /\
  ReportAggregatorImpl.cache_ (report_aggregator_ c) = None.

Lemma pass_through_Check request transport now now' c :
  pass_through c ->
  exists c' events,
    Check request transport now now' c = Some (c', None, events) /\
    check_aggregator_ c' = check_aggregator_ c /\
    report_aggregator_ c' = report_aggregator_ c /\
    (transport = true ->
     cq_service_name request = CheckAggregatorImpl.service_name_ (check_aggregator_ c) ->
     has_operation request = true ->
     events = [CheckTransport request]).
Proof.
  intros [Hc _]. unfold Check. destruct transport; cbn [negb check_aggregator_].
  - unfold CheckAggregatorImpl.Check. rewrite Hc.
    destruct (String.eqb_spec (cq_service_name request)
                (CheckAggregatorImpl.service_name_ (check_aggregator_ c))) as [E|E];
      cbn [negb].
    + destruct (has_operation request); cbn [negb].
      * destruct (bool_decide (importance (operation request) = LOW));
          cbn; eexists _, _; (split; [reflexivity|]); by cbn.
      * cbn. eexists _, _. split; [reflexivity|]. cbn. do 2 (split; [done|]).
        discriminate.
    + cbn. eexists _, _. split; [reflexivity|]. cbn. do 2 (split; [done|]).
      by intros _ ?.
  - eexists _, _. split; [reflexivity|]. cbn. do 2 (split; [done|]). discriminate.
Qed.

Lemma pass_through_Report request transport now c :
  pass_through c ->
  exists c' events,
    Report request transport now c = Some (c', events) /\
    check_aggregator_ c' = check_aggregator_ c /\
    report_aggregator_ c' = report_aggregator_ c /\
    (transport = true ->
     rq_service_name request
     = ReportAggregatorImpl.service_name_ (report_aggregator_ c) ->
     events = [ReportTransport request]).
Proof.
  intros [_ Hr]. unfold Report. destruct transport; cbn [negb report_aggregator_].
  - unfold ReportAggregatorImpl.Report. rewrite Hr.
    destruct (String.eqb_spec (rq_service_name request)
                (ReportAggregatorImpl.service_name_ (report_aggregator_ c))) as [E|E];
      cbn [negb].
    + destruct (ReportAggregatorImpl.HasHighImportantOperation request);
        cbn; eexists _, _; (split; [reflexivity|]); by cbn.
    + cbn. eexists _, _. split; [reflexivity|]. cbn. do 2 (split; [done|]).
      by intros _ ?.
  - eexists _, _. split; [reflexivity|]. cbn. do 2 (split; [done|]). discriminate.
Qed.

(** With both caches disabled no flush callback is called: every call
    returns, whatever the transports of the options, and leaves the
    aggregators as they are. *)
Lemma pass_through_make_call call c :
  pass_through c ->
  exists c' events,
    make_call call c = Some (c', events) /\
    check_aggregator_ c' = check_aggregator_ c /\
    report_aggregator_ c' = report_aggregator_ c.
Proof.
  intros Hp. pose proof Hp as [Hc Hr].
  destruct call as [request transport now now'|request transport now
                   |request now now'|request now
                   |request response status now|now now'|now now'|];
    cbn [make_call].
  - destruct (pass_through_Check request transport now now' c Hp)
      as (c' & events & -> & H1 & H2 & _). by eexists _, _.
  - destruct (pass_through_Report request transport now c Hp)
      as (c' & events & -> & H1 & H2 & _). by eexists _, _.
  - unfold Check_stored.
    destruct (pass_through_Check request (check_transport_ c) now now' c Hp)
      as (c' & events & -> & H1 & H2 & _). by eexists _, _.
  - unfold Report_stored.
    destruct (pass_through_Report request (report_transport_ c) now c Hp)
      as (c' & events & -> & H1 & H2 & _). by eexists _, _.
  - unfold on_check_transport_done, CheckAggregatorImpl.CacheResponse. rewrite Hc.
    destruct (bool_decide (status = OK)); cbn; by eexists _, _.
  - unfold on_timer, CheckAggregatorImpl.Flush, ReportAggregatorImpl.Flush.
    rewrite Hc. cbn. rewrite Hr. cbn. by eexists _, _.
  - unfold Flush, CheckAggregatorImpl.Flush, ReportAggregatorImpl.Flush.
    rewrite Hc. cbn. rewrite Hr. cbn. by eexists _, _.
  - unfold FlushAll, CheckAggregatorImpl.FlushAll, ReportAggregatorImpl.FlushAll.
    rewrite Hc. cbn. rewrite Hr. cbn. by eexists _, _.
Qed.

Lemma pass_through_run_calls c calls :
  pass_through c ->
  exists c' trace,
    run_calls c calls = Some (c', trace) /\
    check_aggregator_ c' = check_aggregator_ c /\
    report_aggregator_ c' = report_aggregator_ c.
Proof.
  intros Hp. induction calls as [|call calls IH] using rev_ind; [by eexists _, _|].
  destruct IH as (c1 & trace1 & E & H1 & H2).
  rewrite run_calls_snoc, E. unfold run_call. cbn [mbind option_bind].
  destruct (pass_through_make_call call c1) as (c2 & events & -> & G1 & G2).
  - unfold pass_through in *. by rewrite H1, H2.
  - cbn [mbind option_bind]. eexists _, _. split; [reflexivity|]. split; congruence.
Qed.

(** With both caches disabled ([num_entries <= 0] in the check and in the
    report options) the client starts no timer, even when it is given a
    timer factory, and answers nothing itself: whatever calls came before
    (they all return, whether the options have transports or not), a
    [Check] with a transport hands the request to the transport, unless
    the request names another service or has no operation, and a [Report]
    with a transport hands the request to the transport, unless it names
    another service. *)
Theorem disabled_caches_pass_through Frequency service_name options calls :
  CheckAggregatorImpl.num_entries (check_options options) <= 0 ->
  ReportAggregatorImpl.num_entries (report_options options) <= 0 ->
  (new_ServiceControlClientImpl Frequency service_name options).2
  = [CheckSetFlushCallback true; ReportSetFlushCallback true] /\
  exists c trace,
    run_calls (new_ServiceControlClientImpl Frequency service_name options).1 calls
    = Some (c, trace) /\
    (forall request now now',
       cq_service_name request = service_name -> has_operation request = true ->
       exists c',
         Check request true now now' c = Some (c', None, [CheckTransport request])) /\
    (forall request now,
       rq_service_name request = service_name ->
       exists c', Report request true now c = Some (c', [ReportTransport request])).
Proof.
  intros Hcn Hrn.
  set (c0 := (new_ServiceControlClientImpl Frequency service_name options).1).
  assert (H0 : pass_through c0 /\
               CheckAggregatorImpl.service_name_ (check_aggregator_ c0) = service_name /\
               ReportAggregatorImpl.service_name_ (report_aggregator_ c0)
               = service_name /\
               (new_ServiceControlClientImpl Frequency service_name options).2
               = [CheckSetFlushCallback true; ReportSetFlushCallback true]).
  { pose proof (proj2 (Z.ltb_ge 0 (CheckAggregatorImpl.num_entries
                                     (check_options options))) Hcn) as Hc0.
    pose proof (proj2 (Z.ltb_ge 0 (ReportAggregatorImpl.num_entries
                                     (report_options options))) Hrn) as Hr0.
    unfold c0, new_ServiceControlClientImpl, GetNextFlushInterval, pass_through,
      CheckAggregatorImpl.GetNextFlushInterval, ReportAggregatorImpl.GetNextFlushInterval,
      CheckAggregatorImpl.new_CheckAggregatorImpl,
      ReportAggregatorImpl.new_ReportAggregatorImpl.
    rewrite Hc0, Hr0. cbn. rewrite andb_false_r. cbn. done. }
  destruct H0 as (Hp & Hcs & Hrs & Hev).
  split; [exact Hev|].
  destruct (pass_through_run_calls c0 calls Hp) as (c & trace & E & Hca & Hra).
  exists c, trace. split; [exact E|].
  assert (Hp' : pass_through c) by (unfold pass_through in *; by rewrite Hca, Hra).
  split.
  - intros request now now' Hn Ho.
    destruct (pass_through_Check request true now now' c Hp')
      as (c' & events & -> & _ & _ & Hevents).
    exists c'. rewrite Hevents; [reflexivity|reflexivity| |exact Ho].
    by rewrite Hca, Hcs.
  - intros request now Hn.
    destruct (pass_through_Report request true now c Hp')
      as (c' & events & -> & _ & _ & Hevents).
    exists c'. rewrite Hevents; [reflexivity|reflexivity|]. by rewrite Hra, Hrs.
Qed.

End Disabled.

(** *** A client that checks and reports *)

Lemma statistics_count_calls_witness :
  exists c trace,
    run_calls (md5 := plain_digest) example_client
      [CallReport example_report true 0;
       CallCheckStored (mkCheckRequest "library.googleapis.com" None) 1 1;
       TimerFired 2000 2000;
       CallFlushAll] = Some (c, trace) /\
    total_called_checks (GetStatistics c).2 = 1 /\
    total_called_reports (GetStatistics c).2 = 1 /\
    send_report_operations (GetStatistics c).2 = uint64 (operations_sent trace).
Proof.
  destruct (statistics_count_calls (md5 := plain_digest) 1000 "library.googleapis.com"
              example_options
              [CallReport example_report true 0;
               CallCheckStored (mkCheckRequest "library.googleapis.com" None) 1 1;
               TimerFired 2000 2000;
               CallFlushAll]) as [Hreturns Hcounts].
  destruct Hreturns as [[c trace] E]; [reflexivity|reflexivity|].
  exists c, trace. split; [exact E|].
  destruct (Hcounts c trace E) as (H1 & H2 & _ & _ & H5).
  split; [exact H1|]. split; [exact H2|exact H5].
Defined.

(** *** A client without caches and without transports *)

(** No cache, no transport in the options, a timer factory. *)
Definition uncached_options : ServiceControlClientOptions :=
  mkServiceControlClientOptions
    (CheckAggregatorImpl.new_CheckAggregationOptions 0 100 200)
    (ReportAggregatorImpl.mkReportAggregationOptions 0 1000)
    None false false true.

Lemma disabled_caches_pass_through_witness :
  exists c trace c',
    run_calls (md5 := plain_digest)
      (new_ServiceControlClientImpl 1000 "library.googleapis.com" uncached_options).1
      [CallReport example_report true 0; TimerFired 5 5; CallFlushAll]
    = Some (c, trace) /\
    Report (md5 := plain_digest) example_report true 7 c
    = Some (c', [ReportTransport example_report]).
Proof.
  destruct (disabled_caches_pass_through (md5 := plain_digest) 1000
              "library.googleapis.com" uncached_options
              [CallReport example_report true 0; TimerFired 5 5; CallFlushAll])
    as (_ & c & trace & E & _ & Hreport).
  - vm_compute. discriminate.
  - vm_compute. discriminate.
  - destruct (Hreport example_report 7 eq_refl) as [c' E'].
    by exists c, trace, c'.
Defined.

End ServiceControlClientImpl.
